(** * GODcoin wallet: the chain synchronizer, the secret key, the settings
    store and the database migration

    A shallow embedding of the class [Synchronizer] with the instance of
    its module, of the class [SecretKey], of the class [Settings] and of
    [runMigrations].  Line numbers are those of the listing that holds the
    code: src/background/db/migrations.ts for the migration and the
    synchronizer, src/background/ipc.ts for the settings store.

    JavaScript runs every handler to completion up to its next [await]; the
    embedding follows that.  Each source function is cut at its [await]s into
    segments, a segment is a function on the synchronizer's state that runs
    up to the next suspension, and a suspended activation is a first-order
    value [Pc] that names the [await] it sits at together with its live
    local variables.  The transport, the persistent store, the timers and the
    clock are the environment: what the code asks of them is appended to a
    trace of [Effect]s, what they answer arrives as an [Event].  An [await]
    is a suspension point when the promise depends on the environment (a
    request to the node, a call of the store); an [await] on a call that ran
    to its end without one is not, since no event can be delivered before
    the caller goes on.

    The settings store is synchronous: its functions are computations on
    the files and the log that may throw. *)

From Stdlib Require Import ZArith String Lia.
From Stdlib.Strings Require Import Byte.
From stdpp Require Import base list pretty strings gmap.

Open Scope Z_scope.

(** ** Library values *)

(** [Long] of long.js, restricted to the unsigned 64-bit values the
    synchronizer works with (its constructor refuses a signed height). *)
Module Long.
Definition modulus : Z := 2 ^ 64.
Definition add (a b : Z) : Z := (a + b) mod modulus.
Definition lt (a b : Z) : bool := a <? b.
Definition lte (a b : Z) : bool := a <=? b.
Definition eq (a b : Z) : bool := a =? b.
End Long.

Definition Bytes := list byte.

(** [Buffer.compare]: lexicographic order on the unsigned byte values,
    [-1], [0] or [1]. *)
Fixpoint Buffer_compare (a b : Bytes) : Z :=
  match a, b with
  | [], [] => 0
  | [], _ :: _ => -1
  | _ :: _, [] => 1
  | x :: a', y :: b' =>
      match N.compare (Byte.to_N x) (Byte.to_N y) with
      | Lt => -1
      | Gt => 1
      | Eq => Buffer_compare a' b'
      end
  end.

(** [Array.prototype.findIndex], counting from [i]. *)
Fixpoint findIndex_from {A} (p : A -> bool) (i : Z) (l : list A) : Z :=
  match l with
  | [] => -1
  | x :: l' => if p x then i else findIndex_from p (i + 1) l'
  end.

Definition findIndex {A} (p : A -> bool) (l : list A) : Z := findIndex_from p 0 l.

Record ScriptHash := { bytes : Bytes }.

(** What the synchronizer uses of the godcoin package: keys and scripts
    with their hash, and [Asset] with its addition. *)
Class Godcoin := {
  PublicKey : Type;
  Script : Type;
  Asset : Type;
  toScript : PublicKey -> Script;
  hash : Script -> ScriptHash;
  (** [new Asset(Big(0))] *)
  Asset_zero : Asset;
  (** [a.add(b)] *)
  Asset_add : Asset -> Asset -> Asset;
  (** [a.amount.toString()] *)
  amount_toString : Asset -> string;
}.

(** The tags of [RpcType] the synchronizer names, and the others. *)
Inductive RpcType :=
  | Subscribe | SetBlockFilter | GetProperties | GetBlock | GetAddressInfo
  | OtherRpc (n : nat).

(** Errors: the ones the synchronizer throws itself, and whatever a
    rejected promise of the environment carries. *)
Inductive Error :=
  | ExpectedGetProperties
  | ExhaustiveCheckFailed (tag : nat)
  | UnexpectedRpcResponse (ty : RpcType)
  | MustBeUnsigned
  | External (msg : string).

Inductive Result (A : Type) :=
  | Ok (a : A)
  | Throw (e : Error).
Arguments Ok {A} a.
Arguments Throw {A} e.

Section Synchronizer.
Context `{G : Godcoin}.

(** The row descriptor [TxsTable.insert] returns ([TxRawRow] of ./db). *)
Context {TxRawRow : Type}.

(** ** Data *)

(** The four transaction classes, and [OtherTx] for a run-time value that
    is an instance of none of them (what line 302-303 guards against). *)
Inductive Tx :=
  | OwnerTxV0 (minter : PublicKey) (script : Script)
  | MintTxV0 (to : ScriptHash)
  | RewardTxV0 (to : ScriptHash)
  | TransferTxV0 (from to : ScriptHash)
  | OtherTx (tag : nat).

Record TxVariant := { tx : Tx }.

(** [block.block.header.height] and [block.block.transactions]. *)
Record Block := { height : Z; transactions : list TxVariant }.

(** The argument of [applyBlock]: [Block], or [[BlockHeader, SigPair]]. *)
Inductive FilteredBlock :=
  | FullBlock (block : Block)
  | HeaderOnly (header_height : Z).

(** ** Matching (lines 291-311) *)

Definition isWatched (watchAddrs : list ScriptHash) (addr : ScriptHash) : bool :=
  let index :=
    findIndex (fun watchAddr => Buffer_compare (bytes addr) (bytes watchAddr) =? 0)
              watchAddrs in
  index >? -1.

Definition txHasMatch (watchAddrs : list ScriptHash) (txVariant : TxVariant)
  : Result bool :=
  match tx txVariant with
  | OwnerTxV0 minter script =>
      Ok (isWatched watchAddrs (hash (toScript minter))
          || isWatched watchAddrs (hash script))
  | MintTxV0 to => Ok (isWatched watchAddrs to)
  | RewardTxV0 to => Ok (isWatched watchAddrs to)
  | TransferTxV0 from to =>
      Ok (isWatched watchAddrs from || isWatched watchAddrs to)
  | OtherTx tag => Throw (ExhaustiveCheckFailed tag)
  end.

(** ** Messages *)

(** Modelled from the spec: the member [Connecting] of the enum
    [SyncStatus].  The synchronizer uses it (lines 76, 102 and 158); the
    declaration in ipc-models.ts, lines 61-64, is of an earlier revision and
    lists [Complete] and [InProgress] only. *)
Inductive SyncStatus := Complete | InProgress | Connecting.

Record NewData := { totalBalance : string; txs : list TxRawRow }.
Record SyncUpdateRaw := { status : SyncStatus; newData : option NewData }.

Inductive RpcReq :=
  | ReqSubscribe
  | ReqSetBlockFilter (addrs : list ScriptHash)
  | ReqGetProperties
  | ReqGetAddressInfo (addr : ScriptHash).

Inductive RpcRes :=
  | ResSubscribe
  | ResSetBlockFilter
  | ResGetProperties (properties_height : Z)
  | ResGetBlock (block : Block)
  | ResGetAddressInfo (info_balance : Asset)
  | ResOther (n : nat).

Definition res_type (res : RpcRes) : RpcType :=
  match res with
  | ResSubscribe => Subscribe
  | ResSetBlockFilter => SetBlockFilter
  | ResGetProperties _ => GetProperties
  | ResGetBlock _ => GetBlock
  | ResGetAddressInfo _ => GetAddressInfo
  | ResOther n => OtherRpc n
  end.

Inductive LogLine :=
  | ReceivedBlockUpdate (h : Z)
  | FailedToHandleIncomingBlock (block : Block) (e : Error)
  | FailedToConfigure (e : Error)
  | FailureDuringSync (e : Error)
  | StartingSync (h : Z)
  | CurrentSyncHeight (h : Z)
  | SkippingApplied (h : Z)
  | ApplyingPending (h : Z)
  | SyncCompleted (h : Z)
  | MissedBlock (expected got : Z).

Definition Timer := nat.

(** What the synchronizer asks of its environment, in the order asked. *)
Inductive Effect :=
  | SendReq (req : RpcReq)
  | CallGetBlockRange (minHeight maxHeight : Z)
  | TxsInsert (wrapper : TxVariant)
  | SetSyncHeight (h : Z)
  | SetTotalBalance (bal : Asset)
  | Emit (update : SyncUpdateRaw)
  | IpcEmitSyncUpdate (update : SyncUpdateRaw)
  | Log (l : LogLine)
  | SetTimeout (t : Timer) (ms : Z)
  | ClearTimeout (t : Timer)
  | UnhandledRejection (e : Error).

(** ** Suspended activations *)

(** A reference to an array of the heap: [this.pendingBlocks] holds one,
    and so does the iterator of a drain loop that is under way. *)
Definition Ref := nat.

(** Who called [applyBlock]: the range callback (line 209), the drain
    loop (line 242) or the push handler (line 119), with the caller's live
    locals. *)
Inductive ApplyCtx :=
  | InRange (txs : list TxRawRow) (time : Z)
  | InDrain (arr : Ref) (i : nat) (txs : list TxRawRow) (totalBalance : Asset)
  | InPush (block : Block).

(** Who called [updateSyncHeight]: lines 214, 220, 248 and 131. *)
Inductive HeightCtx :=
  | RangeMatched (txs : list TxRawRow) (time : Z)
  | RangePeriodic (txs : list TxRawRow) (time curTime : Z)
  | Final (txs : list TxRawRow) (totalBalance : Asset)
  | Pushed (block : Block).

(** Who called [updateTotalBalance]: lines 230 and 124. *)
Inductive BalanceCtx :=
  | FullSync (txs : list TxRawRow)
  | LivePush (block : Block) (update_status : SyncStatus)
             (updatedTxs : list TxRawRow).

Inductive Pc :=
  | AwaitSubscribe                                   (* line 162 *)
  | AwaitSetBlockFilter                              (* line 167 *)
  | AwaitGetProperties                               (* line 194 *)
  | AwaitBlockRange (txs : list TxRawRow) (time : Z) (* line 203 *)
  | AwaitInsert (k : ApplyCtx) (height : Z) (rest : list TxVariant)
                (txs : list TxRawRow)                (* line 276 *)
  | AwaitSetSyncHeight (k : HeightCtx)               (* line 320 *)
  | AwaitAllAddressInfo (k : BalanceCtx)             (* line 334 *)
  | AwaitSetTotalBalance (k : BalanceCtx) (totalBal : Asset). (* line 342 *)

(** How a segment ends: it returned, it threw, or it sits at an [await]. *)
Inductive Outcome (A : Type) :=
  | Return (a : A)
  | Raise (e : Error)
  | Await (pc : Pc).
Arguments Return {A} a.
Arguments Raise {A} e.
Arguments Await {A} pc.

(** ** State *)

Record State := mkState {
  (* the fields of the object, lines 72-78 *)
  watchAddrs : list ScriptHash;
  currentHeight : Z;
  pendingBlocks : Ref;
  syncStatus : SyncStatus;
  fullSyncRetryTimer : option Timer;
  fullSyncInProgress : bool;
  (* the run time *)
  arrays : list (list Block);   (* the heap of block arrays *)
  timers : list Timer;          (* the timers that are armed *)
  timerSeq : Timer;             (* the next handle setTimeout returns *)
  clock : Z;                    (* Date.now() *)
  effects : list Effect;
}.

Definition set_currentHeight (h : Z) (s : State) : State :=
  mkState (watchAddrs s) h (pendingBlocks s) (syncStatus s)
          (fullSyncRetryTimer s) (fullSyncInProgress s) (arrays s) (timers s)
          (timerSeq s) (clock s) (effects s).
Definition set_pendingBlocks (r : Ref) (s : State) : State :=
  mkState (watchAddrs s) (currentHeight s) r (syncStatus s)
          (fullSyncRetryTimer s) (fullSyncInProgress s) (arrays s) (timers s)
          (timerSeq s) (clock s) (effects s).
Definition set_syncStatus (st : SyncStatus) (s : State) : State :=
  mkState (watchAddrs s) (currentHeight s) (pendingBlocks s) st
          (fullSyncRetryTimer s) (fullSyncInProgress s) (arrays s) (timers s)
          (timerSeq s) (clock s) (effects s).
Definition set_fullSyncRetryTimer (t : option Timer) (s : State) : State :=
  mkState (watchAddrs s) (currentHeight s) (pendingBlocks s) (syncStatus s)
          t (fullSyncInProgress s) (arrays s) (timers s)
          (timerSeq s) (clock s) (effects s).
Definition set_fullSyncInProgress (b : bool) (s : State) : State :=
  mkState (watchAddrs s) (currentHeight s) (pendingBlocks s) (syncStatus s)
          (fullSyncRetryTimer s) b (arrays s) (timers s)
          (timerSeq s) (clock s) (effects s).
Definition set_arrays (a : list (list Block)) (s : State) : State :=
  mkState (watchAddrs s) (currentHeight s) (pendingBlocks s) (syncStatus s)
          (fullSyncRetryTimer s) (fullSyncInProgress s) a (timers s)
          (timerSeq s) (clock s) (effects s).
Definition set_timers (ts : list Timer) (s : State) : State :=
  mkState (watchAddrs s) (currentHeight s) (pendingBlocks s) (syncStatus s)
          (fullSyncRetryTimer s) (fullSyncInProgress s) (arrays s) ts
          (timerSeq s) (clock s) (effects s).
Definition set_timerSeq (t : Timer) (s : State) : State :=
  mkState (watchAddrs s) (currentHeight s) (pendingBlocks s) (syncStatus s)
          (fullSyncRetryTimer s) (fullSyncInProgress s) (arrays s) (timers s)
          t (clock s) (effects s).
Definition set_clock (c : Z) (s : State) : State :=
  mkState (watchAddrs s) (currentHeight s) (pendingBlocks s) (syncStatus s)
          (fullSyncRetryTimer s) (fullSyncInProgress s) (arrays s) (timers s)
          (timerSeq s) c (effects s).
Definition set_effects (es : list Effect) (s : State) : State :=
  mkState (watchAddrs s) (currentHeight s) (pendingBlocks s) (syncStatus s)
          (fullSyncRetryTimer s) (fullSyncInProgress s) (arrays s) (timers s)
          (timerSeq s) (clock s) es.

Definition effect (e : Effect) (s : State) : State :=
  set_effects (effects s ++ [e]) s.

Definition log (l : LogLine) : State -> State := effect (Log l).

(** The array a reference points to. *)
Definition array (r : Ref) (s : State) : list Block :=
  default [] (arrays s !! r).

(** [this.pendingBlocks.push(block)] *)
Definition pendingBlocks_push (block : Block) (s : State) : State :=
  set_arrays (alter (fun a => a ++ [block]) (pendingBlocks s) (arrays s)) s.

(** [this.pendingBlocks = []]: a new, empty array. *)
Definition pendingBlocks_reset (s : State) : State :=
  set_pendingBlocks (length (arrays s)) (set_arrays (arrays s ++ [[]]) s).

(** [setTimeout(..., ms)] arms a timer and returns its handle. *)
Definition setTimeout (ms : Z) (s : State) : State * Timer :=
  let t := timerSeq s in
  (effect (SetTimeout t ms)
     (set_timerSeq (S t) (set_timers (timers s ++ [t]) s)), t).

(** [clearTimeout(t)]; Node's [clearInterval(t)] is the same function. *)
Definition clearTimeout (t : Timer) (s : State) : State :=
  effect (ClearTimeout t)
    (set_timers (filter (fun t' => t' ≠ t) (timers s)) s).

(** Lines 313-316. *)
Definition emitSyncUpdate (update : SyncUpdateRaw) (s : State) : State :=
  effect (IpcEmitSyncUpdate update) (effect (Emit update) s).

(** Lines 318-321, up to the [await]: the store is asked to write. *)
Definition updateSyncHeight (s : State) : State :=
  effect (SetSyncHeight (currentHeight s)) s.

(** [await f(...)] where the caller goes on with [ret] and catches with
    [catch]. *)
Definition continue {A} (r : State * Outcome A)
    (ret : A -> State -> State * Outcome unit)
    (catch : Error -> State -> State * Outcome unit) : State * Outcome unit :=
  match r with
  | (s, Return a) => ret a s
  | (s, Raise e) => catch e s
  | (s, Await pc) => (s, Await pc)
  end.

(** ** The Block Applier (lines 266-289) *)

(** Lines 283-288. *)
Definition applyBlock_height (height : Z) (txs : option (list TxRawRow))
    (s : State) : State * Outcome (option (list TxRawRow)) :=
  let s :=
    if negb (Long.eq (Long.add (currentHeight s) 1) height)
    then log (MissedBlock (Long.add (currentHeight s) 1) height) s
    else s in
  (set_currentHeight height s, Return txs).

(** The loop of lines 273-277 from one of its iterations on; [txs] is the
    local of that name.  It stops at the [await] of the first insert. *)
Fixpoint applyBlock_txs (k : ApplyCtx) (height : Z)
    (wrappers : list TxVariant) (txs : option (list TxRawRow)) (s : State)
    : State * Outcome (option (list TxRawRow)) :=
  match wrappers with
  | [] => applyBlock_height height txs s
  | wrapper :: rest =>
      match txHasMatch (watchAddrs s) wrapper with
      | Throw e => (s, Raise e)
      | Ok false => applyBlock_txs k height rest txs s
      | Ok true =>
          let txs := default [] txs in
          (effect (TxsInsert wrapper) s, Await (AwaitInsert k height rest txs))
      end
  end.

Definition applyBlock (k : ApplyCtx) (block : FilteredBlock) (s : State)
    : State * Outcome (option (list TxRawRow)) :=
  match block with
  | FullBlock block =>
      applyBlock_txs k (height block) (transactions block) None s
  | HeaderOnly height => applyBlock_height height None s
  end.

(** Line 276 once the insert has returned [row]: [txs.push(row)], and the
    loop goes on. *)
Definition applyBlock_inserted (k : ApplyCtx) (height : Z)
    (rest : list TxVariant) (txs : list TxRawRow) (row : TxRawRow) (s : State)
    : State * Outcome (option (list TxRawRow)) :=
  applyBlock_txs k height rest (Some (txs ++ [row])) s.

(** [if (updatedTxs && updatedTxs.length > 0) txs.push(...updatedTxs)] *)
Definition push_updated (txs : list TxRawRow)
    (updatedTxs : option (list TxRawRow)) : list TxRawRow :=
  match updatedTxs with
  | Some (row :: rows) => txs ++ row :: rows
  | _ => txs
  end.

(** ** The catch-up procedure (lines 143-264) *)

(** A throw inside [performFullSync]: its [finally] (line 262), then the
    [catch] and the [finally] of [startSync] (lines 178-185). *)
Definition performFullSync_throw (e : Error) (s : State)
    : State * Outcome unit :=
  let s := pendingBlocks_reset s in
  let s := log (FailureDuringSync e) s in
  let (s, t) := setTimeout 5000 s in
  let s := set_fullSyncRetryTimer (Some t) s in
  let s := set_fullSyncInProgress false s in
  (s, Return tt).

(** Lines 249-258, the [finally] of line 262 and the one of line 184. *)
Definition performFullSync_complete (txs : list TxRawRow)
    (totalBalance : Asset) (s : State) : State * Outcome unit :=
  let s := set_syncStatus Complete s in
  let s := emitSyncUpdate
             {| status := syncStatus s;
                newData := Some {| totalBalance := amount_toString totalBalance;
                                   txs := txs |} |} s in
  let s := log (SyncCompleted (currentHeight s)) s in
  let s := pendingBlocks_reset s in
  let s := set_fullSyncInProgress false s in
  (s, Return tt).

(** The loop of lines 235-246 over the blocks that are left of the array
    [arr], the first of them at index [i]; then line 248. *)
Fixpoint drain (arr : Ref) (i : nat) (blocks : list Block)
    (txs : list TxRawRow) (totalBalance : Asset) (s : State)
    : State * Outcome unit :=
  match blocks with
  | [] => (updateSyncHeight s, Await (AwaitSetSyncHeight (Final txs totalBalance)))
  | block :: blocks' =>
      if Long.lte (height block) (currentHeight s) then
        drain arr (S i) blocks' txs totalBalance
              (log (SkippingApplied (height block)) s)
      else
        continue
          (applyBlock (InDrain arr i txs totalBalance) (FullBlock block)
                      (log (ApplyingPending (height block)) s))
          (fun updatedTxs =>
             drain arr (S i) blocks' (push_updated txs updatedTxs) totalBalance)
          performFullSync_throw
  end.

(** ** The Balance Aggregator (lines 323-344) *)

(** Lines 324-334: one request per watched address, then [Promise.all]. *)
Definition updateTotalBalance (k : BalanceCtx) (s : State)
    : State * Outcome unit :=
  (foldl (fun s addr => effect (SendReq (ReqGetAddressInfo addr)) s)
         s (watchAddrs s),
   Await (AwaitAllAddressInfo k)).

(** The loop of lines 336-339. *)
Fixpoint sumBalances (totalBal : Asset) (responses : list RpcRes)
    : Result Asset :=
  match responses with
  | [] => Ok totalBal
  | ResGetAddressInfo balance :: responses' =>
      sumBalances (Asset_add totalBal balance) responses'
  | res :: _ => Throw (UnexpectedRpcResponse (res_type res))
  end.

(** Lines 335-342 once every request has been answered. *)
Definition updateTotalBalance_all (k : BalanceCtx) (responses : list RpcRes)
    (s : State) : State * Outcome Asset :=
  match sumBalances Asset_zero responses with
  | Throw e => (s, Raise e)
  | Ok totalBal =>
      (effect (SetTotalBalance totalBal) s, Await (AwaitSetTotalBalance k totalBal))
  end.

(** ** The push handler (lines 108-136) *)

(** The [catch] of line 132. *)
Definition subMsg_catch (block : Block) (e : Error) (s : State)
    : State * Outcome unit :=
  (log (FailedToHandleIncomingBlock block e) s, Return tt).

(** Lines 130-131. *)
Definition subMsg_emit (block : Block) (update : SyncUpdateRaw) (s : State)
    : State * Outcome unit :=
  let s := emitSyncUpdate update s in
  (updateSyncHeight s, Await (AwaitSetSyncHeight (Pushed block))).

(** Lines 120-131, once [applyBlock] has returned. *)
Definition subMsg_applied (block : Block)
    (updatedTxs : option (list TxRawRow)) (s : State) : State * Outcome unit :=
  let st := syncStatus s in
  match updatedTxs with
  | Some (row :: rows) => updateTotalBalance (LivePush block st (row :: rows)) s
  | _ => subMsg_emit block {| status := st; newData := None |} s
  end.

(** Lines 110-131, up to the first [await].  The pushed block is a full
    block, as the type the handler casts it to says ([res.block as Block]). *)
Definition subMsg (res : RpcRes) (s : State) : State * Outcome unit :=
  match res with
  | ResGetBlock block =>
      match syncStatus s with
      | Complete =>
          let s := log (ReceivedBlockUpdate (height block)) s in
          continue (applyBlock (InPush block) (FullBlock block) s)
                   (subMsg_applied block) (subMsg_catch block)
      | _ => (pendingBlocks_push block s, Return tt)
      end
  | _ => (s, Return tt)
  end.

(** ** The range callback (lines 205-224) *)

(** A throw inside the callback rejects the callback's own promise, which
    nobody awaits; the promise of line 203 stays pending. *)
Definition callback_throw (txs : list TxRawRow) (time : Z) (e : Error)
    (s : State) : State * Outcome unit :=
  (effect (UnhandledRejection e) s, Await (AwaitBlockRange txs time)).

(** Lines 217-223. *)
Definition callback_timing (txs : list TxRawRow) (time : Z) (s : State)
    : State * Outcome unit :=
  let curTime := clock s in
  if curTime - time >? 5000
  then (updateSyncHeight s,
        Await (AwaitSetSyncHeight (RangePeriodic txs time curTime)))
  else (s, Await (AwaitBlockRange txs time)).

(** Lines 210-223, once [applyBlock] has returned. *)
Definition callback_applied (txs : list TxRawRow) (time : Z)
    (updatedTxs : option (list TxRawRow)) (s : State) : State * Outcome unit :=
  match updatedTxs with
  | Some (row :: rows) =>
      (updateSyncHeight s,
       Await (AwaitSetSyncHeight (RangeMatched (txs ++ row :: rows) time)))
  | _ => callback_timing txs time s
  end.

(** The callback as the client calls it with [(err, filteredBlock)]. *)
Definition callback (txs : list TxRawRow) (time : Z) (err : option Error)
    (filteredBlock : option FilteredBlock) (s : State) : State * Outcome unit :=
  match err, filteredBlock with
  | Some e, _ => performFullSync_throw e s                     (* reject *)
  | None, None => updateTotalBalance (FullSync txs) s          (* resolve *)
  | None, Some block =>
      continue (applyBlock (InRange txs time) block s)
               (callback_applied txs time) (callback_throw txs time)
  end.

(** ** Resuming a suspended activation *)

(** What an awaited promise settles with. *)
Inductive Value :=
  | VUnit
  | VRes (res : RpcRes)
  | VAll (responses : list RpcRes)
  | VRow (row : TxRawRow).

Inductive Completion :=
  | Fulfilled (v : Value)
  | Rejected (e : Error).

(** [applyBlock] has returned to its caller. *)
Definition applyBlock_return (k : ApplyCtx)
    (updatedTxs : option (list TxRawRow)) (s : State) : State * Outcome unit :=
  match k with
  | InRange txs time => callback_applied txs time updatedTxs s
  | InDrain arr i txs totalBalance =>
      drain arr (S i) (drop (S i) (array arr s))
            (push_updated txs updatedTxs) totalBalance s
  | InPush block => subMsg_applied block updatedTxs s
  end.

(** [applyBlock] has thrown to its caller. *)
Definition applyBlock_throw (k : ApplyCtx) (e : Error) (s : State)
    : State * Outcome unit :=
  match k with
  | InRange txs time => callback_throw txs time e s
  | InDrain _ _ _ _ => performFullSync_throw e s
  | InPush block => subMsg_catch block e s
  end.

(** [updateSyncHeight] has returned to its caller. *)
Definition updateSyncHeight_return (k : HeightCtx) (s : State)
    : State * Outcome unit :=
  match k with
  | RangeMatched txs time => callback_timing txs time s
  | RangePeriodic txs _ curTime =>
      (log (CurrentSyncHeight (currentHeight s)) s,
       Await (AwaitBlockRange txs curTime))
  | Final txs totalBalance => performFullSync_complete txs totalBalance s
  | Pushed _ => (s, Return tt)
  end.

Definition updateSyncHeight_throw (k : HeightCtx) (e : Error) (s : State)
    : State * Outcome unit :=
  match k with
  | RangeMatched txs time => callback_throw txs time e s
  | RangePeriodic txs time _ => callback_throw txs time e s
  | Final _ _ => performFullSync_throw e s
  | Pushed block => subMsg_catch block e s
  end.

(** [updateTotalBalance] has returned to its caller: the drain of line
    235 starts on the array [this.pendingBlocks] holds now; the push
    handler goes on at line 125. *)
Definition updateTotalBalance_return (k : BalanceCtx) (totalBalance : Asset)
    (s : State) : State * Outcome unit :=
  match k with
  | FullSync txs =>
      drain (pendingBlocks s) 0 (array (pendingBlocks s) s) txs totalBalance s
  | LivePush block st updatedTxs =>
      subMsg_emit block
        {| status := st;
           newData := Some {| totalBalance := amount_toString totalBalance;
                              txs := updatedTxs |} |} s
  end.

Definition updateTotalBalance_throw (k : BalanceCtx) (e : Error) (s : State)
    : State * Outcome unit :=
  match k with
  | FullSync _ => performFullSync_throw e s
  | LivePush block _ _ => subMsg_catch block e s
  end.

(** Lines 189-196. *)
Definition performFullSync (s : State) : State * Outcome unit :=
  let s := log (StartingSync (currentHeight s)) s in
  (effect (SendReq ReqGetProperties) s, Await AwaitGetProperties).

(** Lines 197-230, once the properties have arrived. *)
Definition performFullSync_properties (chainPropsBody : RpcRes) (s : State)
    : State * Outcome unit :=
  match chainPropsBody with
  | ResGetProperties chainHeight =>
      if Long.lt (currentHeight s) chainHeight then
        let time := clock s in
        (effect (CallGetBlockRange (Long.add (currentHeight s) 1) chainHeight) s,
         Await (AwaitBlockRange [] time))
      else updateTotalBalance (FullSync []) s
  | _ => performFullSync_throw ExpectedGetProperties s
  end.

(** Lines 143-177, up to the first [await]. *)
Definition startSync (s : State) : State * Outcome unit :=
  if fullSyncInProgress s then (s, Return tt)
  else
    let s := set_fullSyncInProgress true s in
    let s := match fullSyncRetryTimer s with
             | Some t => set_fullSyncRetryTimer None (clearTimeout t s)
             | None => s
             end in
    let oldStatus := syncStatus s in
    let s := set_syncStatus InProgress s in
    let s := emitSyncUpdate {| status := syncStatus s; newData := None |} s in
    match oldStatus with
    | Connecting => (effect (SendReq ReqSubscribe) s, Await AwaitSubscribe)
    | _ => performFullSync s
    end.

(** Lines 166-170. *)
Definition startSync_subscribed (s : State) : State * Outcome unit :=
  (effect (SendReq (ReqSetBlockFilter (watchAddrs s))) s,
   Await AwaitSetBlockFilter).

(** The [catch] of lines 171-173, then line 177. *)
Definition startSync_catch (e : Error) (s : State) : State * Outcome unit :=
  performFullSync (log (FailedToConfigure e) s).

(** The activation at [pc] goes on with what its promise settled with;
    [None] when the promise of that [await] cannot settle so. *)
Definition resume (pc : Pc) (c : Completion) (s : State)
    : option (State * Outcome unit) :=
  match pc, c with
  | AwaitSubscribe, Fulfilled (VRes _) => Some (startSync_subscribed s)
  | AwaitSubscribe, Rejected e => Some (startSync_catch e s)
  | AwaitSetBlockFilter, Fulfilled (VRes _) => Some (performFullSync s)
  | AwaitSetBlockFilter, Rejected e => Some (startSync_catch e s)
  | AwaitGetProperties, Fulfilled (VRes res) =>
      Some (performFullSync_properties res s)
  | AwaitGetProperties, Rejected e => Some (performFullSync_throw e s)
  | AwaitInsert k height rest txs, Fulfilled (VRow row) =>
      Some (continue (applyBlock_inserted k height rest txs row s)
                     (applyBlock_return k) (applyBlock_throw k))
  | AwaitInsert k _ _ _, Rejected e => Some (applyBlock_throw k e s)
  | AwaitSetSyncHeight k, Fulfilled VUnit => Some (updateSyncHeight_return k s)
  | AwaitSetSyncHeight k, Rejected e => Some (updateSyncHeight_throw k e s)
  | AwaitAllAddressInfo k, Fulfilled (VAll responses) =>
      if decide (length responses = length (watchAddrs s)) then
        Some (continue (updateTotalBalance_all k responses s)
                       (updateTotalBalance_return k) (updateTotalBalance_throw k))
      else None
  | AwaitAllAddressInfo k, Rejected e => Some (updateTotalBalance_throw k e s)
  | AwaitSetTotalBalance k totalBal, Fulfilled VUnit =>
      Some (updateTotalBalance_return k totalBal s)
  | AwaitSetTotalBalance k _, Rejected e => Some (updateTotalBalance_throw k e s)
  | _, _ => None
  end.

(** ** The event loop *)

(** The [close] handler, lines 95-106. *)
Definition onClose (s : State) : State :=
  let s := set_fullSyncInProgress false s in
  let s := match fullSyncRetryTimer s with
           | Some t => set_fullSyncRetryTimer None (clearTimeout t s)
           | None => s
           end in
  let s := set_syncStatus Connecting s in
  emitSyncUpdate {| status := syncStatus s; newData := None |} s.

Record System := { state : State; activations : list Pc }.

(** A handler has run up to its first suspension. *)
Definition spawn (activations : list Pc) (r : State * Outcome unit) : System :=
  match r with
  | (s, Await pc) => {| state := s; activations := activations ++ [pc] |}
  | (s, Return _) => {| state := s; activations := activations |}
  | (s, Raise e) => {| state := effect (UnhandledRejection e) s; activations := activations |}
  end.

(** Activation [i] has run up to its next suspension. *)
Definition settle (activations : list Pc) (i : nat) (r : State * Outcome unit)
    : System :=
  match r with
  | (s, Await pc) => {| state := s; activations := <[i:=pc]> activations |}
  | (s, Return _) => {| state := s; activations := delete i activations |}
  | (s, Raise e) =>
      {| state := effect (UnhandledRejection e) s; activations := delete i activations |}
  end.

Inductive Event :=
  | ClientOpen
  | ClientClose
  | SubMsg (res : RpcRes)
  | Timeout (t : Timer)
  | Settled (i : nat) (c : Completion)
  | RangeCallback (i : nat) (err : option Error)
                  (filteredBlock : option FilteredBlock)
  | Tick (dt : Z).

(** One turn of the event loop; [None] when the event cannot happen in
    that state.

    Modelled from the spec: [getBlockRange] of the client (./client is not
    among the sources), "streaming; undefined signals end-of-range; callback
    invoked in ascending height order".  [RangeCallback] is one call of the
    callback, with a block, with the end of the range or with an error; the
    client makes the next call when the previous one has finished. *)
Definition step (e : Event) (sys : System) : option System :=
  let s := state sys in
  match e with
  | ClientOpen => Some (spawn (activations sys) (startSync s))
  | ClientClose => Some {| state := onClose s; activations := activations sys |}
  | SubMsg res => Some (spawn (activations sys) (subMsg res s))
  | Timeout t =>
      if decide (t ∈ timers s) then
        Some (spawn (activations sys)
                (startSync (set_timers (filter (fun t' => t' ≠ t) (timers s)) s)))
      else None
  | Settled i c =>
      pc ← activations sys !! i;
      r ← resume pc c s;
      Some (settle (activations sys) i r)
  | RangeCallback i err filteredBlock =>
      match activations sys !! i with
      | Some (AwaitBlockRange txs time) =>
          Some (settle (activations sys) i (callback txs time err filteredBlock s))
      | _ => None
      end
  | Tick dt =>
      if decide (0 <= dt) then
        Some {| state := set_clock (clock s + dt) s; activations := activations sys |}
      else None
  end.

Fixpoint run (es : list Event) (sys : System) : option System :=
  match es with
  | [] => Some sys
  | e :: es' => sys' ← step e sys; run es' sys'
  end.

(** The constructor, lines 80-93, with [client.isOpen()] as [isOpen]. *)
Definition new (watchAddrs : list ScriptHash) (syncHeight : Z)
    (syncHeight_unsigned : bool) (isOpen : bool) (now : Z) : Result System :=
  if negb syncHeight_unsigned then Throw MustBeUnsigned
  else
    let s := {| watchAddrs := watchAddrs; currentHeight := syncHeight;
                pendingBlocks := 0%nat; syncStatus := Connecting;
                fullSyncRetryTimer := None; fullSyncInProgress := false;
                arrays := [[]]; timers := []; timerSeq := 0%nat;
                clock := now; effects := [] |} in
    Ok (if isOpen then spawn [] (startSync s) else {| state := s; activations := [] |}).

(** ** Reading a run *)

(** The activation belongs to a call of [startSync], that is, to a bulk
    catch-up cycle; the other activations are calls of the push handler. *)
Definition inCatchUp (pc : Pc) : bool :=
  match pc with
  | AwaitSubscribe | AwaitSetBlockFilter | AwaitGetProperties
  | AwaitBlockRange _ _ => true
  | AwaitInsert (InPush _) _ _ _ => false
  | AwaitInsert _ _ _ _ => true
  | AwaitSetSyncHeight (Pushed _) => false
  | AwaitSetSyncHeight _ => true
  | AwaitAllAddressInfo (LivePush _ _ _) => false
  | AwaitAllAddressInfo _ => true
  | AwaitSetTotalBalance (LivePush _ _ _) _ => false
  | AwaitSetTotalBalance _ _ => true
  end.

(** The catch-up cycles in flight. *)
Definition catchUps (sys : System) : list Pc :=
  filter (fun pc => inCatchUp pc = true) (activations sys).

(** The transactions the store was asked to insert, in order. *)
Fixpoint inserted (es : list Effect) : list TxVariant :=
  match es with
  | [] => []
  | TxsInsert wrapper :: es' => wrapper :: inserted es'
  | _ :: es' => inserted es'
  end.

(** The totals the store was asked to persist, in order. *)
Fixpoint persisted (es : list Effect) : list Asset :=
  match es with
  | [] => []
  | SetTotalBalance bal :: es' => bal :: persisted es'
  | _ :: es' => persisted es'
  end.

(** The matching rule in the words of the specification's table. *)
Definition matching_rule (watch : list ScriptHash) (t : Tx) : Prop :=
  match t with
  | OwnerTxV0 minter script =>
      hash (toScript minter) ∈ watch \/ hash script ∈ watch
  | MintTxV0 to => to ∈ watch
  | RewardTxV0 to => to ∈ watch
  | TransferTxV0 from to => from ∈ watch \/ to ∈ watch
  | OtherTx _ => False
  end.

Definition recognized (t : Tx) : Prop :=
  match t with OtherTx _ => False | _ => True end.

Definition isMatch (watch : list ScriptHash) (wrapper : TxVariant) : bool :=
  match txHasMatch watch wrapper with Ok true => true | _ => false end.

(** The transactions of a block that match. *)
Definition matched (watch : list ScriptHash) (block : Block) : list TxVariant :=
  filter (fun w => isMatch watch w = true) (transactions block).

(** The buffered blocks a drain applies when the local height is [h] at
    its start: those above the height reached so far. *)
Fixpoint drained (h : Z) (blocks : list Block) : list Block :=
  match blocks with
  | [] => []
  | block :: blocks' =>
      if height block <=? h then drained h blocks'
      else block :: drained (height block) blocks'
  end.

(** The resumption that ends a cycle with success: line 248 has returned. *)
Definition completes (pc : Pc) (c : Completion) : bool :=
  match pc, c with
  | AwaitSetSyncHeight (Final _ _), Fulfilled VUnit => true
  | _, _ => false
  end.

(** What one segment of a catch-up cycle does to the control state: when
    it sits at an [await] again, the in-progress flag, the status and the
    queue are as they were; when the cycle has ended, the flag is cleared,
    [this.pendingBlocks] is a new array, empty, and the status is
    [Complete] if it ended with success ([completed]) and as it was if not.
    It never throws out of [startSync]. *)
Definition catchUp_segment (completed : bool) (s : State)
    (r : State * Outcome unit) : Prop :=
  watchAddrs r.1 = watchAddrs s
  /\ match r.2 with
     | Await pc =>
         inCatchUp pc = true
         /\ fullSyncInProgress r.1 = fullSyncInProgress s
         /\ syncStatus r.1 = syncStatus s
         /\ pendingBlocks r.1 = pendingBlocks s
         /\ arrays r.1 = arrays s
     | Return _ =>
         fullSyncInProgress r.1 = false
         /\ array (pendingBlocks r.1) r.1 = []
         /\ syncStatus r.1 = (if completed then Complete else syncStatus s)
         /\ arrays r.1 = arrays s ++ [[]]
         /\ pendingBlocks r.1 = length (arrays s)
     | Raise _ => False
     end.

(** What one segment of the push handler does to it: nothing. *)
Definition push_segment (s : State) (r : State * Outcome unit) : Prop :=
  watchAddrs r.1 = watchAddrs s
  /\ fullSyncInProgress r.1 = fullSyncInProgress s
  /\ syncStatus r.1 = syncStatus s
  /\ pendingBlocks r.1 = pendingBlocks s
  /\ arrays r.1 = arrays s
  /\ match r.2 with
     | Await pc => inCatchUp pc = false
     | Return _ => True
     | Raise _ => False
     end.


Definition row_settled (i : nat) (row : TxRawRow) : Event :=
  Settled i (Fulfilled (VRow row)).

(** What the caller of [applyBlock] receives when the store has returned
    [rows] for the inserts of one block. *)
Definition collected (acc : option (list TxRawRow)) (rows : list TxRawRow)
    : option (list TxRawRow) :=
  match rows with
  | [] => acc
  | _ => Some (default [] acc ++ rows)
  end.

Definition blockHeight (block : FilteredBlock) : Z :=
  match block with
  | FullBlock block => height block
  | HeaderOnly height => height
  end.

(** Everything but the height cursor and the trace is as it was. *)
Definition applier_frame (s s1 : State) : Prop :=
  watchAddrs s1 = watchAddrs s /\ pendingBlocks s1 = pendingBlocks s
  /\ syncStatus s1 = syncStatus s
  /\ fullSyncRetryTimer s1 = fullSyncRetryTimer s
  /\ fullSyncInProgress s1 = fullSyncInProgress s
  /\ arrays s1 = arrays s /\ timers s1 = timers s
  /\ timerSeq s1 = timerSeq s /\ clock s1 = clock s.

End Synchronizer.

Arguments Return {G TxRawRow A} a.
Arguments Raise {G TxRawRow A} e.
Arguments Await {G TxRawRow A} pc.

(** ** The secret key (class [SecretKey]; line numbers of its own listing) *)

Module Crypto.

(** What opening a box gives: the message, or an error with a message. *)
Inductive Opened :=
  | Opens (message : Bytes)
  | Fails (msg : string).

(** What [SecretKey] uses of libsodium's secretbox. *)
Class Sodium := {
  crypto_secretbox_KEYBYTES : nat;
  crypto_secretbox_NONCEBYTES : nat;
  crypto_secretbox_MACBYTES : nat;
  (** [crypto_secretbox_easy(message, nonce, key)] *)
  crypto_secretbox_easy : Bytes -> Bytes -> Bytes -> Bytes;
  (** [crypto_secretbox_open_easy(ciphertext, nonce, key)] *)
  crypto_secretbox_open_easy : Bytes -> Bytes -> Bytes -> Opened;
}.

Inductive DecryptErrorType := INCORRECT_PASSWORD | UNKNOWN.

Inductive CryptoError :=
  | AssertionError (msg : string)
  | DecryptError (type : DecryptErrorType) (msg : string).

Inductive Res (A : Type) :=
  | Returns (a : A)
  | Throws (e : CryptoError).
Arguments Returns {A} a.
Arguments Throws {A} e.

(** The constructor of [DecryptError], lines 65-75. *)
Definition new_DecryptError (msg : string) : CryptoError :=
  if String.eqb msg "wrong secret key for the given ciphertext"
  then DecryptError INCORRECT_PASSWORD msg
  else DecryptError UNKNOWN msg.

Section SecretKey.
Context `{S : Sodium}.

(** The field [key]; [None] is [undefined]. *)
Record SecretKey := { key : option Bytes }.

(** Lines 11-14: the assertion throws out of the constructor. *)
Definition new (k : Bytes) : Res SecretKey :=
  if decide (length k = crypto_secretbox_KEYBYTES)
  then Returns {| key := Some k |}
  else Throws (AssertionError "expected key length to be secretbox KEYBYTES").

(** Lines 16-21; [nonce] is what [randomBytes(NONCEBYTES)] returned. *)
Definition encrypt (sk : SecretKey) (nonce : Bytes) (data : Bytes)
    : Res Bytes :=
  match key sk with
  | None => Throws (AssertionError "key has been zeroed")
  | Some k =>
      let enc := crypto_secretbox_easy data nonce k in
      Returns (nonce ++ enc)
  end.

(** Lines 23-35. *)
Definition decrypt (sk : SecretKey) (data : Bytes) : Res Bytes :=
  match key sk with
  | None => Throws (AssertionError "key has been zeroed")
  | Some k =>
      if decide (crypto_secretbox_NONCEBYTES < length data)%nat then
        let nonce := take crypto_secretbox_NONCEBYTES data in
        let enc := drop crypto_secretbox_NONCEBYTES data in
        match crypto_secretbox_open_easy enc nonce k with
        | Opens dec => Returns dec
        | Fails msg => Throws (new_DecryptError msg)
        end
      else Throws (AssertionError "data must be at least NONCEBYTES + 1 bytes")
  end.

(** Lines 37-40. *)
Definition key_bytes (sk : SecretKey) : Res Bytes :=
  match key sk with
  | None => Throws (AssertionError "key has been zeroed")
  | Some k => Returns k
  end.

(** Lines 42-47. *)
Definition zero (sk : SecretKey) : SecretKey :=
  match key sk with
  | Some _ => {| key := None |}
  | None => sk
  end.

End SecretKey.
End Crypto.

(** ** A small instance to run the model on *)

(** Keys and scripts are byte strings that hash to themselves, an asset is
    its amount in the smallest unit, a row is the number the store gave it. *)
Definition Toy : Godcoin :=
  {| PublicKey := Bytes; Script := Bytes; Asset := Z;
     toScript := fun k => k; hash := Build_ScriptHash;
     Asset_zero := 0; Asset_add := Z.add; amount_toString := fun a => pretty a |}.

(** A secretbox that keeps the message in the clear behind an all-zero
    authenticator; it opens any box that is long enough. *)
Definition ToySodium : Crypto.Sodium :=
  {| Crypto.crypto_secretbox_KEYBYTES := 32;
     Crypto.crypto_secretbox_NONCEBYTES := 24;
     Crypto.crypto_secretbox_MACBYTES := 16;
     Crypto.crypto_secretbox_easy := fun m _ _ => replicate 16 "000"%byte ++ m;
     Crypto.crypto_secretbox_open_easy := fun c _ _ =>
       if decide (16 <= length c)%nat then Crypto.Opens (drop 16 c)
       else Crypto.Fails "wrong secret key for the given ciphertext" |}.

(** The scenes the statements below are run on: a wallet that watches the
    addresses [A] and [B], with rows numbered by the store. *)
Module Example.
Definition A : ScriptHash := {| bytes := ["a"%byte] |}.
Definition B : ScriptHash := {| bytes := ["b"%byte] |}.
Definition C : ScriptHash := {| bytes := ["c"%byte] |}.

Definition transfer (from to : ScriptHash) : TxVariant (G := Toy) :=
  {| tx := TransferTxV0 from to |}.
Definition reward (to : ScriptHash) : TxVariant (G := Toy) :=
  {| tx := RewardTxV0 to |}.
Definition unknown : TxVariant (G := Toy) := {| tx := OtherTx 7 |}.

Definition block (h : Z) (ws : list (TxVariant (G := Toy))) : Block (G := Toy) :=
  {| height := h; transactions := ws |}.

(** The synchronizer at height [h] with status [st] and [queue] pending. *)
Definition at_height (h : Z) (st : SyncStatus) (queue : list (Block (G := Toy)))
    : State (G := Toy) (TxRawRow := nat) :=
  mkState [A; B] h 0%nat st None false [queue] [] 0%nat 1000 [].

(** Just constructed, the client not open yet; and once it has opened. *)
Definition closed : System (G := Toy) (TxRawRow := nat) :=
  {| state := at_height 5 Connecting []; activations := [] |}.
Definition opened : System (G := Toy) (TxRawRow := nat) :=
  spawn [] (startSync (at_height 5 Connecting [])).

(** A catch-up cycle of a wallet that is at the chain's height already. *)
Definition catchUp : list (Event (G := Toy) (TxRawRow := nat)) :=
  [Settled 0 (Fulfilled (VRes ResSubscribe));
   Settled 0 (Fulfilled (VRes ResSetBlockFilter));
   Settled 0 (Fulfilled (VRes (ResGetProperties 5)));
   Settled 0 (Fulfilled (VAll [ResGetAddressInfo (G := Toy) 3;
                               ResGetAddressInfo (G := Toy) 4]));
   Settled 0 (Fulfilled VUnit);
   Settled 0 (Fulfilled VUnit)].


(** Three buffered blocks: the second is at the height the first leaves. *)
Definition queue : list (Block (G := Toy)) :=
  [block 6 [transfer B A]; block 6 [transfer A B]; block 7 [reward B; transfer C C]].

(** A catch-up cycle during which two blocks are pushed, the second while
    the drain waits for the insert of the first. *)
Definition catchUp_with_pushes : list (Event (G := Toy) (TxRawRow := nat)) :=
  [Settled 0 (Fulfilled (VRes ResSubscribe));
   Settled 0 (Fulfilled (VRes ResSetBlockFilter));
   Settled 0 (Fulfilled (VRes (ResGetProperties 5)));
   SubMsg (ResGetBlock (block 6 [transfer B A]));
   Settled 0 (Fulfilled (VAll [ResGetAddressInfo (G := Toy) 3;
                               ResGetAddressInfo (G := Toy) 4]));
   Settled 0 (Fulfilled VUnit);
   SubMsg (ResGetBlock (block 7 [reward B]));
   Settled 0 (Fulfilled (VRow 51%nat));
   Settled 0 (Fulfilled (VRow 52%nat));
   Settled 0 (Fulfilled VUnit)].

(** A key and a nonce of the lengths of the toy secretbox. *)
Definition key32 : Bytes := replicate 32 "001"%byte.
Definition nonce24 : Bytes := replicate 24 "002"%byte.
End Example.


(** ** Database migrations ([runMigrations], lines 1-40 of
    src/background/db/migrations.ts) *)

Module Migrations.

(** A row of the table [migrations]. *)
Record MigrationData := { id : Z; version : Z }.

Inductive Console :=
  | CurrentDatabaseVersion (version : Z)
  | UpgradedTo1.

Inductive Error :=
  | TableAlreadyExists               (* CREATE TABLE on a table that exists *)
  | NoSuchTable                      (* INSERT into a table that does not *)
  | ConstraintFailed                 (* PRIMARY KEY, UNIQUE or CHECK *)
  | TypeError                        (* [data.version] with [data] undefined *)
  | UpgradeFailed (data : MigrationData).

Inductive Res (A : Type) :=
  | Returns (a : A)
  | Throws (e : Error).
Arguments Returns {A} a.
Arguments Throws {A} e.

(** As much of the database as the migration reads and writes: the table
    [migrations], absent or with its rows in rowid order, and the console. *)
Record Db := { table : option (list MigrationData); console : list Console }.

Definition set_table (t : option (list MigrationData)) (db : Db) : Db :=
  {| table := t; console := console db |}.

Definition console_log (l : Console) (db : Db) : Db :=
  {| table := table db; console := console db ++ [l] |}.

(** [db.get("SELECT name FROM sqlite_master WHERE type='table' AND name=?",
    [migTblName])]: the row with the name, or [undefined]. *)
Definition get_table_name (db : Db) : option string :=
  match table db with
  | Some _ => Some "migrations"%string
  | None => None
  end.

(** [db.get(`SELECT * FROM migrations`)]: the first row, or [undefined]. *)
Definition get_first_row (db : Db) : option MigrationData :=
  match table db with
  | Some rows => head rows
  | None => None
  end.

(** [db.run(`CREATE TABLE migrations(id INTEGER PRIMARY KEY UNIQUE
    CHECK(id == 0), version INTEGER)`)] *)
Definition create_table (db : Db) : Db * Res unit :=
  match table db with
  | Some _ => (db, Throws TableAlreadyExists)
  | None => (set_table (Some []) db, Returns tt)
  end.

(** [db.run(`INSERT INTO migrations(id, version) VALUES(?, ?)`, [i, v])]
    under the constraints of the table. *)
Definition insert_row (i v : Z) (db : Db) : Db * Res unit :=
  match table db with
  | None => (db, Throws NoSuchTable)
  | Some rows =>
      if negb (i =? 0) then (db, Throws ConstraintFailed)
      else if existsb (fun r => id r =? i) rows then (db, Throws ConstraintFailed)
      else (set_table (Some (rows ++ [{| id := i; version := v |}])) db, Returns tt)
  end.

(** Lines 12-23. *)
Definition read_data (db : Db) : option MigrationData :=
  let tbl := get_table_name db in
  let exists_ := match tbl with
                 | Some name => String.eqb name "migrations"
                 | None => false
                 end in
  if exists_ then get_first_row db
  else Some {| id := 0; version := 0 |}.

(** Lines 28-32, the case of version 0. *)
Definition upgrade_to_1 (db : Db) : Db * Res unit :=
  match create_table db with
  | (db, Throws e) => (db, Throws e)
  | (db, Returns _) =>
      match insert_row 0 1 db with
      | (db, Throws e) => (db, Throws e)
      | (db, Returns _) => (console_log UpgradedTo1 db, Returns tt)
      end
  end.

Definition runMigrations (db : Db) : Db * Res unit :=
  match read_data db with
  | None => (db, Throws TypeError)                       (* line 25 *)
  | Some data =>
      let db := console_log (CurrentDatabaseVersion (version data)) db in
      if version data =? 0 then upgrade_to_1 db           (* falls through to 1 *)
      else if version data =? 1 then (db, Returns tt)
      else (db, Throws (UpgradeFailed data))
  end.

End Migrations.

(** ** Reading a run: requests, statuses, the retry timer *)

Section SynchronizerRuns.
Context `{G : Godcoin} {TxRawRow : Type}.
Implicit Types (s : State (TxRawRow := TxRawRow)).

(** The requests sent to the remote node, in order. *)
Fixpoint requests (es : list (Effect (TxRawRow := TxRawRow))) : list RpcReq :=
  match es with
  | [] => []
  | SendReq req :: es' => req :: requests es'
  | _ :: es' => requests es'
  end.

(** The updates emitted on [sync_update], in order. *)
Fixpoint emitted (es : list (Effect (TxRawRow := TxRawRow)))
    : list (SyncUpdateRaw (TxRawRow := TxRawRow)) :=
  match es with
  | [] => []
  | Emit update :: es' => update :: emitted es'
  | _ :: es' => emitted es'
  end.

(** The ranges asked of [getBlockRange], in order. *)
Fixpoint ranges (es : list (Effect (TxRawRow := TxRawRow))) : list (Z * Z) :=
  match es with
  | [] => []
  | CallGetBlockRange a b :: es' => (a, b) :: ranges es'
  | _ :: es' => ranges es'
  end.

(** The heights the store was asked to persist, in order. *)
Fixpoint heights (es : list (Effect (TxRawRow := TxRawRow))) : list Z :=
  match es with
  | [] => []
  | SetSyncHeight h :: es' => h :: heights es'
  | _ :: es' => heights es'
  end.




(** [this.pendingBlocks] refers to an array of the heap. *)
Definition queue_valid s : Prop := (pendingBlocks s < length (arrays s))%nat.


End SynchronizerRuns.

(** ** What the synchronizer may ask of its environment *)

Section Trace.
Context `{G : Godcoin} {TxRawRow : Type}.

(** A request about the watch set [watch]: a subscription, the chain
    properties, the block filter on [watch], the balance of one of its
    addresses. *)
Definition request_about (watch : list ScriptHash) (req : RpcReq) : Prop :=
  match req with
  | ReqSubscribe | ReqGetProperties => True
  | ReqSetBlockFilter addrs => addrs = watch
  | ReqGetAddressInfo addr => addr ∈ watch
  end.

Definition effect_about (watch : list ScriptHash)
    (e : Effect (TxRawRow := TxRawRow)) : Prop :=
  match e with
  | SendReq req => request_about watch req
  | TxsInsert wrapper => isMatch watch wrapper = true
  | _ => True
  end.

(** The trace of [s'] extends the one of [s] by effects about the watch
    set, which is the same. *)
Definition extends (s s' : State (TxRawRow := TxRawRow)) : Prop :=
  watchAddrs s' = watchAddrs s
  /\ exists es, effects s' = effects s ++ es
                /\ Forall (effect_about (watchAddrs s)) es.

End Trace.

(** ** What the Block Applier leaves on the trace *)

Section ApplierTrace.
Context `{G : Godcoin} {TxRawRow : Type}.

(** An insert or a log line. *)
Definition applier_effect (e : Effect (TxRawRow := TxRawRow)) : Prop :=
  match e with
  | TxsInsert _ | Log _ => True
  | _ => False
  end.

(** The update the push handler emits for a block whose inserts returned
    [rows], when the balances of the watched addresses are [balances]. *)
Definition push_update (st : SyncStatus) (rows : list TxRawRow)
    (balances : list Asset) : SyncUpdateRaw :=
  {| status := st;
     newData :=
       match rows with
       | [] => None
       | _ => Some {| totalBalance :=
                        amount_toString (foldl Asset_add Asset_zero balances);
                      txs := rows |}
       end |}.

(** What the environment answers after the inserts of a pushed block: the
    balances and the write of the total when there were rows, and the
    write of the height. *)
Definition push_answers (rows : list TxRawRow) (balances : list Asset)
    : list (Event (TxRawRow := TxRawRow)) :=
  match rows with
  | [] => []
  | _ => [Settled 0 (Fulfilled (VAll (ResGetAddressInfo <$> balances)));
          Settled 0 (Fulfilled VUnit)]
  end ++ [Settled 0 (Fulfilled VUnit)].

End ApplierTrace.

Section RangeCallback.
Context `{G : Godcoin} {TxRawRow : Type}.



(** The activation sits inside a call of the range callback, with [txs]
    and [time] the values of the variables of those names. *)
Definition inRangeCallback (txs : list TxRawRow) (time : Z) (pc : Pc) : Prop :=
  match pc with
  | AwaitInsert (InRange txs' time') _ _ _ => txs' = txs /\ time' = time
  | AwaitSetSyncHeight (RangeMatched txs' time') => txs' = txs /\ time' = time
  | AwaitSetSyncHeight (RangePeriodic txs' time' _) => txs' = txs /\ time' = time
  | _ => False
  end.

End RangeCallback.

(** ** What the callers of the Balance Aggregator do with its error *)

Section AggregatorCallers.
Context `{G : Godcoin} {TxRawRow : Type}.

(** The error [e] the aggregator threw at state [s] has reached its
    caller, and [r] is what the caller made of it.  The catch-up procedure
    ends as a failed cycle: the error is logged as a failure of the
    synchronization, the retry timer is armed for 5000 ms and held, the
    in-progress flag is cleared, the queue is replaced by an empty one,
    the status and the height stay.  The push handler logs the error with
    its block and is done.  Either way the store is asked to persist no
    total. *)
Definition caught_by_caller (k : BalanceCtx (TxRawRow := TxRawRow)) (e : Error)
    (s : State (TxRawRow := TxRawRow))
    (r : option (State (TxRawRow := TxRawRow)
                 * Outcome (TxRawRow := TxRawRow) unit)) : Prop :=
  exists s',
    r = Some (s', Return tt)
    /\ persisted (effects s') = persisted (effects s)
    /\ match k with
       | FullSync _ =>
           effects s'
           = effects s ++ [Log (FailureDuringSync e);
                           SetTimeout (timerSeq s) 5000]
           /\ fullSyncRetryTimer s' = Some (timerSeq s)
           /\ timers s' = timers s ++ [timerSeq s]
           /\ fullSyncInProgress s' = false
           /\ array (pendingBlocks s') s' = []
           /\ syncStatus s' = syncStatus s
           /\ currentHeight s' = currentHeight s
       | LivePush block _ _ =>
           effects s' = effects s ++ [Log (FailedToHandleIncomingBlock block e)]
           /\ applier_frame s s'
           /\ currentHeight s' = currentHeight s
       end.

End AggregatorCallers.

(** ** The instance of the module (lines 64 and 347-362) *)

Module Instance.

Inductive InitError :=
  | SynchronizerNotInitialized      (* line 348 *)
  | ClientNotInitialized            (* line 353 *)
  | AlreadyInitialized              (* line 354 *)
  | OfConstructor (e : Error).      (* line 82 *)

Inductive Res (A : Type) :=
  | Returns (a : A)
  | Throws (e : InitError).
Arguments Returns {A} a.
Arguments Throws {A} e.

Section Instance.
Context `{G : Godcoin} {TxRawRow : Type}.

(** The variable [instance] of the module, and whether [getClient()]
    returns a client; a synchronizer is the system of its activations. *)
Record Globals := {
  instance : option (System (TxRawRow := TxRawRow));
  client : bool;
}.

(** Lines 347-350. *)
Definition getSynchronizer (g : Globals) : Res (System (TxRawRow := TxRawRow)) :=
  match instance g with
  | None => Throws SynchronizerNotInitialized
  | Some synchronizer => Returns synchronizer
  end.

(** Lines 352-356, up to the [await] of the stored height. *)
Definition initSynchronizer (g : Globals) : Res unit :=
  if negb (client g) then Throws ClientNotInitialized
  else match instance g with
       | Some _ => Throws AlreadyInitialized
       | None => Returns tt
       end.

(** Lines 356-361, once the store has answered with [stored], a height
    with its flag [unsigned] or nothing; [isOpen] and [now] are read by
    the constructor. *)
Definition initSynchronizer_stored (watchAddrs : list ScriptHash)
    (stored : option (Z * bool)) (isOpen : bool) (now : Z) (g : Globals)
    : Globals * Res unit :=
  let syncHeight := match stored with
                    | Some height => height
                    | None => (0, true)      (* Long.fromNumber(0, true) *)
                    end in
  match new watchAddrs syncHeight.1 syncHeight.2 isOpen now with
  | Throw e => (g, Throws (OfConstructor e))
  | Ok synchronizer =>
      ({| instance := Some synchronizer; client := client g |}, Returns tt)
  end.

End Instance.
End Instance.

(** ** More scenes *)

Module Outage.
Import Example.



Definition caught_up := Eval vm_compute in
  default opened (run catchUp_with_pushes opened).

(** A block with one transfer to a watched address and one between
    strangers. *)
Definition mixed : Block (G := Toy) := block 6 [transfer B A; transfer C C].

End Outage.

(** ** The transport is lost and comes back while a cycle waits *)

Module Reconnect.
Import Example.

(** The first cycle, during which the block 6 is pushed, up to the drain:
    it has asked the store to insert the block's transfer and waits. *)
Definition first_cycle : list (Event (G := Toy) (TxRawRow := nat)) :=
  [Settled 0 (Fulfilled (VRes ResSubscribe));
   Settled 0 (Fulfilled (VRes ResSetBlockFilter));
   SubMsg (ResGetBlock (block 6 [transfer A B]));
   Settled 0 (Fulfilled (VRes (ResGetProperties 5)));
   Settled 0 (Fulfilled (VAll [ResGetAddressInfo (G := Toy) 3;
                               ResGetAddressInfo (G := Toy) 4]));
   Settled 0 (Fulfilled VUnit)].

(** The transport is lost and opens again. *)
Definition reconnect : list (Event (G := Toy) (TxRawRow := nat)) :=
  [ClientClose; ClientOpen].

(** The cycle the new open has started, up to the drain. *)
Definition second_cycle : list (Event (G := Toy) (TxRawRow := nat)) :=
  [Settled 1 (Fulfilled (VRes ResSubscribe));
   Settled 1 (Fulfilled (VRes ResSetBlockFilter));
   Settled 1 (Fulfilled (VRes (ResGetProperties 5)));
   Settled 1 (Fulfilled (VAll [ResGetAddressInfo (G := Toy) 3;
                               ResGetAddressInfo (G := Toy) 4]));
   Settled 1 (Fulfilled VUnit)].

(** The store answers the two inserts. *)
Definition both_inserted : list (Event (G := Toy) (TxRawRow := nat)) :=
  [Settled 0 (Fulfilled (VRow 51%nat)); Settled 1 (Fulfilled (VRow 52%nat))].

(** The store fails the two inserts: the first cycle ends, then the
    second, which is the only activation left. *)
Definition both_rejected : list (Event (G := Toy) (TxRawRow := nat)) :=
  [Settled 0 (Rejected (External "disk full"));
   Settled 0 (Rejected (External "disk full"))].

End Reconnect.

(** ** A push handler that is still running when a cycle drains *)

Module Overtake.
Import Example.

(** After the cycle of [catchUp]: the block 10 is pushed and waits for
    its insert; an open starts a cycle, during which the block 7 is pushed;
    the cycle drains it and waits for its insert; then the store answers
    the push handler, and then the drain. *)
Definition events : list (Event (G := Toy) (TxRawRow := nat)) :=
  catchUp
  ++ [SubMsg (ResGetBlock (block 10 [transfer B A]));
      ClientOpen;
      SubMsg (ResGetBlock (block 7 [transfer A B]));
      Settled 1 (Fulfilled (VRes (ResGetProperties 5)));
      Settled 1 (Fulfilled (VAll [ResGetAddressInfo (G := Toy) 3;
                                  ResGetAddressInfo (G := Toy) 4]));
      Settled 1 (Fulfilled VUnit);
      Settled 0 (Fulfilled (VRow 50%nat));
      Settled 1 (Fulfilled (VRow 51%nat))].

End Overtake.

(** ** The settings store (class [Settings], src/background/ipc.ts,
    lines 98-258) *)

Module Settings.

(** The files by path, as [fs] shows them. *)
Abbreviation Fs := (gmap string Bytes).

Inductive Error :=
  | OfSecretKey (e : Crypto.CryptoError)  (* an assertion or a [DecryptError] *)
  | UnknownCryptoVersion                  (* line 230 *)
  | NoAvailableSettings                   (* lines 252-257 *)
  | RangeError                            (* [readUInt16BE] past the end *)
  | ENOENT (path : string)                (* [fs]: no such file *)
  | Thrown (msg : string).                (* by JSON, Buffer or KeyPair *)

Inductive Res (A : Type) :=
  | Returns (a : A)
  | Throws (e : Error).
Arguments Returns {A} a.
Arguments Throws {A} e.

(** What a library call that parses gives: a value, or what it threw. *)
Inductive Try (A : Type) :=
  | Gives (a : A)
  | Raises (msg : string).
Arguments Gives {A} a.
Arguments Raises {A} msg.

Inductive LogLine :=
  | FailedToReadPrimary (e : Error)       (* line 178 *)
  | RecoveredFromBackup                   (* line 189 *)
  | MovedCorrupt (newLoc : string)        (* line 194 *)
  | FailedToReadBackup (e : Error)        (* line 200 *)
  | NoMoreStores.                         (* line 206 *)

(** The files and the log. *)
Record World := { files : Fs; logged : list LogLine }.

(** What the class uses of Node, Electron and godcoin. *)
Class Env := {
  KeyPair : Type;
  (** [createHash('sha256').update(password).digest()] *)
  sha256 : string -> Bytes;
  (** Lines 151-157: the UTF-8 bytes of the JSON text of an object with
      the key in base64 and the private key in WIF. *)
  encode : Bytes -> KeyPair -> Bytes;
  (** Line 221: [JSON.parse] of the text, then
      [Buffer.from(obj.secretKey, 'base64')]. *)
  decode_secretKey : Bytes -> Try Bytes;
  (** Line 223: [KeyPair.fromWif(obj.privateKey)] of the parsed text. *)
  decode_keyPair : Bytes -> Try KeyPair;
  (** [app.getPath('userData')] and [path.join]. *)
  userData : string;
  path_join : string -> string -> string;
}.

(** *** Computations on the world that may throw *)

Definition M (A : Type) : Type := World -> World * Res A.

Definition ret {A} (a : A) : M A := fun w => (w, Returns a).
Definition throw {A} (e : Error) : M A := fun w => (w, Throws e).
Definition bind {A B} (m : M A) (k : A -> M B) : M B :=
  fun w => match m w with
           | (w', Returns a) => k a w'
           | (w', Throws e) => (w', Throws e)
           end.
(** [try { m } catch (e) { handler }] *)
Definition catch {A} (m : M A) (handler : Error -> M A) : M A :=
  fun w => match m w with
           | (w', Returns a) => (w', Returns a)
           | (w', Throws e) => handler e w'
           end.
Definition of_res {A} (r : Res A) : M A := fun w => (w, r).

Notation "x <- y ;; z" := (bind y (fun x => z))
  (at level 20, y at level 99, z at level 200, only parsing).

Definition log (l : LogLine) : M unit :=
  fun w => ({| files := files w; logged := logged w ++ [l] |}, Returns tt).

(** *** [fs]

    The calls fail for a missing file only: the directory is there and
    the disk takes what is written. *)

Definition existsSync (path : string) : M bool :=
  fun w => (w, Returns (bool_decide (is_Some (files w !! path)))).

Definition unlinkSync (path : string) : M unit :=
  fun w => match files w !! path with
           | Some _ => ({| files := delete path (files w); logged := logged w |},
                        Returns tt)
           | None => (w, Throws (ENOENT path))
           end.

(** [renameSync] replaces the file at [newPath] if there is one. *)
Definition renameSync (oldPath newPath : string) : M unit :=
  fun w => match files w !! oldPath with
           | Some data =>
               ({| files := <[newPath := data]> (delete oldPath (files w));
                   logged := logged w |}, Returns tt)
           | None => (w, Throws (ENOENT oldPath))
           end.

Definition writeFileSync (path : string) (data : Bytes) : M unit :=
  fun w => ({| files := <[path := data]> (files w); logged := logged w |},
            Returns tt).

Definition readFileSync (path : string) : M Bytes :=
  fun w => match files w !! path with
           | Some data => (w, Returns data)
           | None => (w, Throws (ENOENT path))
           end.

(** *** [Buffer] *)

Definition byte_of_Z (z : Z) : byte :=
  default "000"%byte (Byte.of_N (Z.to_N z)).

(** [Buffer.alloc(2)] after [writeUInt16BE(value, 0)], for a value of 16
    bits. *)
Definition writeUInt16BE (value : Z) : Bytes :=
  [byte_of_Z (value / 256); byte_of_Z (value mod 256)].

(** [readUInt16BE(0)] *)
Definition readUInt16BE (data : Bytes) : Res Z :=
  match data with
  | b0 :: b1 :: _ =>
      Returns (256 * Z.of_N (Byte.to_N b0) + Z.of_N (Byte.to_N b1))
  | _ => Throws RangeError
  end.

Section Settings.
Context `{Sod : Crypto.Sodium} `{E : Env}.

Definition of_secretKey {A} (r : Crypto.Res A) : Res A :=
  match r with
  | Crypto.Returns a => Returns a
  | Crypto.Throws e => Throws (OfSecretKey e)
  end.

Definition of_try {A} (t : Try A) : Res A :=
  match t with
  | Gives a => Returns a
  | Raises msg => Throws (Thrown msg)
  end.

(** [SecretKey.fromString], lines 49-54 of the listing of [SecretKey]. *)
Definition fromString (password : string) : Crypto.Res Crypto.SecretKey :=
  let hash := sha256 password in
  Crypto.new hash.

Definition CRYPTO_VERSION : Z := 1.

(** The fields of a [Settings]. *)
Record Settings := { secretKey : Crypto.SecretKey; keyPair : KeyPair }.

Record Locs := { primary : string; backup : string }.

(** Lines 242-249. *)
Definition settingsLoc : Locs :=
  let primary := path_join userData "settings.dat" in
  let backup := (primary ++ ".bak")%string in
  {| primary := primary; backup := backup |}.

(** Lines 147-164; [nonce] is what [randomBytes] returns inside
    [encrypt]. *)
Definition serializeEnc (this : Settings) (password : string) (nonce : Bytes)
    : Res Bytes :=
  let version := writeUInt16BE CRYPTO_VERSION in
  match of_secretKey (Crypto.key_bytes (secretKey this)) with
  | Throws e => Throws e
  | Returns key =>
      let unencryptedData := encode key (keyPair this) in
      match of_secretKey (fromString password) with
      | Throws e => Throws e
      | Returns localKey =>
          match of_secretKey (Crypto.encrypt localKey nonce unencryptedData) with
          | Throws e => Throws e
          | Returns encData =>
              let _ := Crypto.zero localKey in
              Returns (version ++ encData)
          end
      end
  end.

(** The statements of [save] after the first, lines 128-144. *)
Definition remove_backup : M unit :=
  b <- existsSync (backup settingsLoc) ;;
  if b then unlinkSync (backup settingsLoc) else ret tt.

Definition move_to_backup : M unit :=
  b <- existsSync (primary settingsLoc) ;;
  if b then renameSync (primary settingsLoc) (backup settingsLoc) else ret tt.

Definition write_settings (data : Bytes) : M unit :=
  writeFileSync (primary settingsLoc) data.

Definition save_statements (data : Bytes) : list (M unit) :=
  [remove_backup; move_to_backup; write_settings data; remove_backup].

(** Statements one after the other. *)
Fixpoint sequence (ms : list (M unit)) : M unit :=
  match ms with
  | [] => ret tt
  | m :: ms' => _ <- m ;; sequence ms'
  end.

(** Lines 122-145. *)
Definition save (this : Settings) (password : string) (nonce : Bytes) : M unit :=
  data <- of_res (serializeEnc this password nonce) ;;
  sequence (save_statements data).

(** Lines 211-234 on the bytes of the file. *)
Definition deserialize (fileData : Bytes) (password : string) : Res Settings :=
  match readUInt16BE fileData with
  | Throws e => Throws e
  | Returns version =>
      let encData := drop 2 fileData in
      if version =? 1 then
        match of_secretKey (fromString password) with
        | Throws e => Throws e
        | Returns localKey =>
            (* the [finally] zeroes [localKey], which is local *)
            match of_secretKey (Crypto.decrypt localKey encData) with
            | Throws e => Throws e
            | Returns text =>
                match of_try (decode_secretKey text) with
                | Throws e => Throws e
                | Returns key =>
                    match of_secretKey (Crypto.new key) with
                    | Throws e => Throws e
                    | Returns secretKey =>
                        match of_try (decode_keyPair text) with
                        | Throws e => Throws e
                        | Returns keyPair =>
                            Returns {| secretKey := secretKey;
                                       keyPair := keyPair |}
                        end
                    end
                end
            end
        end
      else Throws UnknownCryptoVersion
  end.

(** Lines 209-235. *)
Definition deserializeEnc (loc : string) (password : string) : M Settings :=
  fileData <- readFileSync loc ;;
  of_res (deserialize fileData password).

(** The [try] block of lines 186-197. *)
Definition load_backup (password : string) (now : Z) (primaryExists : bool)
    : M Settings :=
  settings <- deserializeEnc (backup settingsLoc) password ;;
  _ <- log RecoveredFromBackup ;;
  _ <- (if primaryExists then
          let newLoc := (primary settingsLoc ++ "." ++ pretty now)%string in
          _ <- renameSync (primary settingsLoc) newLoc ;;
          log (MovedCorrupt newLoc)
        else ret tt) ;;
  _ <- renameSync (backup settingsLoc) (primary settingsLoc) ;;
  ret settings.

(** Lines 166-207; [now] is [new Date().getTime()]. *)
Definition load (password : string) (now : Z) : M Settings :=
  primaryExists <- existsSync (primary settingsLoc) ;;
  backupExists <- existsSync (backup settingsLoc) ;;
  found <-
    (if primaryExists then
       catch (settings <- deserializeEnc (primary settingsLoc) password ;;
              ret (Some settings))
             (fun e =>
                _ <- log (FailedToReadPrimary e) ;;
                if negb backupExists then throw e else ret None)
     else ret None) ;;
  match found with
  | Some settings => ret settings
  | None =>
      if backupExists then
        catch (load_backup password now primaryExists)
              (fun e => _ <- log (FailedToReadBackup e) ;; throw e)
      else
        _ <- log NoMoreStores ;;
        throw NoAvailableSettings
  end.

(** Lines 237-240. *)
Definition exists_ : M bool :=
  p <- existsSync (primary settingsLoc) ;;
  if p then ret true else existsSync (backup settingsLoc).

End Settings.
End Settings.

(** ** A small environment to run the settings store on *)

(** The digest is the password cut or padded to 32 bytes, the text of a
    key and a key pair is the one after the other, the key pair is its
    private key's bytes. *)
Definition ToyEnv : Settings.Env :=
  {| Settings.KeyPair := Bytes;
     Settings.sha256 := fun password =>
       take 32 (list_byte_of_string password ++ replicate 32 "000"%byte);
     Settings.encode := fun key kp => key ++ kp;
     Settings.decode_secretKey := fun text =>
       if decide (32 <= length text)%nat then Settings.Gives (take 32 text)
       else Settings.Raises "Unexpected end of JSON input";
     Settings.decode_keyPair := fun text => Settings.Gives (drop 32 text);
     Settings.userData := "/home/user/.config/wallet";
     Settings.path_join := fun a b => (a ++ "/" ++ b)%string |}.

Module Stored.
Import Settings.
#[local] Existing Instance ToySodium.
#[local] Existing Instance ToyEnv.

Definition mine : Settings :=
  {| secretKey := {| Crypto.key := Some Example.key32 |};
     keyPair := ["007"%byte; "008"%byte] |}.

Definition other : Settings :=
  {| secretKey := {| Crypto.key := Some (replicate 32 "009"%byte) |};
     keyPair := ["010"%byte] |}.

(** The bytes [save] writes for them under the password [hunter2]. *)
Definition bytes_of (this : Settings) : Bytes :=
  match serializeEnc this "hunter2" Example.nonce24 with
  | Returns data => data
  | Throws _ => []
  end.

Definition nothing : World := {| files := ∅; logged := [] |}.

(** The primary file is missing, the backup holds [mine]. *)
Definition backup_only : World :=
  {| files := {[ backup settingsLoc := bytes_of mine ]}; logged := [] |}.

(** The primary file is cut short and there is no backup. *)
Definition cut_short : World :=
  {| files := {[ primary settingsLoc := ["000"%byte] ]}; logged := [] |}.

(** The primary file holds [mine]. *)
Definition saved : World :=
  {| files := {[ primary settingsLoc := bytes_of mine ]}; logged := [] |}.

End Stored.
(** * Properties *)

(** ** Bytes and watch sets *)

Lemma Buffer_compare_eq (a b : Bytes) : Buffer_compare a b = 0 <-> a = b.
Proof.
  revert b; induction a as [|x a IH]; intros [|y b]; simpl; try (split; congruence).
  destruct (N.compare_spec (Byte.to_N x) (Byte.to_N y)) as [E|L|L].
  - assert (x = y) as ->.
    { apply (f_equal Byte.of_N) in E. rewrite !Byte.of_to_N in E. congruence. }
    rewrite IH. split; congruence.
  - split; [discriminate|]. intros [= -> _]. lia.
  - split; [discriminate|]. intros [= -> _]. lia.
Qed.

Lemma findIndex_from_found {A} (p : A -> bool) (l : list A) (i : Z) :
  0 <= i ->
  (findIndex_from p i l >? -1) = true <-> exists x, x ∈ l /\ p x = true.
Proof.
  revert i; induction l as [|x l IH]; intros i Hi; simpl.
  - split; [discriminate|]. intros (x & Hx & _). inversion Hx.
  - destruct (p x) eqn:Hp.
    + split; [|intros _; apply Z.gtb_lt; lia].
      intros _. exists x. split; [constructor|done].
    + rewrite IH by lia. split; intros (y & Hy & Hpy).
      * exists y. split; [by constructor|done].
      * exists y. split; [|done]. inversion Hy; subst; [congruence|done].
Qed.

Section Matching.
Context `{G : Godcoin}.

Lemma isWatched_elem_of (watch : list ScriptHash) (addr : ScriptHash) :
  isWatched watch addr = true <-> addr ∈ watch.
Proof.
  unfold isWatched, findIndex. rewrite findIndex_from_found by lia. split.
  - intros (x & Hx & Hc). apply Z.eqb_eq, Buffer_compare_eq in Hc.
    destruct addr, x; simpl in *; by subst.
  - intros H. exists addr. split; [done|]. by apply Z.eqb_eq, Buffer_compare_eq.
Qed.

Lemma txHasMatch_recognized (watch : list ScriptHash) (w : TxVariant) :
  recognized (tx w) -> exists b, txHasMatch watch w = Ok b.
Proof. unfold txHasMatch. destruct (tx w); simpl; intros H; by eauto. Qed.

Lemma isMatch_rule (watch : list ScriptHash) (w : TxVariant) :
  isMatch watch w = true <-> matching_rule watch (tx w).
Proof.
  unfold isMatch, txHasMatch. destruct (tx w) as [m sc|to|to|from to|tag]; simpl.
  - destruct (isWatched watch (hash (toScript m))) eqn:E1;
      destruct (isWatched watch (hash sc)) eqn:E2; simpl;
      rewrite <- !isWatched_elem_of, E1, E2; intuition congruence.
  - destruct (isWatched watch to) eqn:E; rewrite <- isWatched_elem_of, E; done.
  - destruct (isWatched watch to) eqn:E; rewrite <- isWatched_elem_of, E; done.
  - destruct (isWatched watch from) eqn:E1; destruct (isWatched watch to) eqn:E2;
      simpl; rewrite <- !isWatched_elem_of, E1, E2; intuition congruence.
  - split; [discriminate|done].
Qed.

Lemma txHasMatch_isMatch (watch : list ScriptHash) (w : TxVariant) :
  recognized (tx w) -> txHasMatch watch w = Ok (isMatch watch w).
Proof.
  intros H. destruct (txHasMatch_recognized watch w H) as [b Hb].
  unfold isMatch. rewrite Hb. by destruct b.
Qed.

End Matching.

(** ** The Block Applier *)

Section Applier.
Context `{G : Godcoin} {TxRawRow : Type}.
Implicit Types (s : State (TxRawRow := TxRawRow)) (k : ApplyCtx (TxRawRow := TxRawRow)).

Lemma inserted_app (es es' : list (Effect (TxRawRow := TxRawRow))) :
  inserted (es ++ es') = inserted es ++ inserted es'.
Proof.
  induction es as [|e es IH]; simpl; [done|].
  destruct e; simpl; by rewrite ?IH.
Qed.

Lemma applier_frame_refl s : applier_frame s s.
Proof. by repeat split. Qed.

Lemma applier_frame_trans s s1 s2 :
  applier_frame s s1 -> applier_frame s1 s2 -> applier_frame s s2.
Proof. unfold applier_frame. intuition congruence. Qed.

Lemma applier_frame_effect e s : applier_frame s (effect e s).
Proof. by repeat split. Qed.

Lemma applyBlock_height_spec h u s :
  exists s1, applyBlock_height h u s = (s1, Return u)
    /\ currentHeight s1 = h /\ applier_frame s s1
    /\ inserted (effects s1) = inserted (effects s).
Proof.
  unfold applyBlock_height.
  destruct (negb _); eexists; (split; [reflexivity|]); simpl;
    rewrite ?inserted_app, ?app_nil_r; by repeat split.
Qed.

(** A segment of the Block Applier: when it returns, the height cursor is
    the block's height; when it throws or suspends, it is as it was. *)
Lemma applyBlock_txs_segment k h ws u s s1 o :
  applyBlock_txs k h ws u s = (s1, o) ->
  applier_frame s s1
  /\ match o with
     | Return _ => currentHeight s1 = h
     | Raise _ => s1 = s
     | Await pc =>
         currentHeight s1 = currentHeight s
         /\ exists rest txs, pc = AwaitInsert k h rest txs
     end.
Proof.
  revert u s; induction ws as [|w ws IH]; intros u s; simpl.
  - destruct (applyBlock_height_spec h u s) as (s' & -> & Hh & Hf & _).
    intros [= <- <-]. done.
  - destruct (txHasMatch (watchAddrs s) w) as [[|]|e].
    + intros [= <- <-]. split; [apply applier_frame_effect|]. split; [done|eauto].
    + apply IH.
    + intros [= <- <-]. split; [apply applier_frame_refl|done].
Qed.

Lemma step_settled_single c pc s :
  step (Settled 0 c) (spawn [] (s, Await pc))
  = r ← resume pc c s; Some (spawn [] r).
Proof.
  simpl. destruct (resume pc c s) as [[s' [[]|e|pc']]|]; reflexivity.
Qed.

(** The Block Applier, left alone with a store that answers every insert
    with a row, asks for one insert per matching transaction, in order,
    and returns the rows to its caller. *)
Lemma applyBlock_txs_quiet k h ws : forall acc s rows es ret,
  Forall (fun w => recognized (tx w)) ws ->
  length rows = length (filter (fun w => isMatch (watchAddrs s) w = true) ws) ->
  (forall u s1, arrays s1 = arrays s -> ret u s1 = applyBlock_return k u s1) ->
  exists s1,
    run ((row_settled 0 <$> rows) ++ es)
        (spawn [] (continue (applyBlock_txs k h ws acc s) ret (applyBlock_throw k)))
    = run es (spawn [] (applyBlock_return k (collected acc rows) s1))
    /\ inserted (effects s1)
       = inserted (effects s)
         ++ filter (fun w => isMatch (watchAddrs s) w = true) ws
    /\ currentHeight s1 = h
    /\ applier_frame s s1.
Proof.
  induction ws as [|w ws IH]; intros acc s rows es ret Hrec Hlen Hret.
  - destruct rows; [|done]. cbn [applyBlock_txs fmap list_fmap app].
    destruct (applyBlock_height_spec h acc s) as (s1 & -> & Hh & Hf & Hi).
    exists s1. cbn [continue collected]. rewrite Hret by apply Hf.
    rewrite Hi, filter_nil, app_nil_r. done.
  - inversion Hrec as [|? ? Hw Hws]; subst.
    rewrite filter_cons in Hlen |- *.
    cbn [applyBlock_txs]. rewrite (txHasMatch_isMatch _ _ Hw).
    destruct (isMatch (watchAddrs s) w) eqn:Hm.
    + rewrite decide_True in Hlen |- * by done.
      destruct rows as [|row rows]; [done|]. simpl in Hlen.
      destruct (IH (Some (default [] acc ++ [row])) (effect (TxsInsert w) s)
                   rows es (applyBlock_return k)) as (s1 & Hrun & Hi & Hh & Hf);
        [done|simpl; lia|done|].
      exists s1.
      cbn [continue fmap list_fmap app run].
      change (row_settled 0 row) with (Settled 0 (Fulfilled (VRow row))).
      rewrite step_settled_single.
      cbn [resume mbind option_bind option_ret mret]. unfold applyBlock_inserted.
      simpl in Hrun, Hi. rewrite Hrun. split; [|split; [|split]].
      * f_equal. f_equal. f_equal. unfold collected. simpl.
        destruct rows; [done|]. by rewrite <- app_assoc.
      * rewrite Hi, inserted_app. simpl. by rewrite <- app_assoc.
      * done.
      * eapply applier_frame_trans; [apply applier_frame_effect|done].
    + rewrite decide_False in Hlen |- * by congruence.
      by apply IH.
Qed.

(** The same run up to a transaction that is an instance of none of the
    four classes: the Block Applier throws there. *)
Lemma applyBlock_txs_abort k h w post tag pre : forall acc s rows ret,
  tx w = OtherTx tag ->
  Forall (fun w => recognized (tx w)) pre ->
  length rows = length (filter (fun w => isMatch (watchAddrs s) w = true) pre) ->
  exists s1,
    run (row_settled 0 <$> rows)
        (spawn [] (continue (applyBlock_txs k h (pre ++ w :: post) acc s) ret
                            (applyBlock_throw k)))
    = Some (spawn [] (applyBlock_throw k (ExhaustiveCheckFailed tag) s1))
    /\ inserted (effects s1)
       = inserted (effects s)
         ++ filter (fun w => isMatch (watchAddrs s) w = true) pre
    /\ currentHeight s1 = currentHeight s
    /\ applier_frame s s1.
Proof.
  induction pre as [|w' pre IH]; intros acc s rows ret Hw Hrec Hlen.
  - destruct rows; [|done]. exists s.
    cbn [app applyBlock_txs fmap list_fmap run]. unfold txHasMatch. rewrite Hw.
    cbn [continue]. rewrite filter_nil, app_nil_r.
    split; [done|]. split; [done|]. split; [done|]. apply applier_frame_refl.
  - inversion Hrec as [|? ? Hw' Hpre]; subst.
    rewrite filter_cons in Hlen |- *.
    rewrite <- app_comm_cons. cbn [applyBlock_txs].
    rewrite (txHasMatch_isMatch _ _ Hw').
    destruct (isMatch (watchAddrs s) w') eqn:Hm.
    + rewrite decide_True in Hlen |- * by done.
      destruct rows as [|row rows]; [done|]. simpl in Hlen.
      destruct (IH (Some (default [] acc ++ [row])) (effect (TxsInsert w') s)
                   rows (applyBlock_return k)) as (s1 & Hrun & Hi & Hh & Hf);
        [done|done|simpl; lia|].
      exists s1.
      cbn [continue fmap list_fmap app run].
      change (row_settled 0 row) with (Settled 0 (Fulfilled (VRow row))).
      rewrite step_settled_single.
      cbn [resume mbind option_bind option_ret mret]. unfold applyBlock_inserted.
      simpl in Hrun, Hi. rewrite Hrun. split; [done|]. split; [|split].
      * rewrite Hi, inserted_app. simpl. by rewrite <- app_assoc.
      * done.
      * eapply applier_frame_trans; [apply applier_frame_effect|done].
    + rewrite decide_False in Hlen |- * by congruence.
      by apply IH.
Qed.

(** C2: a transaction matches exactly when its variant satisfies the rule
    of the table, and the Block Applier, given a full block, asks the
    store for one insert per matching transaction and hands exactly the
    rows of those inserts to its caller; a block that holds one transfer
    between two watched addresses gives one row. *)
Theorem applyBlock_one_row_per_match k (block : Block) s (rows : list TxRawRow) :
  Forall (fun w => recognized (tx w)) (transactions block) ->
  length rows = length (matched (watchAddrs s) block) ->
  (forall w, w ∈ transactions block ->
     txHasMatch (watchAddrs s) w = Ok true <-> matching_rule (watchAddrs s) (tx w))
  /\ (exists s1,
        run (row_settled 0 <$> rows)
            (spawn [] (continue (applyBlock k (FullBlock block) s)
                                (applyBlock_return k) (applyBlock_throw k)))
        = Some (spawn [] (applyBlock_return k (collected None rows) s1))
        /\ inserted (effects s1)
           = inserted (effects s) ++ matched (watchAddrs s) block
        /\ currentHeight s1 = height block
        /\ applier_frame s s1)
  /\ (forall from to,
        transactions block = [{| tx := TransferTxV0 from to |}] ->
        from ∈ watchAddrs s -> to ∈ watchAddrs s ->
        exists row, rows = [row]).
Proof.
  intros Hrec Hlen. split; [|split].
  - intros w Hw. rewrite <- isMatch_rule. unfold isMatch.
    destruct (txHasMatch (watchAddrs s) w) as [[]|]; split; congruence.
  - destruct (applyBlock_txs_quiet k (height block) (transactions block) None s
                rows [] (applyBlock_return k) Hrec Hlen) as (s1 & Hrun & H);
      [done|].
    exists s1. rewrite app_nil_r in Hrun. by split.
  - intros from to Htx Hfrom Hto. unfold matched in Hlen. rewrite Htx in Hlen.
    rewrite filter_cons, decide_True in Hlen.
    + destruct rows as [|row [|]]; try done. by exists row.
    + apply isMatch_rule. simpl. by left.
Qed.

(** C8: a transaction that is none of the four variants makes the
    matching step throw, and the Block Applier throws with it to its
    caller: the transactions after it are not looked at and the block's
    height is not taken. *)
Theorem unrecognized_variant_aborts k (block : Block) s pre w post tag
    (rows : list TxRawRow) :
  transactions block = pre ++ w :: post ->
  tx w = OtherTx tag ->
  Forall (fun w => recognized (tx w)) pre ->
  length rows = length (filter (fun w => isMatch (watchAddrs s) w = true) pre) ->
  txHasMatch (watchAddrs s) w = Throw (ExhaustiveCheckFailed tag)
  /\ exists s1,
       run (row_settled 0 <$> rows)
           (spawn [] (continue (applyBlock k (FullBlock block) s)
                               (applyBlock_return k) (applyBlock_throw k)))
       = Some (spawn [] (applyBlock_throw k (ExhaustiveCheckFailed tag) s1))
       /\ inserted (effects s1)
          = inserted (effects s)
            ++ filter (fun w => isMatch (watchAddrs s) w = true) pre
       /\ currentHeight s1 = currentHeight s
       /\ applier_frame s s1.
Proof.
  intros Htx Hw Hrec Hlen. split.
  - unfold txHasMatch. by rewrite Hw.
  - cbn [applyBlock]. rewrite Htx. by apply applyBlock_txs_abort.
Qed.

End Applier.

(** ** The drain of the pending queue *)

Section Drain.
Context `{G : Godcoin} {TxRawRow : Type}.
Implicit Types (s : State (TxRawRow := TxRawRow)).

Lemma push_updated_collected (txs rows : list TxRawRow) :
  push_updated txs (collected None rows) = txs ++ rows.
Proof. destruct rows; simpl; by rewrite ?app_nil_r. Qed.

Lemma drop_cons_inv {A} (l : list A) i x t :
  drop i l = x :: t -> drop (S i) l = t.
Proof.
  intros H. replace (S i) with (i + 1)%nat by lia.
  by rewrite <- drop_drop, H.
Qed.

Lemma array_frame arr s s1 : applier_frame s s1 -> array arr s1 = array arr s.
Proof. intros H. unfold array. by rewrite (proj1 (proj2 (proj2 (proj2 (proj2 (proj2 H)))))). Qed.


(** A drain left alone with a store that answers every insert with a
    row: it ends at line 248 with the rows appended in arrival order. *)
Lemma drain_quiet arr tb blocks : forall i txs s rows es,
  drop i (array arr s) = blocks ->
  Forall (fun b => Forall (fun w => recognized (tx w)) (transactions b)) blocks ->
  length rows
  = length (concat (matched (watchAddrs s) <$> drained (currentHeight s) blocks)) ->
  exists s',
    run ((row_settled 0 <$> rows) ++ es) (spawn [] (drain arr i blocks txs tb s))
    = run es (spawn [] (s', Await (AwaitSetSyncHeight (Final (txs ++ rows) tb))))
    /\ inserted (effects s')
       = inserted (effects s)
         ++ concat (matched (watchAddrs s) <$> drained (currentHeight s) blocks)
    /\ currentHeight s'
       = default (currentHeight s) (last (height <$> drained (currentHeight s) blocks))
    /\ applier_frame s s'.
Proof.
  induction blocks as [|block blocks IH]; intros i txs s rows es Hdrop Hrec Hlen.
  - destruct rows; [|done]. exists (updateSyncHeight s). simpl.
    rewrite !app_nil_r, inserted_app, app_nil_r.
    split; [done|]. split; [done|]. split; [done|]. apply applier_frame_effect.
  - inversion Hrec as [|? ? Hb Hbs]; subst. cbn [drain drained] in *.
    unfold Long.lte.
    destruct (Z.leb_spec (height block) (currentHeight s)) as [Hle|Hgt].
    + destruct (IH (S i) txs (log (SkippingApplied (height block)) s) rows es)
        as (s' & Hrun & Hi & Hh & Hf);
        [by apply drop_cons_inv in Hdrop|done|done|].
      exists s'. rewrite Hrun. simpl in Hi, Hh.
      rewrite inserted_app, app_nil_r in Hi.
      split; [done|]. split; [done|]. split; [done|].
      eapply applier_frame_trans; [apply applier_frame_effect|done].
    + cbn [fmap list_fmap concat] in Hlen |- *.
      set (n := length (matched (watchAddrs s) block)) in *.
      rewrite length_app in Hlen.
      rewrite <- (take_drop n rows), fmap_app, <- app_assoc.
      set (s0 := log (ApplyingPending (height block)) s).
      destruct (applyBlock_txs_quiet (InDrain arr i txs tb) (height block)
                  (transactions block) None s0 (take n rows)
                  ((row_settled 0 <$> drop n rows) ++ es)
                  (fun u => drain arr (S i) blocks (push_updated txs u) tb))
        as (s1 & Hrun & Hi & Hh & Hf).
      * done.
      * rewrite length_take. change (watchAddrs s0) with (watchAddrs s).
        fold (matched (watchAddrs s) block). unfold n. lia.
      * intros u s1 Harr. cbn [applyBlock_return]. f_equal.
        unfold array. rewrite Harr. symmetry. by apply drop_cons_inv in Hdrop.
      * cbn [applyBlock_return] in Hrun.
        rewrite push_updated_collected in Hrun.
        assert (Hf0 : applier_frame s s1).
        { eapply applier_frame_trans; [apply applier_frame_effect|exact Hf]. }
        assert (Hw : watchAddrs s1 = watchAddrs s) by apply Hf0.
        assert (Hd : drop (S i) (array arr s1) = blocks).
        { rewrite (array_frame _ _ _ Hf0). by apply drop_cons_inv in Hdrop. }
        rewrite Hd in Hrun.
        destruct (IH (S i) (txs ++ take n rows) s1 (drop n rows) es)
          as (s' & Hrun' & Hi' & Hh' & Hf').
        { done. }
        { done. }
        { rewrite Hw, Hh, length_drop. unfold n. lia. }
        exists s'. cbn [applyBlock].
        change performFullSync_throw
          with (applyBlock_throw (InDrain arr i txs tb)).
        fold s0. rewrite Hrun, Hrun', <- app_assoc.
        split; [done|]. split; [|split].
        -- rewrite Hi', Hi, Hw, Hh. simpl.
           rewrite inserted_app, app_nil_r, <- app_assoc. done.
        -- rewrite Hh', Hh, last_cons.
           destruct (last (height <$> drained (height block) blocks));
             reflexivity.
        -- by eapply applier_frame_trans.
Qed.

(** C1: in the drain a buffered block at or below the local height is
    skipped, with no insert and no change of the height cursor, and the
    blocks above it are applied by the Block Applier in arrival order, the
    rows of their matching transactions appended to the cycle's result. *)
Theorem drain_skips_stale_applies_rest arr tb txs s (rows : list TxRawRow) :
  Forall (fun b => Forall (fun w => recognized (tx w)) (transactions b))
         (array arr s) ->
  length rows
  = length (concat (matched (watchAddrs s)
                      <$> drained (currentHeight s) (array arr s))) ->
  (forall i block blocks txs' s0,
     height block <= currentHeight s0 ->
     drain arr i (block :: blocks) txs' tb s0
     = drain arr (S i) blocks txs' tb (log (SkippingApplied (height block)) s0))
  /\ (forall i block blocks txs' s0,
       currentHeight s0 < height block ->
       drain arr i (block :: blocks) txs' tb s0
       = continue (applyBlock (InDrain arr i txs' tb) (FullBlock block)
                              (log (ApplyingPending (height block)) s0))
                  (fun u => drain arr (S i) blocks (push_updated txs' u) tb)
                  performFullSync_throw)
  /\ exists s',
       run (row_settled 0 <$> rows) (spawn [] (drain arr 0 (array arr s) txs tb s))
       = Some (spawn [] (s', Await (AwaitSetSyncHeight (Final (txs ++ rows) tb))))
       /\ inserted (effects s')
          = inserted (effects s)
            ++ concat (matched (watchAddrs s)
                         <$> drained (currentHeight s) (array arr s))
       /\ currentHeight s'
          = default (currentHeight s)
                    (last (height <$> drained (currentHeight s) (array arr s)))
       /\ applier_frame s s'.
Proof.
  intros Hrec Hlen. split; [|split].
  - intros i block blocks txs' s0 Hle. cbn [drain]. unfold Long.lte.
    by rewrite (proj2 (Z.leb_le _ _) Hle).
  - intros i block blocks txs' s0 Hgt. cbn [drain]. unfold Long.lte.
    by rewrite (proj2 (Z.leb_gt _ _) Hgt).
  - destruct (drain_quiet arr tb (array arr s) 0 txs s rows [])
      as (s' & Hrun & H); [done|done|done|].
    exists s'. rewrite app_nil_r in Hrun. by split.
Qed.

End Drain.

(** ** Segments of a catch-up cycle and of the push handler *)

Section Segments.
Context `{G : Godcoin} {TxRawRow : Type}.
Implicit Types (s : State (TxRawRow := TxRawRow)).

Lemma pendingBlocks_reset_empty s :
  array (pendingBlocks (pendingBlocks_reset s)) (pendingBlocks_reset s) = [].
Proof.
  unfold array, pendingBlocks_reset. simpl.
  by rewrite lookup_app_r, Nat.sub_diag.
Qed.

Lemma catchUp_segment_frame b s s1 r :
  applier_frame s s1 -> catchUp_segment b s1 r -> catchUp_segment b s r.
Proof.
  unfold applier_frame, catchUp_segment.
  destruct b, r as [s' [[]|e|pc]]; simpl; intuition congruence.
Qed.

Lemma push_segment_frame s s1 r :
  applier_frame s s1 -> push_segment s1 r -> push_segment s r.
Proof.
  unfold applier_frame, push_segment.
  destruct r as [s' [[]|e|pc]]; simpl; intuition congruence.
Qed.

Lemma performFullSync_throw_segment e s :
  catchUp_segment false s (performFullSync_throw e s).
Proof.
  unfold catchUp_segment, performFullSync_throw. simpl.
  split; [done|]. split; [done|]. split; [|done].
  apply (pendingBlocks_reset_empty s).
Qed.

Lemma performFullSync_complete_segment txs tb s :
  catchUp_segment true s (performFullSync_complete txs tb s).
Proof.
  unfold catchUp_segment, performFullSync_complete. simpl.
  split; [done|]. split; [done|]. split; [|done].
  apply (pendingBlocks_reset_empty s).
Qed.

Lemma continue_catchUp {A} b s (r : State * Outcome A) ret catch :
  applier_frame s r.1 ->
  (forall a s1, applier_frame s s1 -> catchUp_segment b s1 (ret a s1)) ->
  (forall e s1, applier_frame s s1 -> catchUp_segment b s1 (catch e s1)) ->
  (forall pc, r.2 = Await pc -> inCatchUp pc = true) ->
  catchUp_segment b s (continue r ret catch).
Proof.
  destruct r as [s1 [a|e|pc]]; simpl; intros Hf Hret Hcatch Hpc.
  - eapply catchUp_segment_frame; eauto.
  - eapply catchUp_segment_frame; eauto.
  - unfold catchUp_segment, applier_frame in *. simpl. intuition.
Qed.

Lemma continue_push {A} s (r : State * Outcome A) ret catch :
  applier_frame s r.1 ->
  (forall a s1, applier_frame s s1 -> push_segment s1 (ret a s1)) ->
  (forall e s1, applier_frame s s1 -> push_segment s1 (catch e s1)) ->
  (forall pc, r.2 = Await pc -> inCatchUp pc = false) ->
  push_segment s (continue r ret catch).
Proof.
  destruct r as [s1 [a|e|pc]]; simpl; intros Hf Hret Hcatch Hpc.
  - eapply push_segment_frame; eauto.
  - eapply push_segment_frame; eauto.
  - unfold push_segment, applier_frame in *. simpl. intuition.
Qed.

Lemma applyBlock_txs_frame k h ws u s :
  applier_frame s (applyBlock_txs k h ws u s).1
  /\ forall pc, (applyBlock_txs k h ws u s).2 = Await pc ->
       exists rest txs, pc = AwaitInsert k h rest txs.
Proof.
  destruct (applyBlock_txs k h ws u s) as [s1 o] eqn:E.
  apply applyBlock_txs_segment in E as [Hf Ho]. split; [done|].
  simpl. intros pc ->. apply Ho.
Qed.

Lemma applyBlock_frame k block s :
  applier_frame s (applyBlock k block s).1
  /\ forall pc, (applyBlock k block s).2 = Await pc ->
       exists rest txs, pc = AwaitInsert k (blockHeight block) rest txs.
Proof.
  destruct block as [block|h]; cbn [applyBlock blockHeight].
  - apply applyBlock_txs_frame.
  - destruct (applyBlock_height_spec h None s) as (s1 & -> & _ & Hf & _).
    split; [done|]. simpl. discriminate.
Qed.

Lemma drain_segment arr tb blocks : forall i txs s,
  catchUp_segment false s (drain arr i blocks txs tb s).
Proof.
  induction blocks as [|block blocks IH]; intros i txs s; cbn [drain].
  - unfold catchUp_segment. simpl. by repeat split.
  - destruct (Long.lte (height block) (currentHeight s)).
    + eapply catchUp_segment_frame; [apply applier_frame_effect|apply IH].
    + destruct (applyBlock_frame (InDrain arr i txs tb) (FullBlock block)
                  (log (ApplyingPending (height block)) s)) as [Hf Hpc].
      eapply catchUp_segment_frame; [apply applier_frame_effect|].
      apply continue_catchUp.
      * done.
      * intros. apply IH.
      * intros. apply performFullSync_throw_segment.
      * intros pc Hp. destruct (Hpc pc Hp) as (rest & txs' & ->). done.
Qed.

Lemma foldl_effect_frame (f : ScriptHash -> Effect) addrs s :
  applier_frame s (foldl (fun s addr => effect (f addr) s) s addrs)
  /\ currentHeight (foldl (fun s addr => effect (f addr) s) s addrs)
     = currentHeight s
  /\ effects (foldl (fun s addr => effect (f addr) s) s addrs)
     = effects s ++ (f <$> addrs).
Proof.
  revert s; induction addrs as [|a addrs IH]; intros s; simpl.
  - rewrite app_nil_r. split; [apply applier_frame_refl|done].
  - destruct (IH (effect (f a) s)) as (Hf & Hh & He).
    split; [|split].
    + eapply applier_frame_trans; [apply applier_frame_effect|done].
    + by rewrite Hh.
    + rewrite He. simpl. by rewrite <- app_assoc.
Qed.

Lemma updateTotalBalance_catchUp txs s :
  catchUp_segment false s (updateTotalBalance (FullSync txs) s).
Proof.
  unfold updateTotalBalance, catchUp_segment. cbn [fst snd].
  destruct (foldl_effect_frame (fun addr => SendReq (ReqGetAddressInfo addr))
              (watchAddrs s) s) as (Hf & _).
  unfold applier_frame in Hf. simpl. intuition.
Qed.

Lemma updateTotalBalance_push block st txs s :
  push_segment s (updateTotalBalance (LivePush block st txs) s).
Proof.
  unfold updateTotalBalance, push_segment. cbn [fst snd].
  destruct (foldl_effect_frame (fun addr => SendReq (ReqGetAddressInfo addr))
              (watchAddrs s) s) as (Hf & _).
  unfold applier_frame in Hf. simpl. intuition.
Qed.

Lemma callback_timing_segment txs time s :
  catchUp_segment false s (callback_timing txs time s).
Proof.
  unfold callback_timing, catchUp_segment.
  destruct (_ >? _); simpl; by repeat split.
Qed.

Lemma callback_applied_segment txs time u s :
  catchUp_segment false s (callback_applied txs time u s).
Proof.
  unfold callback_applied. destruct u as [[|row rows]|];
    try apply callback_timing_segment.
  unfold catchUp_segment. simpl. by repeat split.
Qed.

Lemma callback_throw_segment txs time e s :
  catchUp_segment false s (callback_throw txs time e s).
Proof. unfold callback_throw, catchUp_segment. simpl. by repeat split. Qed.

Lemma subMsg_catch_segment block e s : push_segment s (subMsg_catch block e s).
Proof. unfold subMsg_catch, push_segment. simpl. by repeat split. Qed.

Lemma subMsg_emit_segment block u s : push_segment s (subMsg_emit block u s).
Proof. unfold subMsg_emit, push_segment. simpl. by repeat split. Qed.

Lemma subMsg_applied_segment block u s :
  push_segment s (subMsg_applied block u s).
Proof.
  unfold subMsg_applied. destruct u as [[|row rows]|];
    try apply subMsg_emit_segment.
  apply updateTotalBalance_push.
Qed.

Lemma performFullSync_segment s :
  catchUp_segment false s (performFullSync s).
Proof. unfold performFullSync, catchUp_segment. simpl. by repeat split. Qed.

(** The range callback belongs to the cycle that asked for the range. *)
Lemma callback_segment txs time err fb s :
  catchUp_segment false s (callback txs time err fb s).
Proof.
  unfold callback. destruct err as [e|].
  - apply performFullSync_throw_segment.
  - destruct fb as [block|]; [|apply updateTotalBalance_catchUp].
    destruct (applyBlock_frame (InRange txs time) block s) as [Hf Hpc].
    apply continue_catchUp; [done| | |].
    + intros. apply callback_applied_segment.
    + intros. apply callback_throw_segment.
    + intros pc Hp. destruct (Hpc pc Hp) as (rest & txs' & ->). done.
Qed.

(** Every resumption of a catch-up activation is a catch-up segment. *)
Lemma resume_catchUp pc c s r :
  inCatchUp pc = true -> resume pc c s = Some r ->
  catchUp_segment (completes pc c) s r.
Proof.
  intros Hpc Hr.
  destruct pc as [| | |txs time|k h rest txs|k|k|k tb];
    destruct c as [[|res|rs|row]|e]; simpl in Hr; try discriminate;
    try (injection Hr as <-); cbn [completes].
  - unfold startSync_subscribed, catchUp_segment. simpl. by repeat split.
  - unfold startSync_catch. eapply catchUp_segment_frame;
      [apply applier_frame_effect|apply performFullSync_segment].
  - apply performFullSync_segment.
  - unfold startSync_catch. eapply catchUp_segment_frame;
      [apply applier_frame_effect|apply performFullSync_segment].
  - unfold performFullSync_properties.
    destruct res; try apply performFullSync_throw_segment.
    destruct (Long.lt _ _); [|apply updateTotalBalance_catchUp].
    unfold catchUp_segment. simpl. by repeat split.
  - apply performFullSync_throw_segment.
  - destruct (applyBlock_txs_frame k h rest (Some (txs ++ [row])) s) as [Hf Hp].
    destruct k as [txs0 time|arr i txs0 tb|block]; [| |done].
    + apply continue_catchUp; [done| | |].
      * intros. apply callback_applied_segment.
      * intros. apply callback_throw_segment.
      * intros pc Hq. destruct (Hp pc Hq) as (? & ? & ->). done.
    + apply continue_catchUp; [done| | |].
      * intros. apply drain_segment.
      * intros. apply performFullSync_throw_segment.
      * intros pc Hq. destruct (Hp pc Hq) as (? & ? & ->). done.
  - destruct k as [txs0 time|arr i txs0 tb|block]; [| |done]; simpl.
    + apply callback_throw_segment.
    + apply performFullSync_throw_segment.
  - destruct k as [txs0 time|txs0 time cur|txs0 tb|block]; [| | |done]; simpl.
    + apply callback_timing_segment.
    + unfold catchUp_segment. simpl. by repeat split.
    + apply performFullSync_complete_segment.
  - destruct k as [txs0 time|txs0 time cur|txs0 tb|block]; [| | |done]; simpl.
    + apply callback_throw_segment.
    + apply callback_throw_segment.
    + apply performFullSync_throw_segment.
  - destruct (decide _); [|done]. injection Hr as <-.
    destruct k as [txs0|block st txs0]; [|done].
    unfold updateTotalBalance_all. destruct (sumBalances _ _); simpl.
    + unfold catchUp_segment. simpl. by repeat split.
    + apply performFullSync_throw_segment.
  - destruct k as [txs0|block st txs0]; [|done]. apply performFullSync_throw_segment.
  - destruct k as [txs0|block st txs0]; [|done]. simpl. apply drain_segment.
  - destruct k as [txs0|block st txs0]; [|done]. apply performFullSync_throw_segment.
Qed.

(** Every resumption of a push-handler activation is a push segment. *)
Lemma resume_push pc c s r :
  inCatchUp pc = false -> resume pc c s = Some r -> push_segment s r.
Proof.
  intros Hpc Hr.
  destruct pc as [| | |txs time|k h rest txs|k|k|k tb]; try discriminate;
    destruct c as [[|res|rs|row]|e]; simpl in Hr; try discriminate;
    try (injection Hr as <-).
  - destruct (applyBlock_txs_frame k h rest (Some (txs ++ [row])) s) as [Hf Hp].
    destruct k as [txs0 time|arr i txs0 tb|block]; [done|done|].
    apply continue_push; [done| | |].
    + intros. apply subMsg_applied_segment.
    + intros. apply subMsg_catch_segment.
    + intros pc Hq. destruct (Hp pc Hq) as (? & ? & ->). done.
  - destruct k as [txs0 time|arr i txs0 tb|block]; [done|done|].
    apply subMsg_catch_segment.
  - destruct k as [txs0 time|txs0 time cur|txs0 tb|block]; [done|done|done|].
    unfold push_segment. simpl. by repeat split.
  - destruct k as [txs0 time|txs0 time cur|txs0 tb|block]; [done|done|done|].
    apply subMsg_catch_segment.
  - destruct (decide _); [|done]. injection Hr as <-.
    destruct k as [txs0|block st txs0]; [done|].
    unfold updateTotalBalance_all. destruct (sumBalances _ _); simpl.
    + unfold push_segment. simpl. by repeat split.
    + apply subMsg_catch_segment.
  - destruct k as [txs0|block st txs0]; [done|]. apply subMsg_catch_segment.
  - destruct k as [txs0|block st txs0]; [done|]. apply subMsg_emit_segment.
  - destruct k as [txs0|block st txs0]; [done|]. apply subMsg_catch_segment.
Qed.

End Segments.

(** ** The event loop *)

Section EventLoop.
Context `{G : Godcoin} {TxRawRow : Type}.
Implicit Types (s : State (TxRawRow := TxRawRow))
               (sys : System (TxRawRow := TxRawRow)).

Lemma startSync_busy s :
  fullSyncInProgress s = true -> startSync s = (s, Return tt).
Proof. unfold startSync. by intros ->. Qed.

(** [startSync] on an idle synchronizer starts a cycle. *)
Lemma startSync_idle s :
  fullSyncInProgress s = false ->
  exists s' pc,
    startSync s = (s', Await pc) /\ inCatchUp pc = true
    /\ fullSyncInProgress s' = true /\ syncStatus s' = InProgress
    /\ watchAddrs s' = watchAddrs s /\ currentHeight s' = currentHeight s
    /\ pendingBlocks s' = pendingBlocks s /\ arrays s' = arrays s.
Proof.
  unfold startSync. intros ->. simpl.
  destruct (fullSyncRetryTimer s); simpl; destruct (syncStatus s); simpl;
    eexists _, _; (split; [reflexivity|]); by repeat split.
Qed.

(** The push handler leaves the in-progress flag and the status alone. *)
Lemma subMsg_control res s :
  fullSyncInProgress (subMsg res s).1 = fullSyncInProgress s
  /\ syncStatus (subMsg res s).1 = syncStatus s
  /\ watchAddrs (subMsg res s).1 = watchAddrs s
  /\ match (subMsg res s).2 with
     | Await pc => inCatchUp pc = false
     | Return _ => True
     | Raise _ => False
     end.
Proof.
  unfold subMsg. destruct res; try by repeat split.
  destruct (syncStatus s) eqn:Hst; try by repeat split.
  set (s0 := log _ s).
  assert (Hp : push_segment s0 (continue (applyBlock (InPush block) (FullBlock block) s0)
                                 (subMsg_applied block) (subMsg_catch block))).
  { destruct (applyBlock_frame (InPush block) (FullBlock block) s0) as [Hf Hpc].
    apply continue_push; [done| | |].
    - intros. apply subMsg_applied_segment.
    - intros. apply subMsg_catch_segment.
    - intros pc Hq. destruct (Hpc pc Hq) as (? & ? & ->). done. }
  destruct Hp as (Hw & Hfl & Hs & _ & _ & Ho).
  rewrite Hfl, Hs, Hw. by repeat split.
Qed.










End EventLoop.

(** ** Exit paths, status, height and balance *)

Section Claims.
Context `{G : Godcoin} {TxRawRow : Type}.
Implicit Types (s : State (TxRawRow := TxRawRow))
               (sys : System (TxRawRow := TxRawRow)).

(** X5: whatever resumes a catch-up activation, the range callback
    included, the activation either sits at an [await] of the procedure
    again, the queue untouched, or the procedure has been left, by success
    or by a throw, and then [this.pendingBlocks] is a new, empty array:
    the blocks buffered during the cycle are out of the queue. *)
Theorem pending_queue_emptied_on_exit pc s r :
  inCatchUp pc = true ->
  ((exists c, resume pc c s = Some r)
   \/ (exists txs time err fb,
        pc = AwaitBlockRange txs time /\ r = callback txs time err fb s)) ->
  match r.2 with
  | Await pc' =>
      inCatchUp pc' = true
      /\ pendingBlocks r.1 = pendingBlocks s /\ arrays r.1 = arrays s
  | Return _ =>
      array (pendingBlocks r.1) r.1 = []
      /\ pendingBlocks r.1 = length (arrays s)
      /\ arrays r.1 = arrays s ++ [[]]
      /\ fullSyncInProgress r.1 = false
  | Raise _ => False
  end.
Proof.
  intros Hpc [[c Hr]|(txs & time & err & fb & -> & ->)].
  - apply resume_catchUp in Hr as [_ Hseg]; [|done].
    destruct (r.2); intuition.
  - destruct (callback_segment txs time err fb s) as [_ Hseg].
    destruct (_.2); intuition.
Qed.

(** C6: the status is one of the three values, and a turn of the event
    loop changes it only in [startSync] (to [InProgress], on an open or a
    retry), in the close handler (to [Connecting]) and at the end of
    [performFullSync] (to [Complete]). *)
Theorem status_driven_by_synchronizer e sys sys' :
  step e sys = Some sys' ->
  (syncStatus (state sys') = Connecting \/ syncStatus (state sys') = InProgress
   \/ syncStatus (state sys') = Complete)
  /\ (syncStatus (state sys') = syncStatus (state sys)
      \/ (syncStatus (state sys') = InProgress
          /\ fullSyncInProgress (state sys) = false
          /\ (e = ClientOpen \/ exists t, e = Timeout t))
      \/ (syncStatus (state sys') = Connecting /\ e = ClientClose)
      \/ (syncStatus (state sys') = Complete
          /\ exists i txs tb,
               e = Settled i (Fulfilled VUnit)
               /\ activations sys !! i = Some (AwaitSetSyncHeight (Final txs tb)))).
Proof.
  intros Hstep. split; [destruct (syncStatus _); auto|].
  assert (Hstart : forall s,
    syncStatus s = syncStatus (state sys) ->
    fullSyncInProgress s = fullSyncInProgress (state sys) ->
    syncStatus (state (spawn (activations sys) (startSync s))) = syncStatus (state sys)
    \/ (syncStatus (state (spawn (activations sys) (startSync s))) = InProgress
        /\ fullSyncInProgress (state sys) = false)).
  { intros s Hst Hfl. destruct (fullSyncInProgress s) eqn:Hs.
    - rewrite (startSync_busy s Hs). by left.
    - destruct (startSync_idle s Hs) as (s' & pc & -> & _ & _ & Hst' & _).
      right. by rewrite <- Hfl. }
  destruct e as [| |res|t|i c|i err fb|dt]; simpl in Hstep.
  - injection Hstep as <-. destruct (Hstart (state sys)) as [H|[H1 H2]]; auto 6.
  - injection Hstep as <-. right. right. left. done.
  - injection Hstep as <-.
    destruct (subMsg_control res (state sys)) as (_ & Hst & _ & Ho). left.
    destruct (subMsg res (state sys)) as [s' [[]|e|pc']]; simpl in *; done.
  - destruct (decide _); [|done]. injection Hstep as <-.
    destruct (Hstart (set_timers (filter (fun t' => t' ≠ t) (timers (state sys)))
                                 (state sys))) as [H|[H1 H2]]; eauto 7.
  - destruct (activations sys !! i) as [pc|] eqn:Hi; [|done]. simpl in Hstep.
    destruct (resume pc c (state sys)) as [r|] eqn:Hr; [|done].
    injection Hstep as <-.
    destruct (inCatchUp pc) eqn:Hpc.
    + apply resume_catchUp in Hr as [_ Hseg]; [|done].
      destruct r as [s' [[]|e|pc']]; simpl in *; [|done|left; apply Hseg].
      destruct Hseg as (_ & _ & Hst & _).
      destruct (completes pc c) eqn:Hc; [|by left].
      right. right. right. split; [done|].
      destruct pc as [| | | | |[| |txs tb|]| |], c as [[| | |]|]; try done.
      by exists i, txs, tb.
    + apply resume_push in Hr as (_ & _ & Hst & _ & _ & Ho); [|done]. left.
      destruct r as [s' [[]|e|pc']]; simpl in *; done.
  - destruct (activations sys !! i) as [[| | |txs time| | | |]|] eqn:Hi; try done.
    injection Hstep as <-. left.
    destruct (callback_segment txs time err fb (state sys)) as [_ Hseg].
    destruct (callback _ _ _ _ _) as [s' [[]|e|pc']]; simpl in *;
      [apply Hseg|done|apply Hseg].
  - destruct (decide _); [|done]. injection Hstep as <-. by left.
Qed.




Lemma sumBalances_all_fulfilled (balances : list Asset) :
  sumBalances Asset_zero (ResGetAddressInfo <$> balances)
  = Ok (foldl Asset_add Asset_zero balances).
Proof.
  generalize Asset_zero.
  induction balances as [|b bs IH]; intros a; simpl; [done|apply IH].
Qed.

Lemma persisted_app (es es' : list (Effect (TxRawRow := TxRawRow))) :
  persisted (es ++ es') = persisted es ++ persisted es'.
Proof.
  induction es as [|e es IH]; simpl; [done|].
  destruct e; simpl; by rewrite ?IH.
Qed.

(** The loop of lines 336-339 throws at the first answer of another
    type. *)
Lemma sumBalances_foreign (totalBal : Asset) (responses : list RpcRes) :
  (exists res, res ∈ responses /\ res_type res <> GetAddressInfo) ->
  exists res,
    res ∈ responses /\ res_type res <> GetAddressInfo
    /\ sumBalances totalBal responses = Throw (UnexpectedRpcResponse (res_type res)).
Proof.
  revert totalBal. induction responses as [|r rs IH]; intros totalBal.
  - intros (res & Hin & _). by apply elem_of_nil in Hin.
  - intros (res & Hin & Hty).
    destruct r as [| | | |bal|n];
      try (eexists; split; [by left|]; split; [done|reflexivity]).
    apply elem_of_cons in Hin as [->|Hin]; [done|].
    destruct (IH (Asset_add totalBal bal)) as (res' & Hin' & Hty' & Hsum);
      [by eauto|].
    exists res'. split; [by right|]. by split.
Qed.

Lemma updateTotalBalance_throw_caught k e s :
  caught_by_caller k e s (Some (updateTotalBalance_throw k e s)).
Proof.
  destruct k as [txs|block st rows]; cbn [updateTotalBalance_throw].
  - unfold performFullSync_throw, setTimeout. eexists. split; [reflexivity|].
    simpl. rewrite <- app_assoc, persisted_app. simpl. rewrite app_nil_r.
    repeat split. unfold array. simpl.
    by rewrite lookup_app_r, Nat.sub_diag.
  - unfold subMsg_catch. eexists. split; [reflexivity|].
    simpl. rewrite persisted_app. simpl. rewrite app_nil_r. by repeat split.
Qed.

(** C7: the aggregator sends one balance query per watched address; when
    all are answered it asks the store to persist their sum, and once the
    store has written it the caller goes on with that sum: the catch-up
    procedure with the drain, the push handler with the update it emits.
    When a query fails, or an answer is of another type than the one
    asked for, the store is asked to persist nothing and the error is
    thrown to the caller, which treats it as its own failure: the catch-up
    procedure logs it and ends the cycle with the retry timer armed, the
    push handler logs it with the block. *)
Theorem updateTotalBalance_sums k s :
  (exists s1,
     updateTotalBalance k s = (s1, Await (AwaitAllAddressInfo k))
     /\ effects s1
        = effects s ++ ((fun addr => SendReq (ReqGetAddressInfo addr))
                          <$> watchAddrs s)
     /\ applier_frame s s1 /\ currentHeight s1 = currentHeight s)
  /\ (forall balances s2,
        length balances = length (watchAddrs s2) ->
        resume (AwaitAllAddressInfo k)
               (Fulfilled (VAll (ResGetAddressInfo <$> balances))) s2
        = Some (effect (SetTotalBalance (foldl Asset_add Asset_zero balances)) s2,
                Await (AwaitSetTotalBalance k
                         (foldl Asset_add Asset_zero balances))))
  /\ (forall e s2,
        caught_by_caller k e s2
          (resume (AwaitAllAddressInfo k) (Rejected e) s2))
  /\ (forall responses s2,
        length responses = length (watchAddrs s2) ->
        (exists res, res ∈ responses /\ res_type res <> GetAddressInfo) ->
        exists res,
          res ∈ responses /\ res_type res <> GetAddressInfo
          /\ caught_by_caller k (UnexpectedRpcResponse (res_type res)) s2
               (resume (AwaitAllAddressInfo k) (Fulfilled (VAll responses)) s2))
  /\ (forall totalBal s2,
        resume (AwaitSetTotalBalance k totalBal) (Fulfilled VUnit) s2
        = Some match k with
               | FullSync txs =>
                   drain (pendingBlocks s2) 0 (array (pendingBlocks s2) s2)
                         txs totalBal s2
               | LivePush block st rows =>
                   let update :=
                     {| status := st;
                        newData :=
                          Some {| totalBalance := amount_toString totalBal;
                                  txs := rows |} |} in
                   (effect (SetSyncHeight (currentHeight s2))
                      (effect (IpcEmitSyncUpdate update)
                         (effect (Emit update) s2)),
                    Await (AwaitSetSyncHeight (Pushed block)))
               end).
Proof.
  split; [|split; [|split; [|split]]].
  - unfold updateTotalBalance.
    destruct (foldl_effect_frame (fun addr => SendReq (ReqGetAddressInfo addr))
                (watchAddrs s) s) as (Hf & Hh & He).
    eexists. split; [reflexivity|]. done.
  - intros balances s2 Hlen. cbn [resume].
    rewrite decide_True by (by rewrite length_fmap).
    unfold updateTotalBalance_all. by rewrite sumBalances_all_fulfilled.
  - intros e s2. cbn [resume]. apply updateTotalBalance_throw_caught.
  - intros responses s2 Hlen Hex.
    destruct (sumBalances_foreign Asset_zero responses Hex)
      as (res & Hin & Hty & Hsum).
    exists res. split; [done|]. split; [done|]. cbn [resume].
    rewrite decide_True by done.
    unfold updateTotalBalance_all. rewrite Hsum. cbn [continue].
    apply updateTotalBalance_throw_caught.
  - intros totalBal s2. by destruct k.
Qed.

(** X6: the close handler cancels the retry timer it holds, clears the
    in-progress flag, sets the status to [Connecting] and emits a
    status-only update; the height cursor, the pending queue and the
    activations in flight are as they were. *)
Theorem onClose_frame sys :
  let s := state sys in
  let update := {| status := Connecting; newData := None |} in
  step ClientClose sys = Some {| state := onClose s; activations := activations sys |}
  /\ fullSyncInProgress (onClose s) = false
  /\ fullSyncRetryTimer (onClose s) = None
  /\ timers (onClose s)
     = match fullSyncRetryTimer s with
       | Some t => filter (fun t' => t' ≠ t) (timers s)
       | None => timers s
       end
  /\ syncStatus (onClose s) = Connecting
  /\ effects (onClose s)
     = effects s
       ++ match fullSyncRetryTimer s with
          | Some t => [ClearTimeout t]
          | None => []
          end
       ++ [Emit update; IpcEmitSyncUpdate update]
  /\ currentHeight (onClose s) = currentHeight s
  /\ pendingBlocks (onClose s) = pendingBlocks s
  /\ arrays (onClose s) = arrays s
  /\ watchAddrs (onClose s) = watchAddrs s
  /\ timerSeq (onClose s) = timerSeq s
  /\ clock (onClose s) = clock s.
Proof.
  simpl. unfold onClose. simpl.
  destruct (fullSyncRetryTimer (state sys)) eqn:E; simpl;
    rewrite ?E, <- ?app_assoc; repeat split.
Qed.

End Claims.

(** ** The secret key *)

Section SecretKeyFacts.
Import Crypto.
Context `{S : Sodium}.

(** The contract of libsodium's secretbox: a box opens under the nonce
    and key it was made with, and is longer than its message by the
    authenticator. *)
Hypothesis open_easy : forall m n k,
  length n = crypto_secretbox_NONCEBYTES ->
  length k = crypto_secretbox_KEYBYTES ->
  crypto_secretbox_open_easy (crypto_secretbox_easy m n k) n k = Opens m.
Hypothesis easy_length : forall m n k,
  length (crypto_secretbox_easy m n k) = (length m + crypto_secretbox_MACBYTES)%nat.
Hypothesis MACBYTES_pos : (0 < crypto_secretbox_MACBYTES)%nat.

(** C10: under that contract, with a key that has not been zeroed,
    decrypting what [encrypt] returned gives the data back; once the key
    has been zeroed, [encrypt] and [decrypt] throw. *)
Theorem decrypt_encrypt (k : Bytes) (sk : SecretKey) (nonce d : Bytes) :
  new k = Returns sk ->
  length nonce = crypto_secretbox_NONCEBYTES ->
  (exists c, encrypt sk nonce d = Returns c /\ decrypt sk c = Returns d)
  /\ key (zero sk) = None
  /\ (forall nonce' d',
        encrypt (zero sk) nonce' d' = Throws (AssertionError "key has been zeroed"))
  /\ (forall c',
        decrypt (zero sk) c' = Throws (AssertionError "key has been zeroed")).
Proof.
  unfold new. destruct (decide _) as [Hk|]; [|done]. intros [= <-] Hn.
  split; [|by repeat split].
  eexists. split; [reflexivity|]. unfold decrypt. cbn [key].
  rewrite decide_True by (rewrite length_app, easy_length; lia).
  rewrite <- Hn, take_app_length, drop_app_length.
  by rewrite open_easy.
Qed.

End SecretKeyFacts.

(** ** The statements on the example scenes *)

Section Scenes.
Import Example.
Existing Instance Toy.

Lemma opened_is_new : new [A; B] 5 true true 1000 = Ok opened.
Proof. reflexivity. Qed.

Lemma closed_is_new : new [A; B] 5 true false 1000 = Ok closed.
Proof. reflexivity. Qed.

(** The drain of the example queue at height 5: the first and the third
    block are applied, the second is skipped. *)
Lemma drain_skips_stale_applies_rest_witness :
  Forall (fun b => Forall (fun w => recognized (tx w)) (transactions b))
         (array 0%nat (at_height 5 InProgress queue))
  /\ length [51; 52]%nat
     = length (concat (matched [A; B] <$> drained 5 queue))
  /\ exists s',
       run (row_settled 0 <$> [51; 52]%nat)
           (spawn [] (drain 0%nat 0 queue [50%nat] (12 : Asset)
                            (at_height 5 InProgress queue)))
       = Some (spawn [] (s', Await (AwaitSetSyncHeight
                                      (Final [50; 51; 52]%nat (12 : Asset)))))
       /\ inserted (effects s') = [transfer B A; reward B]
       /\ currentHeight s' = 7.
Proof.
  assert (H1 : Forall (fun b : Block => Forall (fun w => recognized (tx w))
                                          (transactions b))
                      (array 0%nat (at_height 5 InProgress queue)))
    by (repeat constructor).
  assert (H2 : length [51; 52]%nat
               = length (concat (matched [A; B] <$> drained 5 queue)))
    by reflexivity.
  split; [exact H1|]. split; [exact H2|].
  destruct (drain_skips_stale_applies_rest (G := Toy) 0%nat 12 [50%nat]
              (at_height 5 InProgress queue) [51; 52]%nat H1 H2)
    as (_ & _ & s' & Hrun & Hi & Hh & _).
  exists s'. split; [exact Hrun|]. split; [exact Hi|exact Hh].
Defined.

(** One transfer between the two watched addresses: one row. *)
Lemma applyBlock_one_row_per_match_witness :
  Forall (fun w => recognized (tx w)) (transactions (block 6 [transfer A B]))
  /\ length [51%nat] = length (matched [A; B] (block 6 [transfer A B]))
  /\ exists row, [51%nat] = [row].
Proof.
  assert (H1 : Forall (fun w : TxVariant => recognized (tx w))
                      (transactions (block 6 [transfer A B])))
    by (repeat constructor).
  assert (H2 : length [51%nat] = length (matched [A; B] (block 6 [transfer A B])))
    by reflexivity.
  split; [exact H1|]. split; [exact H2|].
  destruct (applyBlock_one_row_per_match (InPush (block 6 [transfer A B]))
              (block 6 [transfer A B]) (at_height 5 Complete []) [51%nat] H1 H2)
    as (_ & _ & Hone).
  apply (Hone A B); [reflexivity|by left|by right; left].
Defined.

(** A block whose second transaction is of no known variant. *)
Lemma unrecognized_variant_aborts_witness :
  exists s1,
    run (row_settled 0 <$> [51%nat])
        (spawn [] (continue
                     (applyBlock (InPush (block 6 [transfer A C; unknown; reward B]))
                                 (FullBlock (block 6 [transfer A C; unknown; reward B]))
                                 (at_height 5 Complete []))
                     (applyBlock_return (InPush (block 6 [transfer A C; unknown; reward B])))
                     (applyBlock_throw (InPush (block 6 [transfer A C; unknown; reward B])))))
    = Some (spawn [] (applyBlock_throw
                        (InPush (block 6 [transfer A C; unknown; reward B]))
                        (ExhaustiveCheckFailed 7) s1))
    /\ inserted (effects s1) = [transfer A C]
    /\ currentHeight s1 = 5.
Proof.
  assert (H1 : Forall (fun w : TxVariant => recognized (tx w)) [transfer A C])
    by (repeat constructor).
  destruct (unrecognized_variant_aborts
              (InPush (block 6 [transfer A C; unknown; reward B]))
              (block 6 [transfer A C; unknown; reward B])
              (at_height 5 Complete []) [transfer A C] unknown [reward B] 7%nat
              [51%nat] eq_refl eq_refl H1 eq_refl)
    as (_ & s1 & Hrun & Hi & Hh & _).
  exists s1. split; [exact Hrun|]. split; [exact Hi|exact Hh].
Defined.


(** A cycle whose first request fails is left with the queue empty. *)
Lemma pending_queue_emptied_on_exit_witness :
  array (pendingBlocks (performFullSync_throw (External "closed")
                          (at_height 5 InProgress queue)).1)
        (performFullSync_throw (External "closed")
           (at_height 5 InProgress queue)).1 = [].
Proof.
  exact (proj1 (pending_queue_emptied_on_exit AwaitGetProperties
                  (at_height 5 InProgress queue)
                  (performFullSync_throw (External "closed")
                     (at_height 5 InProgress queue))
                  eq_refl
                  (or_introl (ex_intro _ (Rejected (External "closed")) eq_refl)))).
Defined.

(** The open of the example wallet sets the status to [InProgress]. *)
Lemma status_driven_by_synchronizer_witness :
  step ClientOpen closed = Some opened
  /\ syncStatus (state opened) = InProgress.
Proof.
  split; [reflexivity|].
  destruct (proj2 (status_driven_by_synchronizer ClientOpen closed opened eq_refl))
    as [H|[[H _]|[[H _]|[H _]]]]; [discriminate H|exact H|discriminate H|discriminate H].
Defined.



(** The drain goes over the array as it grows: a block pushed while the
    drain waits for an insert is applied in the same cycle. *)
Lemma pushed_during_drain_is_drained :
  (currentHeight ∘ state <$> run catchUp_with_pushes opened) = Some 7
  /\ (inserted ∘ effects ∘ state <$> run catchUp_with_pushes opened)
     = Some [transfer B A; reward B]
  /\ (syncStatus ∘ state <$> run catchUp_with_pushes opened) = Some Complete
  /\ (activations <$> run catchUp_with_pushes opened) = Some [].
Proof. repeat split. Qed.

(** The guard of the in-progress flag is for runs in which the transport
    stays up.  The close handler clears the flag while a cycle may still be
    suspended, and the open that follows starts a second one. *)
Lemma open_after_close_overlaps :
  (length ∘ catchUps <$> run [ClientClose; ClientOpen] opened) = Some 2%nat.
Proof. reflexivity. Qed.

(** Two balances, 3 and 4: the store is asked to persist 7. *)
Lemma updateTotalBalance_sums_witness :
  resume (AwaitAllAddressInfo (FullSync []))
         (Fulfilled (VAll (ResGetAddressInfo <$> [3; 4])))
         (at_height 5 InProgress [])
  = Some (effect (SetTotalBalance (7 : Asset)) (at_height 5 InProgress []),
          Await (AwaitSetTotalBalance (FullSync []) (7 : Asset))).
Proof.
  exact (proj1 (proj2 (updateTotalBalance_sums (FullSync [])
                         (at_height 5 InProgress [])))
               [3; 4] (at_height 5 InProgress []) eq_refl).
Defined.

End Scenes.

Section ToyBox.
Import Crypto.
Existing Instance ToySodium.

(** The round trip with the toy secretbox. *)
Lemma decrypt_encrypt_witness :
  new Example.key32 = Returns {| key := Some Example.key32 |}
  /\ length Example.nonce24 = crypto_secretbox_NONCEBYTES
  /\ exists c, encrypt {| key := Some Example.key32 |} Example.nonce24 ["003"%byte] = Returns c
               /\ decrypt {| key := Some Example.key32 |} c = Returns ["003"%byte].
Proof.
  split; [reflexivity|]. split; [reflexivity|].
  refine (proj1 (decrypt_encrypt _ _ _ Example.key32 {| key := Some Example.key32 |}
                   Example.nonce24 ["003"%byte] eq_refl eq_refl)).
  - intros m n k _ _. cbn [crypto_secretbox_open_easy crypto_secretbox_easy ToySodium].
    destruct (decide _) as [_|Hn]; [reflexivity|].
    exfalso. apply Hn. rewrite length_app, length_replicate. lia.
  - intros m n k. cbn [crypto_secretbox_easy crypto_secretbox_MACBYTES ToySodium].
    rewrite length_app, length_replicate. lia.
  - cbn [crypto_secretbox_MACBYTES ToySodium]. lia.
Defined.

End ToyBox.


(** ** Database migrations *)

Section MigrationFacts.
Import Migrations.

Lemma runMigrations_cases (db : Db) :
  match table db with
  | None =>
      runMigrations db
      = ({| table := Some [{| id := 0; version := 1 |}];
            console := console db ++ [CurrentDatabaseVersion 0; UpgradedTo1] |},
         Returns tt)
  | Some [] => runMigrations db = (db, Throws TypeError)
  | Some (data :: _) =>
      if version data =? 1
      then runMigrations db
           = (console_log (CurrentDatabaseVersion 1) db, Returns tt)
      else exists e, runMigrations db
                     = (console_log (CurrentDatabaseVersion (version data)) db,
                        Throws e)
  end.
Proof.
  destruct db as [[[|data rows]|] out]; unfold runMigrations, read_data; simpl.
  - done.
  - destruct (Z.eqb_spec (version data) 1) as [->|Hne]; [done|].
    destruct (Z.eqb_spec (version data) 0) as [->|Hne0]; simpl; eauto.
  - unfold upgrade_to_1, create_table, insert_row, console_log, set_table. simpl.
    by rewrite <- app_assoc.
Qed.

(** X1: the migration succeeds exactly on a database that has no table
    [migrations] yet or whose first row is at version 1; after a success
    the table's first row is at version 1, and a second run succeeds and
    leaves the table as it is. *)
Theorem runMigrations_reaches_version_1 (db : Db) :
  ((runMigrations db).2 = Returns tt
   <-> table db = None \/ version <$> get_first_row db = Some 1)
  /\ ((runMigrations db).2 = Returns tt ->
      version <$> get_first_row (runMigrations db).1 = Some 1
      /\ (runMigrations (runMigrations db).1).2 = Returns tt
      /\ table (runMigrations (runMigrations db).1).1
         = table (runMigrations db).1).
Proof.
  pose proof (runMigrations_cases db) as H.
  destruct db as [[[|data rows]|] out]; simpl in H.
  - rewrite H. simpl. split; [|discriminate].
    split; [discriminate|]. intros [|]; discriminate.
  - unfold get_first_row at 1. simpl.
    destruct (Z.eqb_spec (version data) 1) as [E|Hne].
    + rewrite H. simpl. split; [split; [right; by rewrite E|done]|].
      intros _. split; [unfold get_first_row; simpl; by rewrite E|].
      pose proof (runMigrations_cases
                    (console_log (CurrentDatabaseVersion 1)
                       {| table := Some (data :: rows); console := out |})) as H'.
      simpl in H'. rewrite E in H'. simpl in H'. by rewrite H'.
    + destruct H as [e H]. rewrite H. simpl. split; [|discriminate].
      split; [discriminate|]. intros [|[=]]; [discriminate|congruence].
  - rewrite H. simpl. split; [split; [by left|done]|].
    intros _. by repeat split.
Qed.

(** X2: a migration that throws has not written to the table.  It throws
    on a table without rows, and on a table whose first row is at any
    version but 1, version 0 included: there the table exists and cannot be
    created. *)
Theorem runMigrations_failure_writes_nothing (db : Db) (e : Error) :
  (runMigrations db).2 = Throws e ->
  table (runMigrations db).1 = table db
  /\ (exists rows, table db = Some rows)
  /\ version <$> get_first_row db ≠ Some 1
  /\ (get_first_row db = None -> e = TypeError)
  /\ (version <$> get_first_row db = Some 0 -> e = TableAlreadyExists).
Proof.
  pose proof (runMigrations_cases db) as H.
  destruct db as [[[|data rows]|] out]; simpl in H.
  - rewrite H. simpl. intros [= <-]. repeat split; eauto; discriminate.
  - unfold get_first_row. simpl.
    destruct (Z.eqb_spec (version data) 1) as [E|Hne].
    + by rewrite H.
    + destruct H as [e' H]. rewrite H. simpl. intros [= ->].
      split; [done|]. split; [eauto|]. split; [congruence|].
      split; [discriminate|]. intros [= E0].
      unfold runMigrations, read_data in H. simpl in H. rewrite E0 in H.
      simpl in H. by injection H as <-.
  - by rewrite H.
Qed.

Lemma runMigrations_failure_writes_nothing_witness :
  (runMigrations {| table := Some [{| id := 0; version := 0 |}]; console := [] |}).2
  = Throws TableAlreadyExists
  /\ table (runMigrations {| table := Some [{| id := 0; version := 0 |}];
                             console := [] |}).1
     = Some [{| id := 0; version := 0 |}].
Proof.
  split; [reflexivity|].
  exact (proj1 (runMigrations_failure_writes_nothing
                  {| table := Some [{| id := 0; version := 0 |}]; console := [] |}
                  TableAlreadyExists eq_refl)).
Defined.

Lemma runMigrations_reaches_version_1_witness :
  runMigrations {| table := None; console := [] |}
  = ({| table := Some [{| id := 0; version := 1 |}];
        console := [CurrentDatabaseVersion 0; UpgradedTo1] |}, Returns tt)
  /\ (runMigrations {| table := Some [{| id := 0; version := 1 |}];
                       console := [CurrentDatabaseVersion 0; UpgradedTo1] |}).2
     = Returns tt.
Proof.
  split; [reflexivity|].
  exact (proj1 (proj2 (proj2 (runMigrations_reaches_version_1
                                {| table := None; console := [] |}) eq_refl))).
Defined.

End MigrationFacts.


(** ** The retry timer *)

Section RetryTimer.
Context `{G : Godcoin} {TxRawRow : Type}.
Implicit Types (s : State (TxRawRow := TxRawRow))
               (sys : System (TxRawRow := TxRawRow)).

Lemma requests_app (es es' : list (Effect (TxRawRow := TxRawRow))) :
  requests (es ++ es') = requests es ++ requests es'.
Proof.
  induction es as [|e es IH]; simpl; [done|].
  destruct e; simpl; by rewrite ?IH.
Qed.
















Lemma emitSyncUpdate_frame u s : applier_frame s (emitSyncUpdate u s).
Proof. by repeat split. Qed.











Lemma spawn_state (acts : list Pc) (r : State (TxRawRow := TxRawRow) * Outcome unit) :
  (forall e, r.2 <> Raise e) -> state (spawn acts r) = r.1.
Proof. destruct r as [s' [[]|e|pc]]; simpl; [done| |done]. intros H. by destruct (H e). Qed.

Lemma settle_state (acts : list Pc) i
    (r : State (TxRawRow := TxRawRow) * Outcome unit) :
  (forall e, r.2 <> Raise e) -> state (settle acts i r) = r.1.
Proof. destruct r as [s' [[]|e|pc]]; simpl; [done| |done]. intros H. by destruct (H e). Qed.







End RetryTimer.


(** ** The watch set and the pending queue over a run *)

Section Queue.
Context `{G : Godcoin} {TxRawRow : Type}.
Implicit Types (s : State (TxRawRow := TxRawRow))
               (sys : System (TxRawRow := TxRawRow)).

(** A push handled in status [Complete] is a segment of the push handler. *)
Lemma subMsg_complete_segment block s :
  syncStatus s = Complete ->
  push_segment s (subMsg (ResGetBlock block) s).
Proof.
  intros Hst. unfold subMsg. rewrite Hst.
  set (s0 := log _ s).
  destruct (applyBlock_frame (InPush block) (FullBlock block) s0) as [Hf Hpc].
  apply (push_segment_frame s s0); [apply applier_frame_effect|].
  apply continue_push; [done| | |].
  - intros. apply subMsg_applied_segment.
  - intros. apply subMsg_catch_segment.
  - intros pc Hq. destruct (Hpc pc Hq) as (? & ? & ->). done.
Qed.

Lemma pendingBlocks_push_array block s :
  queue_valid s ->
  array (pendingBlocks s) (pendingBlocks_push block s)
  = array (pendingBlocks s) s ++ [block].
Proof.
  unfold queue_valid, array, pendingBlocks_push. simpl. intros Hv.
  destruct (lookup_lt_is_Some_2 _ _ Hv) as [a Ha].
  rewrite list_lookup_alter. destruct (decide _); [|done].
  unfold Ref in *. by rewrite Ha.
Qed.

Lemma spawn_startSync_queue acts s :
  watchAddrs (state (spawn acts (startSync s))) = watchAddrs s
  /\ (queue_valid s -> queue_valid (state (spawn acts (startSync s)))).
Proof.
  destruct (fullSyncInProgress s) eqn:Hs.
  - by rewrite (startSync_busy _ Hs).
  - destruct (startSync_idle _ Hs) as (s' & pc & -> & _ & _ & _ & Hw & _ & Hp & Ha).
    simpl. unfold queue_valid. by rewrite Hw, Hp, Ha.
Qed.

Lemma step_watch_queue e sys sys' :
  step e sys = Some sys' ->
  watchAddrs (state sys') = watchAddrs (state sys)
  /\ (queue_valid (state sys) -> queue_valid (state sys')).
Proof.
  intros Hstep. destruct e as [| |res|t|i c|i err fb|dt]; simpl in Hstep.
  - injection Hstep as <-. apply spawn_startSync_queue.
  - injection Hstep as <-. unfold onClose, queue_valid. simpl.
    by destruct (fullSyncRetryTimer (state sys)).
  - injection Hstep as <-.
    destruct (subMsg_control res (state sys)) as (_ & _ & Hw & Ho).
    rewrite spawn_state by (intros e He; by rewrite He in Ho).
    split; [done|]. unfold subMsg.
    destruct res; try done. destruct (syncStatus (state sys)) eqn:Hst.
    + destruct (subMsg_complete_segment block _ Hst) as (_ & _ & _ & Hp & Ha & _).
      unfold subMsg in Hp, Ha. rewrite Hst in Hp, Ha.
      unfold queue_valid. by rewrite Hp, Ha.
    + unfold queue_valid, pendingBlocks_push. simpl. by rewrite length_alter.
    + unfold queue_valid, pendingBlocks_push. simpl. by rewrite length_alter.
  - destruct (decide _); [|done]. injection Hstep as <-.
    apply (spawn_startSync_queue (activations sys) (set_timers _ (state sys))).
  - destruct (activations sys !! i) as [pc|] eqn:Hi; [|done]. simpl in Hstep.
    destruct (resume pc c (state sys)) as [r|] eqn:Hr; [|done].
    injection Hstep as <-.
    destruct (inCatchUp pc) eqn:Hpc.
    + apply resume_catchUp in Hr as [Hw Hseg]; [|done].
      destruct r as [s' [[]|e|pc']]; simpl in *; [| done |].
      * split; [done|]. intros _. unfold queue_valid.
        destruct Hseg as (_ & _ & _ & -> & ->). rewrite length_app. simpl. lia.
      * split; [done|]. unfold queue_valid.
        by destruct Hseg as (_ & _ & _ & -> & ->).
    + apply resume_push in Hr as (Hw & _ & _ & Hp & Ha & Ho); [|done].
      rewrite settle_state by (intros e He; by rewrite He in Ho).
      unfold queue_valid. by rewrite Hw, Hp, Ha.
  - destruct (activations sys !! i) as [[| | |txs time| | | |]|] eqn:Hi; try done.
    injection Hstep as <-.
    destruct (callback_segment txs time err fb (state sys)) as [Hw Hseg].
    destruct (callback _ _ _ _ _) as [s' [[]|e|pc']]; simpl in *; [| done |].
    + split; [done|]. intros _. unfold queue_valid.
      destruct Hseg as (_ & _ & _ & -> & ->). rewrite length_app. simpl. lia.
    + split; [done|]. unfold queue_valid.
      by destruct Hseg as (_ & _ & _ & -> & ->).
  - destruct (decide _); [|done]. by injection Hstep as <-.
Qed.

Lemma run_watch_queue es : forall sys sys',
  run es sys = Some sys' ->
  watchAddrs (state sys') = watchAddrs (state sys)
  /\ (queue_valid (state sys) -> queue_valid (state sys')).
Proof.
  induction es as [|e es IH]; intros sys sys' Hrun; simpl in Hrun.
  - by injection Hrun as <-.
  - destruct (step e sys) as [sys1|] eqn:Hstep; [|done]. simpl in Hrun.
    destruct (step_watch_queue _ _ _ Hstep) as [Hw Hq].
    destruct (IH _ _ Hrun) as [Hw' Hq']. split; [congruence|auto].
Qed.

Lemma new_queue_valid watch h unsigned isOpen now sys :
  new watch h unsigned isOpen now = Ok sys ->
  queue_valid (state sys) /\ watchAddrs (state sys) = watch.
Proof.
  unfold new. destruct unsigned; [|done]. simpl.
  destruct isOpen; intros [= <-]; [|unfold queue_valid; simpl; split; [lia|done]].
  set (s0 := mkState _ _ _ _ _ _ _ _ _ _ _).
  destruct (spawn_startSync_queue [] s0) as [Hw Hq].
  split; [apply Hq; unfold queue_valid; simpl; lia|exact Hw].
Qed.

(** X7: whatever happens to the transport, the watch set of a
    synchronizer stays the one its constructor was given. *)
Theorem watch_set_is_fixed watch h unsigned isOpen now es sys0 sys :
  new watch h unsigned isOpen now = Ok sys0 ->
  run es sys0 = Some sys ->
  watchAddrs (state sys) = watch.
Proof.
  intros Hnew Hrun. destruct (run_watch_queue _ _ _ Hrun) as [-> _].
  by apply new_queue_valid in Hnew as [_ ?].
Qed.

(** X8: the pending queue grows only by blocks pushed while the status is
    not [Complete]: such a push puts the block at the end of the queue and
    does nothing else; a push in status [Complete] leaves the queue as it
    is; a message of another type than [GetBlock] is ignored. *)
Theorem pushes_buffered_until_complete watch h unsigned isOpen now es sys0 sys
    (block : Block) :
  new watch h unsigned isOpen now = Ok sys0 ->
  run es sys0 = Some sys ->
  (syncStatus (state sys) <> Complete ->
   exists s',
     step (SubMsg (ResGetBlock block)) sys
     = Some {| state := s'; activations := activations sys |}
     /\ pendingBlocks s' = pendingBlocks (state sys)
     /\ array (pendingBlocks s') s'
        = array (pendingBlocks (state sys)) (state sys) ++ [block]
     /\ currentHeight s' = currentHeight (state sys)
     /\ syncStatus s' = syncStatus (state sys)
     /\ effects s' = effects (state sys))
  /\ (syncStatus (state sys) = Complete ->
      forall sys', step (SubMsg (ResGetBlock block)) sys = Some sys' ->
        pendingBlocks (state sys') = pendingBlocks (state sys)
        /\ arrays (state sys') = arrays (state sys))
  /\ (forall res, res_type res <> GetBlock -> step (SubMsg res) sys = Some sys).
Proof.
  intros Hnew Hrun.
  assert (Hv : queue_valid (state sys)).
  { apply (run_watch_queue _ _ _ Hrun). by apply new_queue_valid in Hnew as [? _]. }
  split; [|split].
  - intros Hst. exists (pendingBlocks_push block (state sys)).
    split; [|split; [done|split; [exact (pendingBlocks_push_array block (state sys) Hv)|done]]].
    simpl. by destruct (syncStatus (state sys)).
  - intros Hst sys' Hstep.
    assert (sys' = spawn (activations sys) (subMsg (ResGetBlock block) (state sys)))
      as -> by (injection Hstep as <-; reflexivity).
    destruct (subMsg_complete_segment block _ Hst) as (_ & _ & _ & Hp & Ha & Ho).
    rewrite (spawn_state (activations sys) (subMsg (ResGetBlock block) (state sys)));
      [done|intros e He; by rewrite He in Ho].
  - intros res Hty. simpl. destruct res; by destruct sys.
Qed.

End Queue.

(** ** The trace over a run *)

Section TraceFacts.
Context `{G : Godcoin} {TxRawRow : Type}.
Implicit Types (s : State (TxRawRow := TxRawRow))
               (sys : System (TxRawRow := TxRawRow)).

Lemma extends_refl s : extends s s.
Proof. split; [done|]. exists []. by rewrite app_nil_r. Qed.

Lemma extends_trans s s1 s2 : extends s s1 -> extends s1 s2 -> extends s s2.
Proof.
  intros [Hw (es & He & Hes)] [Hw' (es' & He' & Hes')].
  split; [congruence|]. exists (es ++ es'). split.
  - by rewrite He', He, app_assoc.
  - apply Forall_app. split; [done|]. by rewrite <- Hw.
Qed.

Lemma extends_effect e s :
  effect_about (watchAddrs s) e -> extends s (effect e s).
Proof. intros He. split; [done|]. exists [e]. split; [done|]. by constructor. Qed.

(** A step that leaves the watch set and the trace alone. *)
Lemma extends_silent s s' :
  watchAddrs s' = watchAddrs s -> effects s' = effects s -> extends s s'.
Proof. intros Hw He. split; [done|]. exists []. by rewrite app_nil_r. Qed.

Lemma extends_effect_after e s s' :
  extends s s' -> effect_about (watchAddrs s) e -> extends s (effect e s').
Proof.
  intros Hs He. eapply extends_trans; [exact Hs|].
  apply extends_effect. by rewrite (proj1 Hs).
Qed.

Lemma extends_log l s : extends s (log l s).
Proof. by apply extends_effect. Qed.

Lemma extends_emitSyncUpdate u s : extends s (emitSyncUpdate u s).
Proof.
  unfold emitSyncUpdate.
  apply extends_effect_after; [|done]. by apply extends_effect.
Qed.

Lemma extends_updateSyncHeight s : extends s (updateSyncHeight s).
Proof. by apply extends_effect. Qed.

Lemma extends_applyBlock_height h (u : option (list TxRawRow)) s :
  extends s (applyBlock_height h u s).1.
Proof.
  unfold applyBlock_height. destruct (negb _); simpl.
  - eapply extends_trans; [apply extends_log|].
    by apply extends_silent.
  - by apply extends_silent.
Qed.

Lemma extends_applyBlock_txs k h ws : forall (u : option (list TxRawRow)) s,
  extends s (applyBlock_txs k h ws u s).1.
Proof.
  induction ws as [|w ws IH]; intros u s; cbn [applyBlock_txs].
  - apply extends_applyBlock_height.
  - destruct (txHasMatch (watchAddrs s) w) as [[|]|e] eqn:Hm; cbn [fst].
    + apply extends_effect. simpl. unfold isMatch. by rewrite Hm.
    + apply IH.
    + apply extends_refl.
Qed.

Lemma extends_applyBlock k block s : extends s (applyBlock k block s).1.
Proof.
  destruct block; cbn [applyBlock];
    [apply extends_applyBlock_txs|apply extends_applyBlock_height].
Qed.

Lemma extends_continue {A} (r : State (TxRawRow := TxRawRow) * Outcome A)
    ret catch s :
  extends s r.1 ->
  (forall a s1, extends s1 (ret a s1).1) ->
  (forall e s1, extends s1 (catch e s1).1) ->
  extends s (continue r ret catch).1.
Proof.
  intros Hr Hret Hcatch. destruct r as [s1 [a|e|pc]]; simpl in *;
    [eapply extends_trans; [exact Hr|apply Hret]
    |eapply extends_trans; [exact Hr|apply Hcatch]|done].
Qed.

Lemma extends_pendingBlocks_reset s : extends s (pendingBlocks_reset s).
Proof. by apply extends_silent. Qed.

Lemma extends_performFullSync_throw e s :
  extends s (performFullSync_throw e s).1.
Proof.
  unfold performFullSync_throw, setTimeout. simpl.
  split; [done|]. eexists. simpl. rewrite <- app_assoc. split; [reflexivity|].
  by repeat constructor.
Qed.

Lemma extends_performFullSync_complete txs tb s :
  extends s (performFullSync_complete txs tb s).1.
Proof.
  unfold performFullSync_complete. simpl.
  split; [done|]. eexists. simpl. rewrite <- !app_assoc. split; [reflexivity|].
  by repeat constructor.
Qed.

Lemma extends_drain arr tb blocks : forall i txs s,
  extends s (drain arr i blocks txs tb s).1.
Proof.
  induction blocks as [|b blocks IH]; intros i txs s; cbn [drain].
  - apply extends_updateSyncHeight.
  - destruct (Long.lte _ _).
    + eapply extends_trans; [apply (extends_log (SkippingApplied (height b)))|].
      apply IH.
    + eapply extends_trans; [apply (extends_log (ApplyingPending (height b)))|].
      apply extends_continue.
      * apply extends_applyBlock_txs.
      * intros. apply IH.
      * intros. apply extends_performFullSync_throw.
Qed.

Lemma extends_updateTotalBalance k s : extends s (updateTotalBalance k s).1.
Proof.
  unfold updateTotalBalance. cbn [fst].
  destruct (foldl_effect_frame (fun addr => SendReq (ReqGetAddressInfo addr))
              (watchAddrs s) s) as ((Hw & _) & _ & He).
  split; [done|]. eexists. split; [exact He|].
  apply Forall_fmap, Forall_forall. by intros addr Hin.
Qed.

Lemma extends_subMsg_catch block e s : extends s (subMsg_catch block e s).1.
Proof. apply extends_log. Qed.

Lemma extends_subMsg_emit block u s : extends s (subMsg_emit block u s).1.
Proof.
  unfold subMsg_emit. cbn [fst].
  eapply extends_trans; [apply extends_emitSyncUpdate|apply extends_updateSyncHeight].
Qed.

Lemma extends_subMsg_applied block u s : extends s (subMsg_applied block u s).1.
Proof.
  unfold subMsg_applied. destruct u as [[|row rows]|];
    auto using extends_subMsg_emit, extends_updateTotalBalance.
Qed.

Lemma extends_subMsg res s : extends s (subMsg res s).1.
Proof.
  unfold subMsg. destruct res; try apply extends_refl.
  destruct (syncStatus s); try (by apply extends_silent).
  eapply extends_trans; [apply (extends_log (ReceivedBlockUpdate (height block)))|].
  apply extends_continue;
    auto using extends_applyBlock, extends_subMsg_applied, extends_subMsg_catch.
Qed.

Lemma extends_callback_throw txs time e s :
  extends s (callback_throw txs time e s).1.
Proof. by apply extends_effect. Qed.

Lemma extends_callback_timing txs time s :
  extends s (callback_timing txs time s).1.
Proof.
  unfold callback_timing. destruct (_ >? _);
    [apply extends_updateSyncHeight|apply extends_refl].
Qed.

Lemma extends_callback_applied txs time u s :
  extends s (callback_applied txs time u s).1.
Proof.
  unfold callback_applied. destruct u as [[|row rows]|];
    auto using extends_callback_timing, extends_updateSyncHeight.
Qed.

Lemma extends_callback txs time err fb s :
  extends s (callback txs time err fb s).1.
Proof.
  unfold callback. destruct err as [e|]; [apply extends_performFullSync_throw|].
  destruct fb as [block|]; [|apply extends_updateTotalBalance].
  apply extends_continue;
    auto using extends_applyBlock, extends_callback_applied, extends_callback_throw.
Qed.

Lemma extends_applyBlock_return k u s : extends s (applyBlock_return k u s).1.
Proof.
  destruct k; cbn [applyBlock_return applyBlock_throw updateSyncHeight_return updateSyncHeight_throw updateTotalBalance_return updateTotalBalance_throw fst];
    auto using extends_callback_applied, extends_drain, extends_subMsg_applied.
Qed.

Lemma extends_applyBlock_throw k e s : extends s (applyBlock_throw k e s).1.
Proof.
  destruct k; cbn [applyBlock_return applyBlock_throw updateSyncHeight_return updateSyncHeight_throw updateTotalBalance_return updateTotalBalance_throw fst];
    auto using extends_callback_throw, extends_performFullSync_throw,
               extends_subMsg_catch.
Qed.

Lemma extends_updateSyncHeight_return k s :
  extends s (updateSyncHeight_return k s).1.
Proof.
  destruct k; cbn [applyBlock_return applyBlock_throw updateSyncHeight_return updateSyncHeight_throw updateTotalBalance_return updateTotalBalance_throw fst];
    auto using extends_callback_timing, extends_performFullSync_complete,
               extends_refl.
  apply extends_log.
Qed.

Lemma extends_updateSyncHeight_throw k e s :
  extends s (updateSyncHeight_throw k e s).1.
Proof.
  destruct k; cbn [applyBlock_return applyBlock_throw updateSyncHeight_return updateSyncHeight_throw updateTotalBalance_return updateTotalBalance_throw fst];
    auto using extends_callback_throw, extends_performFullSync_throw,
               extends_subMsg_catch.
Qed.

Lemma extends_updateTotalBalance_return k tb s :
  extends s (updateTotalBalance_return k tb s).1.
Proof. destruct k; cbn [applyBlock_return applyBlock_throw updateSyncHeight_return updateSyncHeight_throw updateTotalBalance_return updateTotalBalance_throw fst]; auto using extends_drain, extends_subMsg_emit. Qed.

Lemma extends_updateTotalBalance_throw k e s :
  extends s (updateTotalBalance_throw k e s).1.
Proof.
  destruct k; cbn [applyBlock_return applyBlock_throw updateSyncHeight_return updateSyncHeight_throw updateTotalBalance_return updateTotalBalance_throw fst];
    auto using extends_performFullSync_throw, extends_subMsg_catch.
Qed.

Lemma extends_updateTotalBalance_all k rs s :
  extends s (updateTotalBalance_all k rs s).1.
Proof.
  unfold updateTotalBalance_all. destruct (sumBalances _ _);
    [by apply extends_effect|apply extends_refl].
Qed.

Lemma extends_performFullSync s : extends s (performFullSync s).1.
Proof.
  unfold performFullSync. cbn [fst].
  apply extends_effect_after; [apply extends_log|done].
Qed.

Lemma extends_performFullSync_properties res s :
  extends s (performFullSync_properties res s).1.
Proof.
  unfold performFullSync_properties.
  destruct res; auto using extends_performFullSync_throw.
  destruct (Long.lt _ _); [by apply extends_effect|apply extends_updateTotalBalance].
Qed.

Lemma extends_startSync s : extends s (startSync s).1.
Proof.
  unfold startSync. destruct (fullSyncInProgress s); [apply extends_refl|].
  set (s1 := match fullSyncRetryTimer _ with Some _ => _ | None => _ end).
  assert (H1 : extends s s1).
  { subst s1. simpl. destruct (fullSyncRetryTimer s).
    - split; [done|]. eexists. split; [reflexivity|]. by repeat constructor.
    - by apply extends_silent. }
  set (s2 := emitSyncUpdate _ _).
  assert (H2 : extends s s2).
  { eapply extends_trans; [exact H1|]. subst s2.
    eapply extends_trans; [|apply extends_emitSyncUpdate]. by apply extends_silent. }
  destruct (syncStatus s1).
  - eapply extends_trans; [exact H2|apply extends_performFullSync].
  - eapply extends_trans; [exact H2|apply extends_performFullSync].
  - by apply extends_effect_after.
Qed.

Lemma extends_startSync_catch e s : extends s (startSync_catch e s).1.
Proof.
  unfold startSync_catch.
  eapply extends_trans; [apply (extends_log (FailedToConfigure e))|].
  apply extends_performFullSync.
Qed.

Lemma extends_resume pc c s r : resume pc c s = Some r -> extends s r.1.
Proof.
  intros Hr.
  destruct pc as [| | |txs time|k h rest txs|k|k|k tb];
    destruct c as [[|res|rs|row]|e]; simpl in Hr; try discriminate;
    try (injection Hr as <-);
    auto using extends_startSync_catch, extends_performFullSync,
      extends_performFullSync_properties, extends_performFullSync_throw,
      extends_applyBlock_throw, extends_updateSyncHeight_return,
      extends_updateSyncHeight_throw, extends_updateTotalBalance_throw,
      extends_updateTotalBalance_return.
  - by apply extends_effect.
  - apply extends_continue;
      auto using extends_applyBlock_return, extends_applyBlock_throw.
    apply extends_applyBlock_txs.
  - destruct (decide _); [|done]. injection Hr as <-.
    apply extends_continue;
      auto using extends_updateTotalBalance_all, extends_updateTotalBalance_return,
                 extends_updateTotalBalance_throw.
Qed.

Lemma extends_onClose s : extends s (onClose s).
Proof.
  unfold onClose.
  eapply extends_trans; [|apply extends_emitSyncUpdate].
  simpl. destruct (fullSyncRetryTimer s).
  - split; [done|]. eexists. split; [reflexivity|]. by repeat constructor.
  - by apply extends_silent.
Qed.

Lemma extends_spawn acts (r : State (TxRawRow := TxRawRow) * Outcome unit) s :
  extends s r.1 -> extends s (state (spawn acts r)).
Proof.
  destruct r as [s' [[]|e|pc]]; simpl; [done| |done].
  intros H. by apply extends_effect_after.
Qed.

Lemma extends_settle acts i (r : State (TxRawRow := TxRawRow) * Outcome unit) s :
  extends s r.1 -> extends s (state (settle acts i r)).
Proof.
  destruct r as [s' [[]|e|pc]]; simpl; [done| |done].
  intros H. by apply extends_effect_after.
Qed.

Lemma extends_step e sys sys' :
  step e sys = Some sys' -> extends (state sys) (state sys').
Proof.
  intros Hstep. destruct e as [| |res|t|i c|i err fb|dt]; simpl in Hstep.
  - injection Hstep as <-. apply extends_spawn, extends_startSync.
  - injection Hstep as <-. apply extends_onClose.
  - injection Hstep as <-. apply extends_spawn, extends_subMsg.
  - destruct (decide _); [|done]. injection Hstep as <-.
    apply extends_spawn.
    eapply extends_trans; [|apply extends_startSync]. by apply extends_silent.
  - destruct (activations sys !! i) as [pc|]; [|done]. simpl in Hstep.
    destruct (resume pc c (state sys)) as [r|] eqn:Hr; [|done].
    injection Hstep as <-. by apply extends_settle, (extends_resume pc c).
  - destruct (activations sys !! i) as [[| | |txs time| | | |]|]; try done.
    injection Hstep as <-. apply extends_settle, extends_callback.
  - destruct (decide _); [|done]. injection Hstep as <-. by apply extends_silent.
Qed.

Lemma extends_run es : forall sys sys',
  run es sys = Some sys' -> extends (state sys) (state sys').
Proof.
  induction es as [|e es IH]; intros sys sys' Hrun; simpl in Hrun.
  - injection Hrun as <-. apply extends_refl.
  - destruct (step e sys) as [sys1|] eqn:Hstep; [|done]. simpl in Hrun.
    eapply extends_trans; [by apply (extends_step e)|by apply IH].
Qed.

Lemma extends_new watch h unsigned isOpen now sys :
  new watch h unsigned isOpen now = Ok sys ->
  watchAddrs (state sys) = watch
  /\ Forall (effect_about watch) (effects (state sys)).
Proof.
  unfold new. destruct unsigned; [|done]. simpl.
  destruct isOpen; intros [= <-]; [|done].
  set (s0 := mkState _ _ _ _ _ _ _ _ _ _ _).
  destruct (extends_spawn [] (startSync s0) s0 (extends_startSync s0))
    as (Hw & es & He & Hes).
  split; [exact Hw|].
  change (Forall (effect_about watch) (effects (state (spawn [] (startSync s0))))).
  rewrite He. exact Hes.
Qed.


Lemma Forall_inserted watch (es : list (Effect (TxRawRow := TxRawRow))) :
  Forall (effect_about watch) es ->
  Forall (fun w => matching_rule watch (tx w)) (inserted es).
Proof.
  induction 1 as [|e es He _ IH]; simpl; [constructor|].
  destruct e; try done. constructor; [by apply isMatch_rule|done].
Qed.

Lemma run_about watch h unsigned isOpen now es sys0 sys :
  new watch h unsigned isOpen now = Ok sys0 ->
  run es sys0 = Some sys ->
  Forall (effect_about watch) (effects (state sys)).
Proof.
  intros Hnew Hrun. apply extends_new in Hnew as [Hw H0].
  destruct (extends_run _ _ _ Hrun) as (_ & es' & -> & Hes).
  apply Forall_app. split; [done|]. by rewrite <- Hw.
Qed.


(** X10: in every run, every transaction the store is asked to insert
    satisfies the matching rule on the watch set. *)
Theorem inserts_only_matching watch h unsigned isOpen now es sys0 sys :
  new watch h unsigned isOpen now = Ok sys0 ->
  run es sys0 = Some sys ->
  Forall (fun w => matching_rule watch (tx w)) (inserted (effects (state sys))).
Proof. intros Hnew Hrun. eapply Forall_inserted, run_about; eauto. Qed.

End TraceFacts.

(** ** The catch-up cycle at its edges *)

Section Edges.
Context `{G : Godcoin} {TxRawRow : Type}.
Implicit Types (s : State (TxRawRow := TxRawRow))
               (sys : System (TxRawRow := TxRawRow)).

Lemma ranges_app (es es' : list (Effect (TxRawRow := TxRawRow))) :
  ranges (es ++ es') = ranges es ++ ranges es'.
Proof.
  induction es as [|e es IH]; simpl; [done|].
  destruct e; simpl; by rewrite ?IH.
Qed.

Lemma emitted_app (es es' : list (Effect (TxRawRow := TxRawRow))) :
  emitted (es ++ es') = emitted es ++ emitted es'.
Proof.
  induction es as [|e es IH]; simpl; [done|].
  destruct e; simpl; by rewrite ?IH.
Qed.

Lemma heights_app (es es' : list (Effect (TxRawRow := TxRawRow))) :
  heights (es ++ es') = heights es ++ heights es'.
Proof.
  induction es as [|e es IH]; simpl; [done|].
  destruct e; simpl; by rewrite ?IH.
Qed.

Lemma requests_fmap_SendReq {A} (f : A -> RpcReq) (l : list A) :
  requests ((fun a => SendReq (TxRawRow := TxRawRow) (f a)) <$> l) = f <$> l.
Proof. induction l as [|a l IH]; simpl; [done|by f_equal]. Qed.

Lemma ranges_fmap_SendReq {A} (f : A -> RpcReq) (l : list A) :
  ranges ((fun a => SendReq (TxRawRow := TxRawRow) (f a)) <$> l) = [].
Proof. induction l as [|a l IH]; simpl; done. Qed.

Lemma others_fmap_SendReq {A} (f : A -> RpcReq) (l : list A) :
  emitted ((fun a => SendReq (TxRawRow := TxRawRow) (f a)) <$> l) = []
  /\ inserted ((fun a => SendReq (TxRawRow := TxRawRow) (f a)) <$> l) = []
  /\ heights ((fun a => SendReq (TxRawRow := TxRawRow) (f a)) <$> l) = [].
Proof. induction l as [|a l IH]; simpl; done. Qed.

(** The requests and the ranges of a call of the Balance Aggregator. *)
Lemma updateTotalBalance_trace k s :
  requests (effects (updateTotalBalance k s).1)
  = requests (effects s) ++ (ReqGetAddressInfo <$> watchAddrs s)
  /\ ranges (effects (updateTotalBalance k s).1) = ranges (effects s).
Proof.
  unfold updateTotalBalance. cbn [fst].
  destruct (foldl_effect_frame (fun addr => SendReq (ReqGetAddressInfo addr))
              (watchAddrs s) s) as (_ & _ & ->).
  rewrite requests_app, ranges_app.
  by rewrite requests_fmap_SendReq, ranges_fmap_SendReq, app_nil_r.
Qed.

(** X11: when the chain is ahead of the local height, the cycle asks for
    one range, from the height after the local one, which does not wrap
    around, up to the chain's height; when it is not, it asks for no range
    and goes on with the balances. *)
Theorem range_from_next_height chainHeight s :
  0 <= currentHeight s -> chainHeight < Long.modulus ->
  (currentHeight s < chainHeight ->
     exists s',
       performFullSync_properties (ResGetProperties chainHeight) s
       = (s', Await (AwaitBlockRange [] (clock s)))
       /\ ranges (effects s')
          = ranges (effects s) ++ [(currentHeight s + 1, chainHeight)]
       /\ requests (effects s') = requests (effects s))
  /\ (chainHeight <= currentHeight s ->
     exists s',
       performFullSync_properties (ResGetProperties chainHeight) s
       = (s', Await (AwaitAllAddressInfo (FullSync [])))
       /\ ranges (effects s') = ranges (effects s)
       /\ requests (effects s')
          = requests (effects s) ++ (ReqGetAddressInfo <$> watchAddrs s)).
Proof.
  intros H0 Hmax. unfold performFullSync_properties, Long.lt. split; intros Hlt.
  - rewrite (proj2 (Z.ltb_lt _ _)) by done.
    eexists. split; [reflexivity|]. simpl.
    rewrite ranges_app, requests_app. simpl. rewrite app_nil_r.
    split; [|done]. unfold Long.add. by rewrite Z.mod_small by lia.
  - rewrite (proj2 (Z.ltb_ge _ _)) by done.
    destruct (updateTotalBalance_trace (FullSync []) s) as [Hreq Hrng].
    exists (updateTotalBalance (FullSync []) s).1. by split.
Qed.





Lemma run_cons e es sys : run (e :: es) sys = step e sys ≫= run es.
Proof. reflexivity. Qed.

Lemma step_open sys :
  step ClientOpen sys = Some (spawn (activations sys) (startSync (state sys))).
Proof. reflexivity. Qed.

Lemma step_settled sys i c pc r :
  activations sys !! i = Some pc -> resume pc c (state sys) = Some r ->
  step (Settled i c) sys = Some (settle (activations sys) i r).
Proof. intros Hi Hr. simpl. rewrite Hi. simpl. by rewrite Hr. Qed.

Lemma startSync_connecting s :
  fullSyncInProgress s = false -> syncStatus s = Connecting ->
  exists s1,
    startSync s = (s1, Await AwaitSubscribe)
    /\ requests (effects s1) = requests (effects s) ++ [ReqSubscribe]
    /\ fullSyncInProgress s1 = true
    /\ watchAddrs s1 = watchAddrs s.
Proof.
  unfold startSync. intros -> Hst. simpl.
  destruct (fullSyncRetryTimer s) eqn:E; simpl; rewrite Hst;
    (eexists; split; [reflexivity|]); simpl;
    rewrite !requests_app; simpl; by rewrite ?app_nil_r.
Qed.

(** X14: a subscription or a block filter the node refuses is logged, and
    the cycle goes on with the chain properties. *)
Theorem failed_subscription_does_not_stop_cycle sys e :
  fullSyncInProgress (state sys) = false ->
  syncStatus (state sys) = Connecting ->
  (exists sys',
     run [ClientOpen; Settled (length (activations sys)) (Rejected e)] sys
     = Some sys'
     /\ activations sys' = activations sys ++ [AwaitGetProperties]
     /\ requests (effects (state sys'))
        = requests (effects (state sys)) ++ [ReqSubscribe; ReqGetProperties]
     /\ fullSyncInProgress (state sys') = true)
  /\ (forall res, exists sys',
        run [ClientOpen;
             Settled (length (activations sys)) (Fulfilled (VRes res));
             Settled (length (activations sys)) (Rejected e)] sys
        = Some sys'
        /\ activations sys' = activations sys ++ [AwaitGetProperties]
        /\ requests (effects (state sys'))
           = requests (effects (state sys))
             ++ [ReqSubscribe; ReqSetBlockFilter (watchAddrs (state sys));
                 ReqGetProperties]
        /\ fullSyncInProgress (state sys') = true).
Proof.
  intros Hfl Hst.
  assert (Hl : forall pc : Pc (TxRawRow := TxRawRow),
             (activations sys ++ [pc]) !! length (activations sys) = Some pc)
    by (intros pc; by rewrite lookup_app_r, Nat.sub_diag).
  assert (Hins : forall pc pc' : Pc (TxRawRow := TxRawRow),
             <[length (activations sys) := pc']> (activations sys ++ [pc])
             = activations sys ++ [pc'])
    by (intros pc pc'; by rewrite insert_app_r_alt, Nat.sub_diag).
  destruct (startSync_connecting _ Hfl Hst) as (s1 & Hs1 & Hreq & Hfl1 & Hw1).
  split; [|intros res].
  - rewrite run_cons, step_open, Hs1. cbn [spawn mbind option_bind].
    rewrite run_cons.
    erewrite step_settled by (cbn [activations state]; first [apply Hl|reflexivity]).
    cbn [mbind option_bind run activations state].
    unfold startSync_catch, performFullSync. cbn [settle]. rewrite Hins.
    eexists. split; [reflexivity|]. simpl.
    rewrite !requests_app, Hreq. simpl. rewrite !app_nil_r, <- app_assoc.
    by rewrite Hfl1.
  - rewrite run_cons, step_open, Hs1. cbn [spawn mbind option_bind].
    rewrite run_cons.
    erewrite step_settled by (cbn [activations state]; first [apply Hl|reflexivity]).
    cbn [mbind option_bind activations state].
    unfold startSync_subscribed. cbn [settle]. rewrite Hins.
    rewrite run_cons.
    erewrite step_settled by (cbn [activations state]; first [apply Hl|reflexivity]).
    cbn [mbind option_bind run activations state].
    unfold startSync_catch, performFullSync. cbn [settle]. rewrite Hins.
    eexists. split; [reflexivity|]. simpl.
    rewrite !requests_app, Hreq, Hw1. simpl. rewrite !app_nil_r, <- !app_assoc.
    by rewrite Hfl1.
Qed.

(** *** The push handler and the range callback, run to their end *)

Lemma applier_effect_projections (es : list (Effect (TxRawRow := TxRawRow))) :
  Forall applier_effect es ->
  emitted es = [] /\ requests es = [] /\ heights es = []
  /\ persisted es = [] /\ ranges es = [].
Proof.
  induction 1 as [|e es He _ IH]; [done|]. by destruct e.
Qed.

Lemma applyBlock_height_trace h (u : option (list TxRawRow)) s :
  exists s1 es,
    applyBlock_height h u s = (s1, Return u)
    /\ currentHeight s1 = h /\ applier_frame s s1
    /\ effects s1 = effects s ++ es
    /\ Forall applier_effect es /\ inserted es = [].
Proof.
  unfold applyBlock_height. destruct (negb _).
  - eexists _, [_]. split; [reflexivity|]. simpl.
    repeat split; by repeat constructor.
  - exists (set_currentHeight h s), []. split; [reflexivity|]. simpl.
    rewrite app_nil_r. by repeat split.
Qed.

(** [applyBlock_txs_quiet] with the whole trace of the Block Applier. *)
Lemma applyBlock_txs_trace k h ws : forall acc s (rows : list TxRawRow) es ret,
  Forall (fun w => recognized (tx w)) ws ->
  length rows = length (filter (fun w => isMatch (watchAddrs s) w = true) ws) ->
  (forall u s1, ret u s1 = applyBlock_return k u s1) ->
  exists s1 new,
    run ((row_settled 0 <$> rows) ++ es)
        (spawn [] (continue (applyBlock_txs k h ws acc s) ret (applyBlock_throw k)))
    = run es (spawn [] (applyBlock_return k (collected acc rows) s1))
    /\ effects s1 = effects s ++ new
    /\ Forall applier_effect new
    /\ inserted new = filter (fun w => isMatch (watchAddrs s) w = true) ws
    /\ currentHeight s1 = h
    /\ applier_frame s s1.
Proof.
  induction ws as [|w ws IH]; intros acc s rows es ret Hrec Hlen Hret.
  - destruct rows; [|done]. cbn [applyBlock_txs fmap list_fmap app].
    destruct (applyBlock_height_trace h acc s) as (s1 & new & -> & Hh & Hf & He & Hn & Hi).
    exists s1, new. cbn [continue collected]. rewrite Hret.
    by rewrite filter_nil.
  - inversion Hrec as [|? ? Hw Hws]; subst.
    rewrite filter_cons in Hlen |- *.
    cbn [applyBlock_txs]. rewrite (txHasMatch_isMatch _ _ Hw).
    destruct (isMatch (watchAddrs s) w) eqn:Hm.
    + rewrite decide_True in Hlen |- * by done.
      destruct rows as [|row rows]; [done|]. simpl in Hlen.
      destruct (IH (Some (default [] acc ++ [row])) (effect (TxsInsert w) s)
                   rows es (applyBlock_return k))
        as (s1 & new & Hrun & He & Hn & Hi & Hh & Hf);
        [done|simpl; lia|done|].
      exists s1, (TxsInsert w :: new).
      cbn [continue fmap list_fmap app run].
      change (row_settled 0 row) with (Settled 0 (Fulfilled (VRow row))).
      rewrite step_settled_single.
      cbn [resume mbind option_bind option_ret mret]. unfold applyBlock_inserted.
      simpl in Hrun, Hi, He. rewrite Hrun. split; [|split; [|split; [|split; [|split]]]].
      * f_equal. f_equal. f_equal. unfold collected. simpl.
        destruct rows; [done|]. by rewrite <- app_assoc.
      * rewrite He. by rewrite <- app_assoc.
      * by constructor.
      * simpl. by rewrite Hi.
      * done.
      * eapply applier_frame_trans; [apply applier_frame_effect|done].
    + rewrite decide_False in Hlen |- * by congruence.
      by apply IH.
Qed.

(** X15: the push handler in status [Complete], its block made of
    recognized transactions and the environment answering every request:
    the matching transactions are inserted in order; when there is none,
    no balance is asked for and the update carries the status only; when
    there are some, one balance is asked per watched address and the
    update carries the rows and the sum; then the block's height is
    written, and the handler is done. *)
Theorem live_push_update (block : Block) s (rows : list TxRawRow)
    (balances : list Asset) :
  syncStatus s = Complete ->
  Forall (fun w => recognized (tx w)) (transactions block) ->
  length rows = length (matched (watchAddrs s) block) ->
  length balances = length (watchAddrs s) ->
  exists s',
    run ((row_settled 0 <$> rows) ++ push_answers rows balances)
        (spawn [] (subMsg (ResGetBlock block) s))
    = Some {| state := s'; activations := [] |}
    /\ emitted (effects s')
       = emitted (effects s) ++ [push_update Complete rows balances]
    /\ inserted (effects s')
       = inserted (effects s) ++ matched (watchAddrs s) block
    /\ requests (effects s')
       = requests (effects s)
         ++ match rows with
            | [] => []
            | _ => ReqGetAddressInfo <$> watchAddrs s
            end
    /\ heights (effects s') = heights (effects s) ++ [height block]
    /\ currentHeight s' = height block.
Proof.
  intros Hst Hrec Hlen Hbal. unfold subMsg. rewrite Hst.
  set (s0 := log (ReceivedBlockUpdate (height block)) s).
  change (subMsg_catch block)
    with (applyBlock_throw (TxRawRow := TxRawRow) (InPush block)).
  cbn [applyBlock].
  destruct (applyBlock_txs_trace (InPush block) (height block) (transactions block)
              None s0 rows (push_answers rows balances) (subMsg_applied block)
              Hrec Hlen) as (s1 & new & -> & He & Hn & Hi & Hh & Hf); [done|].
  destruct (applier_effect_projections new Hn) as (Hne & Hnr & Hnh & _).
  destruct Hf as (Hw1 & _ & Hst1 & _).
  change (syncStatus s0) with (syncStatus s) in Hst1.
  change (watchAddrs s0) with (watchAddrs s) in Hw1, Hi.
  rewrite Hst in Hst1. fold (matched (watchAddrs s) block) in Hi.
  assert (He1 : effects s1 = effects s ++ Log (ReceivedBlockUpdate (height block)) :: new)
    by (rewrite He; simpl; by rewrite <- app_assoc).
  cbn [applyBlock_return]. unfold subMsg_applied, push_answers, push_update.
  destruct rows as [|row rows]; cbn [collected default app].
  - unfold subMsg_emit. cbn [run].
    rewrite step_settled_single. cbn [resume mbind option_bind updateSyncHeight_return spawn].
    eexists. split; [reflexivity|].
    unfold updateSyncHeight, emitSyncUpdate, effect.
    cbn [effects set_effects currentHeight].
    rewrite He1, Hst1, Hh.
    rewrite !emitted_app, !inserted_app, !requests_app, !heights_app.
    cbn [emitted inserted requests heights]. rewrite Hne, Hnr, Hnh, Hi.
    rewrite !app_nil_r. done.
  - set (k := LivePush block (syncStatus s1) (row :: rows)).
    destruct (foldl_effect_frame (fun addr => SendReq (ReqGetAddressInfo addr))
                (watchAddrs s1) s1) as ((Hw2 & _) & Hh2 & He2).
    unfold updateTotalBalance.
    set (s2 := foldl _ s1 (watchAddrs s1)) in *.
    cbn [run]. rewrite step_settled_single. cbn [resume].
    rewrite decide_True by (rewrite length_fmap, Hw2, Hw1; exact Hbal).
    unfold updateTotalBalance_all. rewrite sumBalances_all_fulfilled.
    cbn [continue mbind option_bind].
    rewrite step_settled_single. cbn [resume mbind option_bind].
    subst k. cbn [updateTotalBalance_return]. unfold subMsg_emit.
    rewrite step_settled_single.
    cbn [resume mbind option_bind updateSyncHeight_return spawn].
    eexists. split; [reflexivity|].
    unfold updateSyncHeight, emitSyncUpdate, effect.
    cbn [effects set_effects currentHeight].
    rewrite He2, Hh2, He1, Hst1, Hh.
    rewrite !emitted_app, !inserted_app, !requests_app, !heights_app.
    cbn [emitted inserted requests heights]. rewrite Hne, Hnr, Hnh, Hi.
    destruct (others_fmap_SendReq ReqGetAddressInfo (watchAddrs s1))
      as (-> & -> & ->).
    rewrite requests_fmap_SendReq, Hw1. simpl.
    rewrite !app_nil_r. done.
Qed.


(** X17: a failure inside the range callback, of an insert or of a write
    of the height, is caught by nobody: it is reported as an unhandled
    rejection, the cycle stays suspended on the range with the rows it has
    collected, and nothing else changes; no retry is armed. *)
Theorem range_callback_failure_is_unhandled txs time pc e s :
  inRangeCallback txs time pc ->
  resume pc (Rejected e) s
  = Some (effect (UnhandledRejection e) s, Await (AwaitBlockRange txs time)).
Proof.
  destruct pc as [| | |txs' time'|[txs' time'|arr i txs' tb|block] h rest rows
                 |[txs' time'|txs' time' cur|txs' tb|block]|k|k tb];
    simpl; try done; by intros [-> ->].
Qed.

End Edges.

(** ** The instance of the module *)

Section InstanceFacts.
Import Instance.
Context `{G : Godcoin} {TxRawRow : Type}.
Implicit Types (g : Globals (TxRawRow := TxRawRow)).

Lemma new_currentHeight watch h unsigned isOpen now
    (sys : System (TxRawRow := TxRawRow)) :
  new watch h unsigned isOpen now = Ok sys -> currentHeight (state sys) = h.
Proof.
  unfold new. destruct unsigned; [|done]. simpl.
  destruct isOpen; intros [= <-]; [|done].
  set (s0 := mkState _ _ _ _ _ _ _ _ _ _ _).
  destruct (startSync_idle s0 eq_refl) as (s' & pc & Hs & _ & _ & _ & _ & Hh & _).
  change (currentHeight (state (spawn [] (startSync s0))) = h).
  rewrite Hs. exact Hh.
Qed.

(** X18: [initSynchronizer] passes its guard exactly when there is a
    client and no instance, and it looks at [instance] before it waits for
    the stored height only: once the height has arrived, a height that is
    unsigned, or none (then the height is 0), gives a synchronizer at that
    height that is assigned to [instance] whatever [instance] holds by
    then, so that of two calls in flight the second replaces the
    synchronizer of the first; a signed height makes the constructor
    throw and leaves [instance] alone. *)
Theorem initSynchronizer_checks_before_it_waits watch stored isOpen now g :
  (initSynchronizer g = Returns tt <-> client g = true /\ instance g = None)
  /\ match stored with
     | Some (h, false) =>
         initSynchronizer_stored watch stored isOpen now g
         = (g, Throws (OfConstructor MustBeUnsigned))
     | _ =>
         exists synchronizer,
           new watch (default 0 (fst <$> stored)) true isOpen now
           = Ok synchronizer
           /\ initSynchronizer_stored watch stored isOpen now g
              = ({| instance := Some synchronizer; client := client g |},
                 Returns tt)
           /\ getSynchronizer {| instance := Some synchronizer;
                                 client := client g |}
              = Returns synchronizer
           /\ currentHeight (state synchronizer) = default 0 (fst <$> stored)
     end.
Proof.
  split.
  - unfold initSynchronizer.
    destruct (client g), (instance g); simpl; split; try done; by intros [? ?].
  - assert (Hok : forall h, exists synchronizer : System (TxRawRow := TxRawRow),
               new watch h true isOpen now = Ok synchronizer).
    { intros h. unfold new. cbn [negb]. eauto. }
    destruct stored as [[h [|]]|]; cbn [default fmap option_fmap option_map fst].
    + destruct (Hok h) as [synchronizer Hnew]. exists synchronizer.
      unfold initSynchronizer_stored. cbn [fst snd]. rewrite Hnew.
      split; [done|]. split; [done|]. split; [done|].
      by apply new_currentHeight in Hnew.
    + done.
    + destruct (Hok 0) as [synchronizer Hnew]. exists synchronizer.
      unfold initSynchronizer_stored. cbn [fst snd]. rewrite Hnew.
      split; [done|]. split; [done|]. split; [done|].
      by apply new_currentHeight in Hnew.
Qed.

End InstanceFacts.

(** ** The transport is lost and comes back while a cycle waits *)

Section ReconnectScenes.
Import Example Reconnect.
Existing Instance Toy.

(** C3, on the run that breaks it: the wallet is constructed on an open
    client and its cycle waits for the store to insert the transfer of a
    buffered block; the transport is lost, which clears the in-progress
    flag under the suspended cycle, and opens again, which starts a second
    cycle: two are in flight, the flag set.  When the store then fails the
    insert, the first cycle arms its retry timer and clears the flag under
    the second cycle, and the timer that fires starts a third cycle beside
    the second. *)
Theorem reconnect_overlaps :
  new [A; B] 5 true true 1000 = Ok opened
  /\ (catchUps <$> run first_cycle opened)
     = Some [AwaitInsert (InDrain 0%nat 0 [] 7) 6 [] []]
  /\ (catchUps <$> run (first_cycle ++ reconnect) opened)
     = Some [AwaitInsert (InDrain 0%nat 0 [] 7) 6 [] []; AwaitSubscribe]
  /\ (fullSyncInProgress ∘ state <$> run (first_cycle ++ reconnect) opened)
     = Some true
  /\ (timers ∘ state
        <$> run (first_cycle ++ reconnect
                 ++ [Settled 0 (Rejected (External "disk full"))]) opened)
     = Some [0%nat]
  /\ (catchUps
        <$> run (first_cycle ++ reconnect
                 ++ [Settled 0 (Rejected (External "disk full"))]) opened)
     = Some [AwaitSubscribe]
  /\ (catchUps
        <$> run (first_cycle ++ reconnect
                 ++ [Settled 0 (Rejected (External "disk full"));
                     Timeout 0%nat]) opened)
     = Some [AwaitSubscribe; AwaitGetProperties].
Proof. repeat split; vm_compute; reflexivity. Qed.

(** C4, on the run that breaks it: the block 6 is buffered during the
    first cycle, whose drain asks for the insert of its transfer and
    waits; after the transport has been lost and has opened again the
    second cycle drains the same array, which nobody has emptied, finds
    the block above the height and asks for the same insert: the transfer
    is inserted twice and each cycle reports a row for it. *)
Theorem reconnect_applies_block_twice :
  (array 0%nat ∘ state <$> run (first_cycle ++ reconnect ++ second_cycle) opened)
  = Some [block 6 [transfer A B]]
  /\ (activations <$> run (first_cycle ++ reconnect ++ second_cycle) opened)
     = Some [AwaitInsert (InDrain 0%nat 0 [] 7) 6 [] [];
             AwaitInsert (InDrain 0%nat 0 [] 7) 6 [] []]
  /\ (inserted ∘ effects ∘ state
        <$> run (first_cycle ++ reconnect ++ second_cycle) opened)
     = Some [transfer A B; transfer A B]
  /\ ((fun sys => newData <$> drop 3 (emitted (effects (state sys))))
        <$> run (first_cycle ++ reconnect ++ second_cycle ++ both_inserted
                 ++ [Settled 0 (Fulfilled VUnit); Settled 0 (Fulfilled VUnit)])
                opened)
     = Some [Some {| totalBalance := "7"; txs := [51%nat] |};
             Some {| totalBalance := "7"; txs := [52%nat] |}].
Proof. repeat split; vm_compute; reflexivity. Qed.

(** C9, on the run that breaks it: the two cycles of the run above fail
    one after the other, each arms a retry timer and the second handle
    replaces the first, whose timer stays armed; the close handler cancels
    the timer it holds, the other one is still armed, and when it fires it
    starts a cycle on the lost transport. *)
Theorem close_leaves_retry_timer_armed :
  ((fun sys => (timers (state sys), fullSyncRetryTimer (state sys)))
     <$> run (first_cycle ++ reconnect ++ second_cycle ++ both_rejected) opened)
  = Some ([0%nat; 1%nat], Some 1%nat)
  /\ ((fun sys => (timers (state sys), fullSyncRetryTimer (state sys),
                   syncStatus (state sys), activations sys))
        <$> run (first_cycle ++ reconnect ++ second_cycle ++ both_rejected
                 ++ [ClientClose]) opened)
     = Some ([0%nat], None, Connecting, [])
  /\ ((fun sys => (activations sys, syncStatus (state sys),
                   last (requests (effects (state sys)))))
        <$> run (first_cycle ++ reconnect ++ second_cycle ++ both_rejected
                 ++ [ClientClose; Timeout 0%nat]) opened)
     = Some ([AwaitSubscribe], InProgress, Some ReqSubscribe).
Proof. repeat split; vm_compute; reflexivity. Qed.

(** The drain compares before the insert and assigns after it: a push
    handler that was still running assigns the height 10 in between, and
    the drain then takes the height down to 7, in a run in which the
    transport is never lost. *)
Lemma running_push_lets_drain_lower_height :
  ((fun n => currentHeight ∘ state <$> run (take n Overtake.events) opened)
     <$> [12; 13; 14]%nat)
  = [Some 5; Some 10; Some 7].
Proof. vm_compute. reflexivity. Qed.

End ReconnectScenes.

(** ** The settings store *)

Section SettingsFacts.
Import Settings.
Context `{Sod : Crypto.Sodium} `{E : Env}.
Implicit Types (w : World) (fs : Fs) (data : Bytes).

(** *** The three paths are different *)

Lemma string_app_nil_r (s : string) : (s ++ "")%string = s.
Proof.
  induction s as [|c s IH]; [done|].
  change (String c (s ++ "") = String c s)%string. by rewrite IH.
Qed.

Lemma primary_ne_backup : primary settingsLoc ≠ backup settingsLoc.
Proof.
  unfold settingsLoc. cbn [primary backup]. intros H.
  rewrite <- (string_app_nil_r (path_join userData "settings.dat")) in H at 1.
  by apply (inj (String.app _)) in H.
Qed.

(** A number in decimal is not the word [bak]. *)
Lemma pretty_N_go_ne_bak x s : s ≠ "bak"%string -> pretty_N_go x s ≠ "bak"%string.
Proof.
  revert s. induction (N.lt_wf_0 x) as [x _ IH]; intros s Hs.
  assert (x = 0 \/ 0 < x)%N as [->|Hx] by lia.
  - by rewrite pretty_N_go_0.
  - rewrite pretty_N_go_step by done. apply IH.
    { by apply N.div_lt. }
    unfold pretty_N_char. by repeat case_match.
Qed.

Lemma pretty_Z_ne_bak (z : Z) : pretty z ≠ "bak"%string.
Proof.
  destruct z as [|p|p]; [done| |done].
  unfold pretty, pretty_Z, pretty, pretty_positive, pretty, pretty_N.
  destruct (decide _); [done|]. by apply pretty_N_go_ne_bak.
Qed.

Lemma newLoc_ne_primary (now : Z) :
  (primary settingsLoc ++ "." ++ pretty now)%string ≠ primary settingsLoc.
Proof.
  intros H.
  rewrite <- (string_app_nil_r (primary settingsLoc)) in H at 2.
  by apply (inj (String.app _)) in H.
Qed.

Lemma newLoc_ne_backup (now : Z) :
  (primary settingsLoc ++ "." ++ pretty now)%string ≠ backup settingsLoc.
Proof.
  unfold settingsLoc. cbn [primary backup]. intros H.
  apply (inj (String.app _)) in H. injection H as H.
  by apply pretty_Z_ne_bak in H.
Qed.

(** *** The statements of [save] *)

Lemma remove_backup_eval w :
  remove_backup w
  = ({| files := delete (backup settingsLoc) (files w); logged := logged w |},
     Returns tt).
Proof.
  unfold remove_backup, bind, existsSync.
  destruct (files w !! backup settingsLoc) as [d|] eqn:Hb.
  - rewrite bool_decide_true by eauto. unfold unlinkSync. by rewrite Hb.
  - rewrite bool_decide_false by (by intros [? ?]). unfold ret.
    rewrite delete_id by done. by destruct w.
Qed.

Lemma move_to_backup_eval w :
  move_to_backup w
  = (match files w !! primary settingsLoc with
     | Some d => {| files := <[backup settingsLoc := d]>
                               (delete (primary settingsLoc) (files w));
                    logged := logged w |}
     | None => w
     end, Returns tt).
Proof.
  unfold move_to_backup, bind, existsSync.
  destruct (files w !! primary settingsLoc) as [d|] eqn:Hp.
  - rewrite bool_decide_true by eauto. unfold renameSync. by rewrite Hp.
  - by rewrite bool_decide_false by (by intros [? ?]).
Qed.

Lemma sequence_cons (m : M unit) ms w :
  sequence (m :: ms) w
  = match m w with
    | (w', Returns _) => sequence ms w'
    | (w', Throws e) => (w', Throws e)
    end.
Proof. reflexivity. Qed.

(** The files after the statements of [save]. *)
Lemma save_statements_eval data w :
  sequence (save_statements data) w
  = ({| files := <[primary settingsLoc := data]>
                   (delete (backup settingsLoc) (files w));
        logged := logged w |}, Returns tt).
Proof.
  pose proof primary_ne_backup as Hne.
  unfold save_statements.
  rewrite sequence_cons, remove_backup_eval.
  rewrite sequence_cons, move_to_backup_eval. cbn [files logged].
  rewrite lookup_delete_ne by done.
  destruct (files w !! primary settingsLoc) as [d|] eqn:Hp;
    rewrite sequence_cons; unfold write_settings, writeFileSync at 1;
    cbn [files logged]; rewrite sequence_cons, remove_backup_eval;
    cbn [files logged sequence]; unfold ret;
    match goal with
    | |- ({| files := ?a; logged := _ |}, _) = ({| files := ?b; logged := _ |}, _) =>
        replace a with b; [done|]
    end;
    apply map_eq; intros p;
    (destruct (decide (p = primary settingsLoc)) as [->|Hp1];
     [|destruct (decide (p = backup settingsLoc)) as [->|Hp2]]);
    by simplify_map_eq.
Qed.

Lemma save_writes_primary_only_aux this password nonce w :
  match serializeEnc this password nonce with
  | Returns data =>
      save this password nonce w
      = ({| files := <[primary settingsLoc := data]>
                       (delete (backup settingsLoc) (files w));
            logged := logged w |}, Returns tt)
  | Throws e => save this password nonce w = (w, Throws e)
  end.
Proof.
  unfold save, bind, of_res at 1.
  destruct (serializeEnc this password nonce) as [data|e] eqn:Hser; [|done].
  apply save_statements_eval.
Qed.

(** X19: [save] replaces the primary file by the new settings, under the
    password, and leaves no backup; the other files and the log are as
    they were.  When the settings cannot be serialized, because their key
    has been zeroed or the digest of the password is not a key, nothing is
    touched. *)
Theorem save_writes_primary_only this password nonce w :
  match serializeEnc this password nonce with
  | Returns data =>
      save this password nonce w
      = ({| files := <[primary settingsLoc := data]>
                       (delete (backup settingsLoc) (files w));
            logged := logged w |}, Returns tt)
  | Throws e =>
      save this password nonce w = (w, Throws e)
      /\ (Crypto.key (secretKey this) = None
          \/ length (sha256 password) ≠ Crypto.crypto_secretbox_KEYBYTES)
  end.
Proof.
  unfold save, bind, of_res at 1.
  destruct (serializeEnc this password nonce) as [data|e] eqn:Hser.
  - apply save_statements_eval.
  - split; [done|]. unfold serializeEnc, fromString, Crypto.key_bytes,
      Crypto.new, Crypto.encrypt in Hser.
    destruct (Crypto.key (secretKey this)) as [k|]; [|by left]. right.
    simpl in Hser. destruct (decide _) as [|Hn]; [|done]. done.
Qed.

(** *** [load] *)

Lemma existsSync_eval path w :
  existsSync path w = (w, Returns (bool_decide (is_Some (files w !! path)))).
Proof. reflexivity. Qed.

Lemma deserializeEnc_eval loc password w :
  deserializeEnc loc password w
  = (w, match files w !! loc with
        | Some fileData => deserialize fileData password
        | None => Throws (ENOENT loc)
        end).
Proof.
  unfold deserializeEnc, bind, readFileSync, of_res.
  by destruct (files w !! loc).
Qed.

Lemma renameSync_eval oldPath newPath d w :
  files w !! oldPath = Some d ->
  renameSync oldPath newPath w
  = ({| files := <[newPath := d]> (delete oldPath (files w));
        logged := logged w |}, Returns tt).
Proof. unfold renameSync. by intros ->. Qed.

(** [load] by cases on the two files and on what they hold. *)
Lemma load_eval password now w :
  load password now w
  = match files w !! primary settingsLoc, files w !! backup settingsLoc with
    | Some dp, ob =>
        match deserialize dp password with
        | Returns settings => (w, Returns settings)
        | Throws e =>
            match ob with
            | None =>
                ({| files := files w;
                    logged := logged w ++ [FailedToReadPrimary e] |}, Throws e)
            | Some db =>
                match deserialize db password with
                | Returns settings =>
                    let newLoc :=
                      (primary settingsLoc ++ "." ++ pretty now)%string in
                    ({| files :=
                          <[primary settingsLoc := db]>
                            (delete (backup settingsLoc)
                               (<[newLoc := dp]>
                                  (delete (primary settingsLoc) (files w))));
                        logged :=
                          logged w ++ [FailedToReadPrimary e; RecoveredFromBackup;
                                       MovedCorrupt newLoc] |},
                     Returns settings)
                | Throws e' =>
                    ({| files := files w;
                        logged := logged w ++ [FailedToReadPrimary e;
                                               FailedToReadBackup e'] |},
                     Throws e')
                end
            end
        end
    | None, Some db =>
        match deserialize db password with
        | Returns settings =>
            ({| files := <[primary settingsLoc := db]>
                           (delete (backup settingsLoc) (files w));
                logged := logged w ++ [RecoveredFromBackup] |},
             Returns settings)
        | Throws e' =>
            ({| files := files w;
                logged := logged w ++ [FailedToReadBackup e'] |}, Throws e')
        end
    | None, None =>
        ({| files := files w; logged := logged w ++ [NoMoreStores] |},
         Throws NoAvailableSettings)
    end.
Proof.
  pose proof primary_ne_backup as Hne.
  pose proof (newLoc_ne_primary now) as Hn1.
  pose proof (newLoc_ne_backup now) as Hn2.
  unfold load. unfold bind at 1. rewrite existsSync_eval.
  unfold bind at 1. rewrite existsSync_eval.
  destruct (files w !! primary settingsLoc) as [dp|] eqn:Hp;
    destruct (files w !! backup settingsLoc) as [db|] eqn:Hb.
  - rewrite !bool_decide_true by eauto.
    unfold bind at 1, catch at 1, bind at 1. rewrite deserializeEnc_eval, Hp.
    destruct (deserialize dp password) as [settings|e]; [done|].
    unfold bind at 1, log at 1. cbn [negb]. unfold ret at 1.
    unfold catch, load_backup. unfold bind at 1.
    rewrite deserializeEnc_eval. cbn [files]. rewrite Hb.
    destruct (deserialize db password) as [settings|e'].
    + unfold bind at 1, log at 1. unfold bind at 1, bind at 1.
      rewrite (renameSync_eval _ _ dp) by done. unfold log at 1. cbn [files logged].
      unfold bind at 1.
      rewrite (renameSync_eval _ _ db) by (cbn [files]; by simplify_map_eq).
      unfold ret. cbn [files logged]. by rewrite <- !app_assoc.
    + unfold bind, log, throw. cbn [files logged]. by rewrite <- !app_assoc.
  - rewrite bool_decide_true by eauto.
    rewrite bool_decide_false by (by intros [? ?]).
    unfold bind at 1, catch at 1, bind at 1. rewrite deserializeEnc_eval, Hp.
    by destruct (deserialize dp password) as [settings|e].
  - rewrite bool_decide_false by (by intros [? ?]).
    rewrite bool_decide_true by eauto.
    unfold bind at 1, ret at 1.
    unfold catch, load_backup. unfold bind at 1.
    rewrite deserializeEnc_eval, Hb.
    destruct (deserialize db password) as [settings|e'].
    + unfold bind at 1, log at 1. unfold bind at 1, ret at 1.
      unfold bind at 1.
      rewrite (renameSync_eval _ _ db) by done.
      unfold ret. by cbn [files logged].
    + by unfold bind, log, throw.
  - rewrite !bool_decide_false by (by intros [? ?]).
    by unfold bind, ret, log, throw.
Qed.

(** The errors of [deserialize] are those of its own steps. *)
Lemma deserialize_error fileData password e :
  deserialize fileData password = Throws e -> e ≠ NoAvailableSettings.
Proof.
  unfold deserialize, readUInt16BE, of_secretKey, of_try.
  repeat case_match; intros [= <-]; simplify_eq; done.
Qed.

(** X20: a [load] that returns leaves the primary file holding the bytes
    the settings were read from: either it read them from the primary
    file and touched nothing, or the primary file was missing or
    unreadable, it read them from the backup, moved the unreadable file
    aside and put the backup in its place; a [load] after it returns the
    same settings and touches nothing. *)
Theorem load_leaves_readable_primary password now w w' settings :
  load password now w = (w', Returns settings) ->
  (exists d,
     files w' !! primary settingsLoc = Some d
     /\ deserialize d password = Returns settings
     /\ ((files w !! primary settingsLoc = Some d /\ w' = w)
         \/ (files w !! backup settingsLoc = Some d
             /\ files w' !! backup settingsLoc = None
             /\ forall dp,
                  files w !! primary settingsLoc = Some dp ->
                  files w' !! (primary settingsLoc ++ "." ++ pretty now)%string
                  = Some dp
                  /\ exists e, deserialize dp password = Throws e)))
  /\ forall now', load password now' w' = (w', Returns settings).
Proof.
  pose proof primary_ne_backup as Hne.
  pose proof (newLoc_ne_primary now) as Hn1.
  pose proof (newLoc_ne_backup now) as Hn2.
  intros Hload.
  assert (Hd : exists d,
     files w' !! primary settingsLoc = Some d
     /\ deserialize d password = Returns settings
     /\ ((files w !! primary settingsLoc = Some d /\ w' = w)
         \/ (files w !! backup settingsLoc = Some d
             /\ files w' !! backup settingsLoc = None
             /\ forall dp,
                  files w !! primary settingsLoc = Some dp ->
                  files w' !! (primary settingsLoc ++ "." ++ pretty now)%string
                  = Some dp
                  /\ exists e, deserialize dp password = Throws e))).
  { rewrite load_eval in Hload.
    destruct (files w !! primary settingsLoc) as [dp|] eqn:Hp;
      destruct (files w !! backup settingsLoc) as [db|] eqn:Hb.
    - destruct (deserialize dp password) as [s0|e] eqn:Hdp.
      + injection Hload as <- <-. exists dp. eauto.
      + destruct (deserialize db password) as [s1|e'] eqn:Hdb; [|done].
        injection Hload as <- <-. exists db. cbn [files].
        split; [by simplify_map_eq|]. split; [done|]. right.
        split; [done|]. split; [by simplify_map_eq|].
        intros ? [= <-]. split; [by simplify_map_eq|eauto].
    - destruct (deserialize dp password) as [s0|e] eqn:Hdp; [|done].
      injection Hload as <- <-. exists dp. eauto.
    - destruct (deserialize db password) as [s1|e'] eqn:Hdb; [|done].
      injection Hload as <- <-. exists db. cbn [files].
      split; [by simplify_map_eq|]. split; [done|]. right.
      split; [done|]. split; [by simplify_map_eq|]. done.
    - done. }
  split; [exact Hd|]. intros now'.
  destruct Hd as (d & Hp' & Hdes & _).
  rewrite load_eval, Hp', Hdes. done.
Qed.

(** X21: a [load] that throws has changed no file.  It throws
    [NoAvailableSettings] exactly when neither file exists; otherwise it
    throws what reading the backup threw when there is a backup, and what
    reading the primary file threw when there is none. *)
Theorem load_failure_changes_no_file password now w w' e :
  load password now w = (w', Throws e) ->
  files w' = files w
  /\ (e = NoAvailableSettings
      <-> files w !! primary settingsLoc = None
          /\ files w !! backup settingsLoc = None)
  /\ (forall db, files w !! backup settingsLoc = Some db ->
        deserialize db password = Throws e)
  /\ (forall dp, files w !! primary settingsLoc = Some dp ->
        files w !! backup settingsLoc = None ->
        deserialize dp password = Throws e).
Proof.
  rewrite load_eval.
  destruct (files w !! primary settingsLoc) as [dp|] eqn:Hp;
    destruct (files w !! backup settingsLoc) as [db|] eqn:Hb.
  - destruct (deserialize dp password) as [s0|e0] eqn:Hdp; [done|].
    destruct (deserialize db password) as [s1|e'] eqn:Hdb; [done|].
    intros [= <- <-]. split; [done|]. split; [|split].
    + split; [|by intros [? ?]]. intros ->. by apply deserialize_error in Hdb.
    + by intros ? [= <-].
    + done.
  - destruct (deserialize dp password) as [s0|e0] eqn:Hdp; [done|].
    intros [= <- <-]. split; [done|]. split; [|split].
    + split; [|by intros [? ?]]. intros ->. by apply deserialize_error in Hdp.
    + done.
    + by intros ? [= <-] _.
  - destruct (deserialize db password) as [s1|e'] eqn:Hdb; [done|].
    intros [= <- <-]. split; [done|]. split; [|split].
    + split; [|by intros [? ?]]. intros ->. by apply deserialize_error in Hdb.
    + by intros ? [= <-].
    + done.
  - intros [= <- <-]. by repeat split.
Qed.

(** X22: [exists] reads the two paths and changes nothing; it answers
    [false] exactly when [load] would throw [NoAvailableSettings]. *)
Theorem exists_iff_load_finds_a_store password now w :
  exists b,
    exists_ w = (w, Returns b)
    /\ (b = false <-> (load password now w).2 = Throws NoAvailableSettings).
Proof.
  unfold exists_, bind. rewrite existsSync_eval, load_eval.
  destruct (files w !! primary settingsLoc) as [dp|] eqn:Hp.
  - rewrite bool_decide_true by eauto. exists true. split; [done|].
    split; [done|]. intros Hl. exfalso.
    destruct (deserialize dp password) as [s0|e0] eqn:Hdp; [done|].
    destruct (files w !! backup settingsLoc) as [db|].
    + destruct (deserialize db password) as [s1|e'] eqn:Hdb; [done|].
      injection Hl as ->. by apply deserialize_error in Hdb.
    + injection Hl as ->. by apply deserialize_error in Hdp.
  - rewrite bool_decide_false by (by intros [? ?]). rewrite existsSync_eval.
    destruct (files w !! backup settingsLoc) as [db|] eqn:Hb.
    + rewrite bool_decide_true by eauto. exists true. split; [done|].
      split; [done|]. intros Hl. exfalso.
      destruct (deserialize db password) as [s1|e'] eqn:Hdb; [done|].
      injection Hl as ->. by apply deserialize_error in Hdb.
    + rewrite bool_decide_false by (by intros [? ?]). exists false. done.
Qed.

(** X23: [save] interrupted between two of its statements, on files
    whose primary holds settings that can be read: up to the write of the
    new file, [load] returns the old settings, from the primary file or
    from the backup; from the write on, it returns the new ones. *)
Theorem interrupted_save_is_recoverable data old password password' now w
    s_old s_new (n : nat) :
  files w !! primary settingsLoc = Some old ->
  deserialize old password = Returns s_old ->
  deserialize data password' = Returns s_new ->
  exists w_n,
    sequence (take n (save_statements data)) w = (w_n, Returns tt)
    /\ ((n < 3)%nat -> (load password now w_n).2 = Returns s_old)
    /\ ((3 <= n)%nat -> (load password' now w_n).2 = Returns s_new).
Proof.
  pose proof primary_ne_backup as Hne.
  intros Hp Hold Hnew.
  destruct n as [|[|[|[|n]]]].
  - exists w. split; [done|]. split; [|lia]. intros _.
    by rewrite load_eval, Hp, Hold.
  - eexists. split.
    { cbn [take save_statements]. rewrite sequence_cons, remove_backup_eval.
      reflexivity. }
    split; [|lia]. intros _. rewrite load_eval. cbn [files].
    rewrite lookup_delete_ne, Hp, Hold by done. done.
  - eexists. split.
    { cbn [take save_statements]. rewrite sequence_cons, remove_backup_eval.
      rewrite sequence_cons, move_to_backup_eval. cbn [files logged].
      rewrite lookup_delete_ne, Hp by done. reflexivity. }
    split; [|lia]. intros _. rewrite load_eval. cbn [files].
    rewrite lookup_insert_ne, lookup_delete_eq, lookup_insert_eq, Hold by done.
    done.
  - eexists. split.
    { cbn [take save_statements]. rewrite sequence_cons, remove_backup_eval.
      rewrite sequence_cons, move_to_backup_eval. cbn [files logged].
      rewrite lookup_delete_ne, Hp by done.
      rewrite sequence_cons. unfold write_settings, writeFileSync.
      reflexivity. }
    split; [lia|]. intros _. rewrite load_eval. cbn [files].
    rewrite lookup_insert_eq, Hnew. done.
  - eexists. split.
    { rewrite take_ge by (simpl; lia). apply save_statements_eval. }
    split; [lia|]. intros _. rewrite load_eval. cbn [files].
    rewrite lookup_insert_eq, Hnew. done.
Qed.

(** X24: a primary file of the current version whose box libsodium
    refuses to open under the digest of the password, and no backup:
    [load] logs and throws a [DecryptError] with libsodium's message,
    of type [INCORRECT_PASSWORD] when the message is the one of a wrong
    key, and changes no file. *)
Theorem load_wrong_password password now w nonce box msg :
  length (sha256 password) = Crypto.crypto_secretbox_KEYBYTES ->
  length nonce = Crypto.crypto_secretbox_NONCEBYTES ->
  box ≠ [] ->
  files w !! primary settingsLoc
  = Some (writeUInt16BE CRYPTO_VERSION ++ nonce ++ box) ->
  files w !! backup settingsLoc = None ->
  Crypto.crypto_secretbox_open_easy box nonce (sha256 password)
  = Crypto.Fails msg ->
  load password now w
  = ({| files := files w;
        logged := logged w
                  ++ [FailedToReadPrimary
                        (OfSecretKey (Crypto.new_DecryptError msg))] |},
     Throws (OfSecretKey (Crypto.new_DecryptError msg)))
  /\ (msg = "wrong secret key for the given ciphertext"%string ->
      Crypto.new_DecryptError msg
      = Crypto.DecryptError Crypto.INCORRECT_PASSWORD msg).
Proof.
  intros Hsha Hn Hbox Hp Hb Hopen. split.
  - rewrite load_eval. unfold Bytes in *. rewrite Hp, Hb.
    unfold deserialize.
    change (readUInt16BE (writeUInt16BE CRYPTO_VERSION ++ nonce ++ box))
      with (Returns (A := Z) 1).
    cbn [Z.eqb Pos.eqb].
    unfold fromString, Crypto.new. rewrite decide_True by done.
    cbn [of_secretKey].
    change (drop 2 (writeUInt16BE CRYPTO_VERSION ++ nonce ++ box))
      with (nonce ++ box).
    unfold Crypto.decrypt. cbn [Crypto.key].
    rewrite decide_True
      by (rewrite length_app; destruct box; [done|simpl; lia]).
    rewrite <- Hn, take_app_length, drop_app_length, Hopen. done.
  - by intros ->.
Qed.

End SettingsFacts.

Section SettingsRoundTrip.
Import Settings.
Context `{Sod : Crypto.Sodium} `{E : Env}.

(** The contract of libsodium's secretbox, as for [SecretKey]; the digest
    of SHA-256 has the length of a key; and the text [serializeEnc] makes
    of a key and a key pair is read back as that key and that pair. *)
Hypothesis open_easy : forall m n k,
  length n = Crypto.crypto_secretbox_NONCEBYTES ->
  length k = Crypto.crypto_secretbox_KEYBYTES ->
  Crypto.crypto_secretbox_open_easy (Crypto.crypto_secretbox_easy m n k) n k
  = Crypto.Opens m.
Hypothesis easy_length : forall m n k,
  length (Crypto.crypto_secretbox_easy m n k)
  = (length m + Crypto.crypto_secretbox_MACBYTES)%nat.
Hypothesis MACBYTES_pos : (0 < Crypto.crypto_secretbox_MACBYTES)%nat.
Hypothesis sha256_length : forall password,
  length (sha256 password) = Crypto.crypto_secretbox_KEYBYTES.
Hypothesis decode_encode : forall key kp,
  length key = Crypto.crypto_secretbox_KEYBYTES ->
  decode_secretKey (encode key kp) = Gives key
  /\ decode_keyPair (encode key kp) = Gives kp.

Lemma readUInt16BE_version rest :
  readUInt16BE (writeUInt16BE CRYPTO_VERSION ++ rest) = Returns 1.
Proof. reflexivity. Qed.

Lemma deserialize_serializeEnc this password nonce k :
  Crypto.key (secretKey this) = Some k ->
  length k = Crypto.crypto_secretbox_KEYBYTES ->
  length nonce = Crypto.crypto_secretbox_NONCEBYTES ->
  exists data,
    serializeEnc this password nonce = Returns data
    /\ deserialize data password = Returns this.
Proof.
  destruct this as [[ok] kp]. cbn [secretKey Crypto.key]. intros -> Hk Hn.
  unfold serializeEnc, fromString, Crypto.key_bytes, Crypto.new, Crypto.encrypt.
  cbn [secretKey keyPair Crypto.key of_secretKey].
  rewrite decide_True by apply sha256_length. cbn [of_secretKey Crypto.key].
  eexists. split; [reflexivity|].
  unfold deserialize. rewrite readUInt16BE_version. cbn [Z.eqb Pos.eqb].
  unfold fromString, Crypto.new. rewrite decide_True by apply sha256_length.
  cbn [of_secretKey]. change (drop 2 (writeUInt16BE CRYPTO_VERSION ++ ?x)) with x.
  unfold Crypto.decrypt. cbn [Crypto.key].
  rewrite decide_True by (rewrite length_app, easy_length; lia).
  rewrite <- Hn, take_app_length, drop_app_length.
  rewrite open_easy by (done || apply sha256_length).
  cbn [of_secretKey]. destruct (decode_encode k kp Hk) as [-> ->]. cbn [of_try].
  rewrite decide_True by done. done.
Qed.

(** X25: settings whose key has not been zeroed, saved under a password
    and loaded under the same password, are read back as they were, from
    the primary file, and the load changes nothing. *)
Theorem load_after_save this password nonce now w k :
  Crypto.key (secretKey this) = Some k ->
  length k = Crypto.crypto_secretbox_KEYBYTES ->
  length nonce = Crypto.crypto_secretbox_NONCEBYTES ->
  exists w',
    save this password nonce w = (w', Returns tt)
    /\ load password now w' = (w', Returns this).
Proof.
  intros Hk Hlen Hn.
  destruct (deserialize_serializeEnc this password nonce k Hk Hlen Hn)
    as (data & Hser & Hdes).
  pose proof (save_writes_primary_only_aux this password nonce w) as Hsave.
  rewrite Hser in Hsave. eexists. split; [exact Hsave|].
  rewrite load_eval. cbn [files]. rewrite lookup_insert_eq, Hdes. done.
Qed.

End SettingsRoundTrip.

(** ** The statements above on the scenes *)

Section MoreScenes.
Import Example.
Existing Instance Toy.




Lemma run_catchUp_with_pushes :
  run catchUp_with_pushes opened = Some Outage.caught_up.
Proof. vm_compute. reflexivity. Qed.



(** The watch set after a whole cycle with pushes. *)
Lemma watch_set_is_fixed_witness :
  watchAddrs (state Outage.caught_up) = [A; B].
Proof.
  exact (watch_set_is_fixed [A; B] 5 true true 1000 catchUp_with_pushes
           opened Outage.caught_up eq_refl run_catchUp_with_pushes).
Defined.

(** A block pushed right after the open waits in the queue. *)
Lemma pushes_buffered_until_complete_witness :
  exists s',
    step (SubMsg (ResGetBlock (block 6 [transfer B A]))) opened
    = Some {| state := s'; activations := activations opened |}
    /\ array (pendingBlocks s') s' = [block 6 [transfer B A]].
Proof.
  destruct (proj1 (pushes_buffered_until_complete [A; B] 5 true true 1000 []
                     opened opened (block 6 [transfer B A]) eq_refl eq_refl))
    as (s' & Hstep & _ & Ha & _); [discriminate|].
  exists s'. split; [exact Hstep|exact Ha].
Defined.


(** The inserts of a whole cycle with pushes. *)
Lemma inserts_only_matching_witness :
  Forall (fun w => matching_rule [A; B] (tx w))
         (inserted (effects (state Outage.caught_up))).
Proof.
  exact (inserts_only_matching [A; B] 5 true true 1000 catchUp_with_pushes
           opened Outage.caught_up eq_refl run_catchUp_with_pushes).
Defined.

(** At height 5 with the chain at 9, the range is 6 to 9. *)
Lemma range_from_next_height_witness :
  exists s',
    performFullSync_properties (ResGetProperties 9) (at_height 5 InProgress [])
    = (s', Await (AwaitBlockRange [] 1000))
    /\ ranges (effects s') = [(6, 9)].
Proof.
  destruct (proj1 (range_from_next_height 9 (at_height 5 InProgress [])
                     ltac:(simpl; lia) ltac:(unfold Long.modulus; lia)))
    as (s' & Hs & Hr & _); [simpl; lia|].
  exists s'. split; [exact Hs|exact Hr].
Defined.




(** The node refuses the subscription of the first cycle. *)
Lemma failed_subscription_does_not_stop_cycle_witness :
  exists sys',
    run [ClientOpen; Settled 0 (Rejected (External "refused"))] closed
    = Some sys'
    /\ activations sys' = [AwaitGetProperties]
    /\ requests (effects (state sys')) = [ReqSubscribe; ReqGetProperties].
Proof.
  destruct (proj1 (failed_subscription_does_not_stop_cycle closed
                     (External "refused") eq_refl eq_refl))
    as (sys' & Hrun & Hacts & Hreq & _).
  exists sys'. split; [exact Hrun|]. split; [exact Hacts|exact Hreq].
Defined.

(** A pushed block with one matching transfer: one row, the balances 3
    and 4, and the update carries the row and the total 7. *)
Lemma live_push_update_witness :
  exists s',
    run [row_settled 0 51%nat;
         Settled 0 (Fulfilled (VAll [ResGetAddressInfo (G := Toy) 3;
                                     ResGetAddressInfo (G := Toy) 4]));
         Settled 0 (Fulfilled VUnit); Settled 0 (Fulfilled VUnit)]
        (spawn [] (subMsg (ResGetBlock Outage.mixed) (at_height 5 Complete [])))
    = Some {| state := s'; activations := [] |}
    /\ emitted (effects s')
       = [{| status := Complete;
             newData := Some {| totalBalance := amount_toString (7 : Asset);
                                txs := [51%nat] |} |}]
    /\ inserted (effects s') = [transfer B A]
    /\ heights (effects s') = [6].
Proof.
  assert (Hrec : Forall (fun w : TxVariant => recognized (tx w))
                        (transactions Outage.mixed)) by (repeat constructor).
  destruct (live_push_update Outage.mixed (at_height 5 Complete []) [51%nat]
              [3; 4] eq_refl Hrec eq_refl eq_refl)
    as (s' & Hrun & He & Hi & _ & Hh & _).
  exists s'. split; [exact Hrun|]. split; [exact He|]. split; [exact Hi|exact Hh].
Defined.

(** A rejected insert of a range block. *)
Lemma range_callback_failure_is_unhandled_witness :
  resume (AwaitInsert (InRange [50%nat] 1000) 6 [] [])
         (Rejected (External "disk full")) (at_height 5 InProgress [])
  = Some (effect (UnhandledRejection (External "disk full"))
                 (at_height 5 InProgress []),
          Await (AwaitBlockRange [50%nat] 1000)).
Proof.
  exact (range_callback_failure_is_unhandled [50%nat] 1000
           (AwaitInsert (InRange [50%nat] 1000) 6 [] [])
           (External "disk full") (at_height 5 InProgress [])
           (conj eq_refl eq_refl)).
Defined.

End MoreScenes.

Section StoredScenes.
Import Settings Stored.
Existing Instance ToySodium.
Existing Instance ToyEnv.

Lemma load_backup_only :
  load "hunter2" 1700000000000 backup_only
  = ({| files := {[ primary settingsLoc := bytes_of mine ]};
        logged := [RecoveredFromBackup] |}, Returns mine).
Proof. vm_compute. reflexivity. Qed.

(** A load that finds the backup only puts it in the primary's place. *)
Lemma load_leaves_readable_primary_witness :
  load "hunter2" 1700000000001
       {| files := {[ primary settingsLoc := bytes_of mine ]};
          logged := [RecoveredFromBackup] |}
  = ({| files := {[ primary settingsLoc := bytes_of mine ]};
        logged := [RecoveredFromBackup] |}, Returns mine).
Proof.
  exact (proj2 (load_leaves_readable_primary "hunter2" 1700000000000
                  backup_only _ mine load_backup_only) 1700000000001).
Defined.

Lemma load_cut_short :
  load "hunter2" 1700000000000 cut_short
  = ({| files := files cut_short;
        logged := [FailedToReadPrimary RangeError] |}, Throws RangeError).
Proof. vm_compute. reflexivity. Qed.

(** A primary file of one byte and no backup: the load throws what
    reading the version threw. *)
Lemma load_failure_changes_no_file_witness :
  deserialize ["000"%byte] "hunter2" = Throws RangeError.
Proof.
  refine (proj2 (proj2 (proj2 (load_failure_changes_no_file "hunter2"
                                 1700000000000 cut_short _ RangeError
                                 load_cut_short)))
                ["000"%byte] _ _).
  - vm_compute. reflexivity.
  - vm_compute. reflexivity.
Defined.

(** A save of [other] over [mine], stopped after the old file has been
    moved to the backup: the load returns [mine]. *)
Lemma interrupted_save_is_recoverable_witness :
  exists w2,
    sequence (take 2 (save_statements (bytes_of other))) saved = (w2, Returns tt)
    /\ (load "hunter2" 1700000000000 w2).2 = Returns mine.
Proof.
  destruct (interrupted_save_is_recoverable (bytes_of other) (bytes_of mine)
              "hunter2" "hunter2" 1700000000000 saved mine other 2%nat)
    as (w2 & Hseq & Hold & _).
  - vm_compute. reflexivity.
  - vm_compute. reflexivity.
  - vm_compute. reflexivity.
  - exists w2. split; [exact Hseq|]. apply Hold. lia.
Defined.

(** A box that is shorter than an authenticator. *)
Lemma load_wrong_password_witness :
  (load "hunter2" 1700000000000
        {| files := {[ primary settingsLoc :=
                         writeUInt16BE 1 ++ Example.nonce24 ++ ["001"%byte] ]};
           logged := [] |}).2
  = Throws (OfSecretKey
              (Crypto.DecryptError Crypto.INCORRECT_PASSWORD
                 "wrong secret key for the given ciphertext")).
Proof.
  exact (f_equal snd
           (proj1 (load_wrong_password "hunter2" 1700000000000
                     {| files := {[ primary settingsLoc :=
                                      writeUInt16BE 1 ++ Example.nonce24
                                      ++ ["001"%byte] ]};
                        logged := [] |}
                     Example.nonce24 ["001"%byte]
                     "wrong secret key for the given ciphertext"
                     eq_refl eq_refl ltac:(discriminate)
                     ltac:(vm_compute; reflexivity)
                     ltac:(vm_compute; reflexivity) eq_refl))).
Defined.

(** The round trip in the toy environment. *)
Lemma load_after_save_witness :
  exists w',
    save mine "hunter2" Example.nonce24 nothing = (w', Returns tt)
    /\ load "hunter2" 1700000000000 w' = (w', Returns mine).
Proof.
  refine (load_after_save _ _ _ _ _ mine "hunter2" Example.nonce24
            1700000000000 nothing Example.key32 eq_refl eq_refl eq_refl).
  - intros m n k _ _.
    cbn [Crypto.crypto_secretbox_open_easy Crypto.crypto_secretbox_easy ToySodium].
    destruct (decide _) as [_|Hn]; [reflexivity|].
    exfalso. apply Hn. rewrite length_app, length_replicate. lia.
  - intros m n k.
    cbn [Crypto.crypto_secretbox_easy Crypto.crypto_secretbox_MACBYTES ToySodium].
    rewrite length_app, length_replicate. lia.
  - cbn [Crypto.crypto_secretbox_MACBYTES ToySodium]. lia.
  - intros password. cbn [sha256 ToyEnv Crypto.crypto_secretbox_KEYBYTES ToySodium].
    rewrite length_take, length_app, length_replicate. lia.
  - intros key kp Hk.
    cbn [decode_secretKey decode_keyPair encode ToyEnv
         Crypto.crypto_secretbox_KEYBYTES ToySodium] in *.
    rewrite decide_True by (rewrite length_app; lia).
    rewrite <- Hk, take_app_length, drop_app_length. done.
Defined.

End StoredScenes.
